(** * PyGraphbook: ONNX flat graph to nested Graphbook graph

    A shallow embedding of [src/onnx/onnx_2_graphbook.py] and the proofs
    of the properties of its scope-interface propagation and link
    routing.

    Conventions of the embedding:
    - Python [str] is [string]; a composite path is such a string and is
      only ever taken apart with [str.split("/")] and put together with
      ["/".join], which are [split] and [join] below.
    - [dict]s that are only looked up by key are [gmap]s; [dict]s whose
      insertion order is observable (they are iterated) are association
      lists with Python's update-in-place discipline.
    - a [defaultdict] read [d[k]] is a lookup with a default.
    - a function that may raise returns a [result]: [Ok] with its value
      or [Raise] with the exception. *)

From Stdlib Require Import Ascii.
From Stdlib Require String.
From stdpp Require Import base option list gmap strings fin_maps pretty.

(** ** Python string primitives *)

Module Py.

Definition FORWARD_SLASH : ascii := "/"%char.

(** [s.split("/")]: never empty, one more segment than separators. *)
Fixpoint split (s : string) : list string :=
  match s with
  | EmptyString => [EmptyString]
  | String c s' =>
      if Ascii.eqb c FORWARD_SLASH then EmptyString :: split s'
      else match split s' with
           | [] => [String c EmptyString]
           | seg :: segs => String c seg :: segs
           end
  end.

(** ["/".join(l)] *)
Fixpoint join (l : list string) : string :=
  match l with
  | [] => EmptyString
  | [seg] => seg
  | seg :: rest => seg +:+ String FORWARD_SLASH (join rest)
  end.

(** [s.startswith(p)] *)
Definition startswith (s p : string) : bool := String.prefix p s.

(** [range(a, b)] *)
Definition range (a b : nat) : list nat := seq a (b - a).

(** [l[:-1]] *)
Definition but_last {A} (l : list A) : list A := take (length l - 1) l.

End Py.

(** ** The variable map (ScopeInterface accumulator)

    [var_map] is a [defaultdict(dict)]: composite path to a dict with the
    keys ["input"] and ["output"], each a list of variable names. *)

Definition INPUT : string := "input".
Definition INPUTS : string := "inputs".
Definition OUTPUT : string := "output".
Definition NAME : string := "name".

Abbreviation var_map := (gmap string (gmap string (list string))).

(** The four-line body shared by every loop of the propagator:
<<
    if FIELD not in var_map[join_back]:
        var_map[join_back][FIELD] = []
    if var_name not in var_map[join_back][FIELD]:
        var_map[join_back][FIELD].append(var_name)
>> *)
Definition add_var (field join_back var_name : string) (m : var_map) : var_map :=
  let entry := default ∅ (m !! join_back) in
  let vars := default [] (entry !! field) in
  let vars' := if decide (var_name ∈ vars) then vars else vars ++ [var_name] in
  <[join_back := <[field := vars']> entry]> m.

(** The loop computing [shared_parts], with its [break]. *)
Fixpoint shared_parts_loop (path1_split path2_split : list string)
    (idx : list nat) (shared_parts : list string) : list string :=
  match idx with
  | [] => shared_parts
  | i :: idx' =>
      if decide (take (i + 1) path1_split = take (i + 1) path2_split)
      then shared_parts_loop path1_split path2_split idx'
             (shared_parts ++ [Py.join (take (i + 1) path1_split)])
      else shared_parts
  end.

(** One side of the cross-stream case: every prefix of the path that is
    not in [shared_parts] gets the variable in [field]. *)
Definition cross_stream_side (field var_name : string)
    (path_split shared_parts : list string) (m : var_map) : var_map :=
  foldl (fun m i =>
           let join_back := Py.join (take (i + 1) path_split) in
           if decide (join_back ∈ shared_parts) then m
           else add_var field join_back var_name m)
        m (Py.range 0 (length path_split)).

Definition _calculate_composite_input_outputs
    (var_name path1 path2 : string) (m : var_map) : var_map :=
  if decide (path1 = "") then
    (* going downstream from path1 to path2 *)
    let path2_split := Py.split path2 in
    foldl (fun m i => add_var INPUT (Py.join (take (i + 1) path2_split)) var_name m)
          m (Py.range 1 (length path2_split))
  else if decide (path2 = "") then
    (* going upstream from path1 to path2 *)
    let path1_split := Py.split path1 in
    foldl (fun m i => add_var OUTPUT (Py.join (take (i + 1) path1_split)) var_name m)
          m (Py.range 0 (length path1_split))
  else if Py.startswith path1 path2 then
    let path1_split := Py.split path1 in
    let path2_split := Py.split path2 in
    let partial_split := drop (length path2_split) path1_split in
    foldl (fun m i =>
             add_var OUTPUT
               (path2 +:+ String Py.FORWARD_SLASH (Py.join (take (i + 1) partial_split)))
               var_name m)
          m (Py.range 0 (length partial_split))
  else if Py.startswith path2 path1 then
    let path1_split := Py.split path1 in
    let path2_split := Py.split path2 in
    let partial_split := drop (length path1_split) path2_split in
    foldl (fun m i =>
             add_var INPUT
               (path1 +:+ String Py.FORWARD_SLASH (Py.join (take (i + 1) partial_split)))
               var_name m)
          m (Py.range 0 (length partial_split))
  else
    let path1_split := Py.split path1 in
    let path2_split := Py.split path2 in
    let shared_parts :=
      shared_parts_loop path1_split path2_split
        (Py.range 0 (min (length path1_split) (length path2_split))) [] in
    let m := cross_stream_side OUTPUT var_name path1_split shared_parts m in
    cross_stream_side INPUT var_name path2_split shared_parts m.


(** ** Reading the variable map *)

(** [var_map[key][field]] when both keys are present. *)
Definition field_of (field key : string) (m : var_map) : option (list string) :=
  m !! key ≫= fun entry => entry !! field.

(** The required-input ([INPUT]) or required-output ([OUTPUT]) list of a
    scope; a scope without the list requires nothing. *)
Definition required (field key : string) (m : var_map) : list string :=
  default [] (field_of field key m).

(** One addition to the variable map: a variable name entering the
    [field] list of the scope [key]. *)
Record Addition := {
  add_name : string;
  add_field : string;
  add_key : string
}.

Definition run_adds (adds : list Addition) (m : var_map) : var_map :=
  foldl (fun m a => add_var (add_field a) (add_key a) (add_name a) m) m adds.

(** The additions of one variable to a list of (field, scope key) targets. *)
Definition additions_of (var_name : string) (fks : list (string * string)) : list Addition :=
  (fun fk => {| add_name := var_name; add_field := fk.1; add_key := fk.2 |}) <$> fks.

Definition apply_adds (var_name : string) (adds : list (string * string))
    (m : var_map) : var_map :=
  run_adds (additions_of var_name adds) m.

(** The depth of a scope path and its prefix of a given depth. *)
Definition depth (path : string) : nat := length (Py.split path).

Definition scope_prefix (d : nat) (path : string) : string :=
  Py.join (take d (Py.split path)).

Definition prefix_keys (field : string) (path_split : list string) (idx : list nat)
    : list (string * string) :=
  (fun i => (field, Py.join (take (i + 1) path_split))) <$> idx.

Definition partial_keys (field base : string) (partial_split : list string)
    : list (string * string) :=
  (fun i => (field, base +:+ String Py.FORWARD_SLASH (Py.join (take (i + 1) partial_split))))
    <$> Py.range 0 (length partial_split).

Definition unshared_keys (field : string) (path_split shared_parts : list string)
    : list (string * string) :=
  filter (fun fk => fk.2 ∉ shared_parts)
         (prefix_keys field path_split (Py.range 0 (length path_split))).

(** The additions one call of the propagator performs, in order, read
    off its five branches; [calculate_targets] below proves that the
    propagator is exactly this sequence of additions. *)
Definition targets (path1 path2 : string) : list (string * string) :=
  if decide (path1 = "") then
    prefix_keys INPUT (Py.split path2) (Py.range 1 (length (Py.split path2)))
  else if decide (path2 = "") then
    prefix_keys OUTPUT (Py.split path1) (Py.range 0 (length (Py.split path1)))
  else if Py.startswith path1 path2 then
    partial_keys OUTPUT path2 (drop (length (Py.split path2)) (Py.split path1))
  else if Py.startswith path2 path1 then
    partial_keys INPUT path1 (drop (length (Py.split path1)) (Py.split path2))
  else
    let shared_parts :=
      shared_parts_loop (Py.split path1) (Py.split path2)
        (Py.range 0 (min (length (Py.split path1)) (length (Py.split path2)))) [] in
    unshared_keys OUTPUT (Py.split path1) shared_parts
    ++ unshared_keys INPUT (Py.split path2) shared_parts.

(** ** Exceptions *)

Inductive exn :=
  | KeyError (key : string)
  | ValueError (msg : string)
  | IndexError (msg : string)
  | TypeError (msg : string).

Inductive result (A : Type) :=
  | Ok (a : A)
  | Raise (e : exn).
Arguments Ok {A} a.
Arguments Raise {A} e.

#[global] Instance result_ret : MRet result := fun A a => Ok a.
#[global] Instance result_bind : MBind result := fun A B k r =>
  match r with
  | Ok a => k a
  | Raise e => Raise e
  end.

Definition is_ok {A} (r : result A) : bool :=
  match r with Ok _ => true | Raise _ => false end.

(** A [for] loop whose body may raise: the first exception ends it. *)
Fixpoint for_each {S A} (body : S -> A -> result S) (s : S) (l : list A) : result S :=
  match l with
  | [] => Ok s
  | x :: l' => s' ← body s x; for_each body s' l'
  end.

(** [d[k]] on a plain dict. *)
Definition getitem {V} (d : gmap string V) (k : string) : result V :=
  match d !! k with
  | Some v => Ok v
  | None => Raise (KeyError k)
  end.

(** ** Insertion-ordered dicts *)

Module Dict.

(** [d[k] = v]: an existing key keeps its position. *)
Fixpoint set {V} (k : string) (v : V) (d : list (string * V)) : list (string * V) :=
  match d with
  | [] => [(k, v)]
  | (k', v') :: d' =>
      if decide (k = k') then (k, v) :: d' else (k', v') :: set k v d'
  end.

(** [d[k].append(x)] on a [defaultdict(list)]. *)
Fixpoint append {A} (k : string) (x : A) (d : list (string * list A))
    : list (string * list A) :=
  match d with
  | [] => [(k, [x])]
  | (k', l) :: d' =>
      if decide (k = k') then (k', l ++ [x]) :: d' else (k', l) :: append k x d'
  end.

End Dict.

(** ** The flat graph

    Modelled from the spec: the classes [OnnxOperation], [OnnxLink] and
    [OnnxGraph] of [src.onnx.onnx_helper] are not among the sources; the
    records carry the attributes the converter reads (section 6 of the
    specification: identity, optional scope-path string, ordered input and
    output variable names, primitive-type tag, opaque primitive
    metadata; variable name, producer and consumer identity; the graph's
    declared inputs and outputs).  An operation without a composite path
    has the empty path. *)

(** The operator metadata of an operation ([op_type_meta_data]), opaque
    in the specification, typed by the way [onnx_op_to_graphbook] reads
    it: a dict whose entries ["inputs"] and ["outputs"] are lists of
    dicts describing one variable each, and whose entry ["attribute"] is
    a list of sequences, each unpacked into an index and an attribute
    description.  An entry is [None] when the dict has not the key. *)

(** [var_meta]: the description of one variable, a dict. *)
Definition VarMeta := list (string * string).

(** An attribute description: read by key ([attribute[NAME]],
    [attribute['type']]) and by field ([attribute.i],
    [attribute.ints]). *)
Record AttributeMeta := {
  attr_items : list (string * string);
  attr_i : Z;
  attr_ints : list Z
}.

(** What a sequence of the ["attribute"] entry may hold. *)
Inductive MetaItem :=
  | ItemIndex (i : Z)
  | ItemAttribute (attribute : AttributeMeta).

Record OpTypeMetaData := {
  meta_inputs : option (list VarMeta);
  meta_outputs : option (list VarMeta);
  meta_attribute : option (list (list MetaItem))
}.

(** [op_attribute] holds the names of [onnx_op.attribute], the only
    thing the converter reads of them; [op_type_meta_data] is [None]
    when the metadata is falsy ([None] or an empty dict), and a dict
    with at least one key otherwise. *)
Record OnnxOperation := {
  op_name : string;
  op_opType : string;
  op_input : list string;
  op_output : list string;
  op_composite_path : string;
  op_attribute : list string;
  op_type_meta_data : option OpTypeMetaData
}.

Record OnnxLink := {
  link_source : string;
  link_sink : string;
  link_var_name : string
}.

Record OnnxGraph := {
  graph_name : string;
  onnx_ops : list OnnxOperation;
  onnx_links : list OnnxLink;
  graph_inputs : list string;
  graph_outputs : list string
}.

(** ** The nested graph

    Modelled from the spec: the classes of [src.graph] ([Variable],
    [LinkEndpoint], [Link], [Operation], [OperationType], [DataType]) are
    not among the sources.  An [Operation] is built in two shapes here: a
    leaf by [onnx_op_to_graphbook], with neither [operations] nor
    [links], and a composite by the assembler.  Composites are shared
    (a child is appended to its parent and mutated afterwards), so they
    live in a store keyed by the name they have in
    [graphbook_composite_map], and a parent refers to a nested composite
    by that key; leaves are never mutated and are held by value.  The
    membership test [primitive_source in composite.operations] compares
    by value: a leaf is found among the leaves equal to it, and is never
    equal to a nested composite. *)

Inductive DataType := INTEGER | DECIMAL | TEXT | BOOLEAN | NULL.
Inductive OperationType := COMPOSITE_OPERATION | PRIMITIVE_OPERATION.

(** [graphbook.Variable]; the class name is reserved here. *)
Record GVariable := {
  var_name : string;
  var_primitive_name : option string;
  var_type : option DataType;
  var_shape : option (list nat);
  var_onnx_attribute : option bool
}.

(** [graphbook.Variable(name=n)] *)
Definition Variable_named (n : string) : GVariable :=
  {| var_name := n; var_primitive_name := None; var_type := None;
     var_shape := None; var_onnx_attribute := None |}.

Record LinkEndpoint := { operation : string; data : string }.

Record Link := {
  source : LinkEndpoint;
  sink : LinkEndpoint;
  link_var : option string
}.

Definition THIS : string := "this".

Record Primitive := {
  prim_name : string;
  prim_primitive_name : string;
  prim_type : OperationType;
  prim_inputs : list GVariable;
  prim_outputs : list GVariable
}.

Inductive Child :=
  | ChildPrimitive (p : Primitive)
  | ChildComposite (key : string).

Module Composite.
Record t := {
  name : string;
  primitive_name : string;
  type : OperationType;
  operations : list Child;
  inputs : list GVariable;
  outputs : list GVariable;
  links : list Link
}.
End Composite.
Abbreviation Composite := Composite.t.

#[global] Instance DataType_eq_dec : EqDecision DataType.
Proof. solve_decision. Defined.
#[global] Instance OperationType_eq_dec : EqDecision OperationType.
Proof. solve_decision. Defined.
#[global] Instance GVariable_eq_dec : EqDecision GVariable.
Proof. solve_decision. Defined.
#[global] Instance LinkEndpoint_eq_dec : EqDecision LinkEndpoint.
Proof. solve_decision. Defined.
#[global] Instance Link_eq_dec : EqDecision Link.
Proof. solve_decision. Defined.
#[global] Instance Primitive_eq_dec : EqDecision Primitive.
Proof. solve_decision. Defined.
#[global] Instance Child_eq_dec : EqDecision Child.
Proof. solve_decision. Defined.

Abbreviation composite_store := (gmap string Composite).

(** What [onnx_graph_to_graphbook] returns: the root object, given as
    its key together with the composites that can be reached from it
    through [operations], each under its key. *)
Record Tree := { tree_root : string; tree_store : composite_store }.

Definition set_links (c : Composite) (ls : list Link) : Composite :=
  {| Composite.name := Composite.name c;
     Composite.primitive_name := Composite.primitive_name c;
     Composite.type := Composite.type c;
     Composite.operations := Composite.operations c;
     Composite.inputs := Composite.inputs c;
     Composite.outputs := Composite.outputs c;
     Composite.links := ls |}.

Definition set_operations (c : Composite) (ops : list Child) : Composite :=
  {| Composite.name := Composite.name c;
     Composite.primitive_name := Composite.primitive_name c;
     Composite.type := Composite.type c;
     Composite.operations := ops;
     Composite.inputs := Composite.inputs c;
     Composite.outputs := Composite.outputs c;
     Composite.links := Composite.links c |}.

(** [gcm[key].links.append(l)], for a key that is present. *)
Definition append_link (key : string) (l : Link) (gcm : composite_store) : composite_store :=
  match gcm !! key with
  | Some c => <[key := set_links c (Composite.links c ++ [l])]> gcm
  | None => gcm
  end.

(** [d.get(k)] on an insertion-ordered dict. *)
Fixpoint dict_get {V} (k : string) (d : list (string * V)) : option V :=
  match d with
  | [] => None
  | (k', v) :: d' => if decide (k = k') then Some v else dict_get k d'
  end.

(** [pat in s] on strings: [pat] occurs in [s] at some position. *)
Fixpoint str_contains (pat s : string) : bool :=
  Py.startswith s pat
  || match s with
     | EmptyString => false
     | String _ s' => str_contains pat s'
     end.

Definition _get_graphbook_type_from_str (type_str : string) : DataType :=
  if str_contains "(int" type_str || str_contains "(uint" type_str then INTEGER
  else if str_contains "(float" type_str || str_contains "(double" type_str
          || str_contains "(bfloat" type_str then DECIMAL
  else if str_contains "(string" type_str then TEXT
  else if str_contains "(bool" type_str then BOOLEAN
  else NULL.

(** [composite_names] is a Python [set]: the order in which a [for]
    loop visits it is some enumeration of its elements. *)
Class SetIteration := {
  set_iter : gset string -> list string;
  set_iter_perm : forall s, set_iter s ≡ₚ elements s
}.

Section Converter.

Context {iteration : SetIteration}.

(** *** Operations *)

(** [graphbook.Variable(name=n)] for the [i]-th variable of an operation
    without metadata: only the two file primitives name the roles of
    their first variables. *)
Definition role_variable (roles : list string) (i : nat) (n : string) : GVariable :=
  {| var_name := n; var_primitive_name := roles !! i; var_type := None;
     var_shape := None; var_onnx_attribute := None |}.

(** [op_type_meta_data[key]] for a key of the metadata dict. *)
Definition meta_entry {A} (key : string) (entry : option A) : result A :=
  match entry with
  | Some v => Ok v
  | None => Raise (KeyError key)
  end.

(** [l[i]] on a list. *)
Definition list_item {A} (l : list A) (i : nat) : result A :=
  match l !! i with
  | Some v => Ok v
  | None => Raise (IndexError "list index out of range")
  end.

(** The body of the loop over [onnx_op.input] with metadata. *)
Definition input_variable (meta : OpTypeMetaData) (i : nat) (inp : string)
    : result GVariable :=
  input_meta ← meta_entry INPUTS (meta_inputs meta);
  if bool_decide (input_meta ≠ []) && bool_decide (length input_meta ≤ i) then
    var_meta ← list_item input_meta 0;
    Ok {| var_name := inp;
          var_primitive_name :=
            if bool_decide (is_Some (dict_get "list" var_meta))
            then Some ("list_item_" +:+ pretty i) else None;
          var_type := None; var_shape := None; var_onnx_attribute := None |}
  else
    var_meta ← list_item input_meta i;
    Ok {| var_name := inp; var_primitive_name := dict_get NAME var_meta;
          var_type := None; var_shape := None; var_onnx_attribute := None |}.

(** The body of the loop over [op_type_meta_data["attribute"]]:
    [for i, attribute in ...] unpacks each element. *)
Definition attribute_variable (attribute_names : list string) (element : list MetaItem)
    : result GVariable :=
  match element with
  | [_; ItemAttribute attribute] =>
      match dict_get NAME (attr_items attribute) with
      | None => Raise (KeyError NAME)
      | Some name =>
          Ok {| var_name := name;
                var_primitive_name := Some ("attribute_" +:+ name);
                var_type :=
                  match dict_get "type" (attr_items attribute) with
                  | Some type_str => Some (_get_graphbook_type_from_str type_str)
                  | None =>
                      if bool_decide (attr_i attribute ≠ 0%Z) then Some INTEGER
                      else if bool_decide (attr_ints attribute ≠ []) then Some INTEGER
                      else None
                  end;
                var_shape :=
                  match dict_get "type" (attr_items attribute) with
                  | Some _ => None
                  | None =>
                      if bool_decide (attr_i attribute ≠ 0%Z) then None
                      else if bool_decide (attr_ints attribute ≠ [])
                           then Some [length (attr_ints attribute)]
                      else None
                  end;
                var_onnx_attribute := Some (bool_decide (name ∈ attribute_names)) |}
      end
  | [_; ItemIndex _] => Raise (TypeError "'int' object is not subscriptable")
  | _ => Raise (ValueError "cannot unpack the element into (i, attribute)")
  end.

(** The body of the loop over [onnx_op.output] with metadata. *)
Definition output_variable (meta : OpTypeMetaData) (i : nat) (out : string)
    : result GVariable :=
  outputs_meta ← meta_entry "outputs" (meta_outputs meta);
  var_meta ← list_item outputs_meta i;
  Ok {| var_name := out; var_primitive_name := dict_get NAME var_meta;
        var_type := None; var_shape := None; var_onnx_attribute := None |}.

(** [for i, x in enumerate(l)] with a body that may raise, appending
    what the body builds. *)
Fixpoint enumerate_each {A B} (body : nat -> A -> result B) (i : nat) (l : list A)
    : result (list B) :=
  match l with
  | [] => Ok []
  | x :: l' => y ← body i x; ys ← enumerate_each body (S i) l'; Ok (y :: ys)
  end.

(** [graphbook_inputs] when the output loop is reached: the inputs,
    then one variable per attribute of the metadata. *)
Definition graphbook_inputs_of (onnx_op : OnnxOperation) : result (list GVariable) :=
  match op_type_meta_data onnx_op with
  | None =>
      Ok (imap (role_variable
                  (if decide (op_opType onnx_op = "read_from_file")
                   then ["file_name"; "dir_name"; "extraction_schema"] else []))
               (op_input onnx_op))
  | Some meta =>
      inputs ← enumerate_each (input_variable meta) 0 (op_input onnx_op);
      attributes ← enumerate_each (fun _ => attribute_variable (op_attribute onnx_op)) 0
                     (default [] (meta_attribute meta));
      Ok (inputs ++ attributes)
  end.

Definition graphbook_outputs_of (onnx_op : OnnxOperation) : result (list GVariable) :=
  match op_type_meta_data onnx_op with
  | None =>
      Ok (imap (role_variable
                  (if decide (op_opType onnx_op = "write_to_file")
                   then ["file_name"; "dir_name"; "overwrite"; "data"] else []))
               (op_output onnx_op))
  | Some meta => enumerate_each (output_variable meta) 0 (op_output onnx_op)
  end.

Definition onnx_op_to_graphbook (onnx_op : OnnxOperation) : result Primitive :=
  graphbook_inputs ← graphbook_inputs_of onnx_op;
  graphbook_outputs ← graphbook_outputs_of onnx_op;
  Ok {| prim_name := op_name onnx_op;
        prim_primitive_name := op_opType onnx_op;
        prim_type :=
          if decide (op_opType onnx_op ∈ ["read_from_file"; "write_to_file"])
          then PRIMITIVE_OPERATION else COMPOSITE_OPERATION;
        prim_inputs := graphbook_inputs;
        prim_outputs := graphbook_outputs |}.

(** *** Scope discovery *)

Definition _compile_onnx_composite_map (onnx_graph : OnnxGraph)
    (composite_names : gset string)
    : gmap string (list OnnxOperation) * gset string :=
  foldl (fun '(composite_map, composite_names) op =>
           if decide (op_composite_path op = "") then
             (<[graph_name onnx_graph :=
                  default [] (composite_map !! graph_name onnx_graph) ++ [op]]>
                composite_map,
              composite_names)
           else
             let split_path := Py.split (op_composite_path op) in
             let composite_names :=
               foldl (fun names i => names ∪ {[Py.join (take (i + 1) split_path)]})
                     composite_names (Py.range 0 (length split_path)) in
             (<[op_composite_path op :=
                  default [] (composite_map !! op_composite_path op) ++ [op]]>
                composite_map,
              composite_names))
        (∅, composite_names) (onnx_ops onnx_graph).

(** [{op.name: op for op in onnx_graph.onnx_ops}] *)
Definition name_to_op_of (onnx_graph : OnnxGraph) : gmap string OnnxOperation :=
  foldl (fun d op => <[op_name op := op]> d) ∅ (onnx_ops onnx_graph).

(** *** Interface propagation over the link list *)

Definition link_map_step (onnx_graph : OnnxGraph)
    (name_to_op : gmap string OnnxOperation)
    (st : list (string * list OnnxLink) * var_map) (link : OnnxLink)
    : result (list (string * list OnnxLink) * var_map) :=
  let '(composite_link_map, composite_var_map) := st in
  if decide (link_sink link = graph_name onnx_graph) then
    let composite_link_map := Dict.append (graph_name onnx_graph) link composite_link_map in
    src ← getitem name_to_op (link_source link);
    Ok (composite_link_map,
        _calculate_composite_input_outputs (link_var_name link)
          (op_composite_path src) "" composite_var_map)
  else if bool_decide (is_Some (name_to_op !! link_source link))
          && bool_decide (link_var_name link ∈ graph_outputs onnx_graph) then
    Ok st
  else
    match name_to_op !! link_sink link with
    | Some snk =>
        if decide (op_composite_path snk ≠ "") then
          let composite_link_map :=
            Dict.append (op_composite_path snk) link composite_link_map in
          if decide (link_source link = graph_name onnx_graph) then
            Ok (composite_link_map,
                _calculate_composite_input_outputs (link_var_name link)
                  "" (op_composite_path snk) composite_var_map)
          else
            src ← getitem name_to_op (link_source link);
            if decide (op_composite_path src = ""
                       ∨ op_composite_path snk ≠ op_composite_path src) then
              Ok (composite_link_map,
                  _calculate_composite_input_outputs (link_var_name link)
                    (op_composite_path src) (op_composite_path snk) composite_var_map)
            else Ok (composite_link_map, composite_var_map)
        else if decide (link_source link = graph_name onnx_graph) then
          Ok (Dict.append (graph_name onnx_graph) link composite_link_map,
              composite_var_map)
        else
          src ← getitem name_to_op (link_source link);
          if decide (op_composite_path src ≠ "") then
            Ok (Dict.append (graph_name onnx_graph) link composite_link_map,
                _calculate_composite_input_outputs (link_var_name link)
                  (op_composite_path src) (op_composite_path snk) composite_var_map)
          else
            Ok (Dict.append (graph_name onnx_graph) link composite_link_map,
                composite_var_map)
    | None =>
        Raise (ValueError ("Link sink " +:+ link_sink link +:+ " not recognized"))
    end.

Definition _compile_onnx_composite_link_map (onnx_graph : OnnxGraph)
    (name_to_op : gmap string OnnxOperation) (composite_var_map : var_map)
    : result (list (string * list OnnxLink) * var_map) :=
  for_each (link_map_step onnx_graph name_to_op) ([], composite_var_map)
           (onnx_links onnx_graph).

(** *** Composite assembly *)

(** The state the assembler loop threads: [composite_map],
    [primitive_map], [graphbook_composite_map], [already_visited_root]. *)
Record AssemblerState := {
  as_composite_map : gmap string (list OnnxOperation);
  as_primitive_map : gmap string Primitive;
  as_graphbook_composite_map : composite_store;
  as_already_visited_root : bool
}.

(** [{onnx_op.name: onnx_op_to_graphbook(onnx_op) for onnx_op in ops}] *)
Definition this_primitive_of (ops : list OnnxOperation)
    : result (list (string * Primitive)) :=
  for_each (fun d onnx_op =>
              p ← onnx_op_to_graphbook onnx_op;
              Ok (Dict.set (op_name onnx_op) p d))
           [] ops.

(** The tail of the loop body, from [this_primitive = {}] on. *)
Definition assemble_composite (name : string) (inputs outputs : list string)
    (composite_map : gmap string (list OnnxOperation))
    (primitive_map : gmap string Primitive)
    (graphbook_composite_map : composite_store)
    : result (gmap string Primitive * composite_store) :=
  this_primitive ←
    match composite_map !! name with
    | Some ops => this_primitive_of ops
    | None => Ok []
    end;
  let primitive_map :=
    foldl (fun d kv => <[kv.1 := kv.2]> d) primitive_map this_primitive in
  Ok (primitive_map,
      <[name := {| Composite.name := name;
                   Composite.primitive_name := name;
                   Composite.type := COMPOSITE_OPERATION;
                   Composite.operations := ChildPrimitive <$> (snd <$> this_primitive);
                   Composite.inputs := Variable_named <$> inputs;
                   Composite.outputs := Variable_named <$> outputs;
                   Composite.links := [] |}]> graphbook_composite_map).

Definition assemble_step (onnx_graph : OnnxGraph) (composite_var_map : var_map)
    (st : AssemblerState) (name : string) : result AssemblerState :=
  if decide (name = "") then
    if as_already_visited_root st then Ok st
    else
      let composite_map := as_composite_map st in
      let composite_map :=
        if decide (is_Some (composite_map !! graph_name onnx_graph)) then composite_map
        else <[graph_name onnx_graph := []]> composite_map in
      let composite_map :=
        match composite_map !! name with
        | Some ops =>
            <[graph_name onnx_graph :=
                default [] (composite_map !! graph_name onnx_graph) ++ ops]> composite_map
        | None => composite_map
        end in
      '(primitive_map, gcm) ←
        assemble_composite (graph_name onnx_graph)
          (graph_inputs onnx_graph) (graph_outputs onnx_graph)
          composite_map (as_primitive_map st) (as_graphbook_composite_map st);
      Ok {| as_composite_map := composite_map; as_primitive_map := primitive_map;
            as_graphbook_composite_map := gcm; as_already_visited_root := true |}
  else
    let entry := default ∅ (composite_var_map !! name) in
    '(primitive_map, gcm) ←
      assemble_composite name
        (default [] (entry !! INPUT)) (default [] (entry !! OUTPUT))
        (as_composite_map st) (as_primitive_map st) (as_graphbook_composite_map st);
    Ok {| as_composite_map := as_composite_map st; as_primitive_map := primitive_map;
          as_graphbook_composite_map := gcm;
          as_already_visited_root := as_already_visited_root st |}.

Definition _compile_graphbook_operations_from_composite_map
    (onnx_graph : OnnxGraph) (composite_map : gmap string (list OnnxOperation))
    (composite_names : gset string) (primitive_map : gmap string Primitive)
    (composite_var_map : var_map) : result AssemblerState :=
  for_each (assemble_step onnx_graph composite_var_map)
           {| as_composite_map := composite_map; as_primitive_map := primitive_map;
              as_graphbook_composite_map := ∅; as_already_visited_root := false |}
           (set_iter composite_names).

(** *** Boundary link wiring *)

Definition names_of (vars : list GVariable) : list string := var_name <$> vars.

Definition endpoint (op d : string) : LinkEndpoint := {| operation := op; data := d |}.

(** The links of one side of a parent/child boundary: for every child
    variable, for every parent variable of the same name, one link. *)
Definition boundary_links (mk : string -> Link) (sub_vars parent_vars : list GVariable)
    : list Link :=
  flat_map (fun v =>
              flat_map (fun comp_v =>
                          if decide (var_name v = var_name comp_v)
                          then [mk (var_name v)] else [])
                       parent_vars)
           sub_vars.

Definition input_boundary_link (name v : string) : Link :=
  {| source := endpoint THIS v; sink := endpoint name v; link_var := None |}.

Definition output_boundary_link (name v : string) : Link :=
  {| source := endpoint name v; sink := endpoint THIS v; link_var := None |}.

Definition parent_name_of (onnx_graph : OnnxGraph) (name : string) : string :=
  let parent_name := Py.join (Py.but_last (Py.split name)) in
  if decide (String.length parent_name = 0) then graph_name onnx_graph else parent_name.

Definition wire_step (onnx_graph : OnnxGraph)
    (gcm : composite_store) (name : string) : result composite_store :=
  if decide (name = graph_name onnx_graph) then Ok gcm
  else if decide (length (Py.split name) <= 1) then Ok gcm
  else
    let parent_name := parent_name_of onnx_graph name in
    sub_op ← getitem gcm name;
    parent_composite ← getitem gcm parent_name;
    Ok (<[parent_name :=
            set_links
              (set_operations parent_composite
                 (Composite.operations parent_composite ++ [ChildComposite name]))
              (Composite.links parent_composite
                 ++ boundary_links (input_boundary_link name)
                      (Composite.inputs sub_op) (Composite.inputs parent_composite)
                 ++ boundary_links (output_boundary_link name)
                      (Composite.outputs sub_op) (Composite.outputs parent_composite))]>
          gcm).

Definition _compile_links_between_composite (onnx_graph : OnnxGraph)
    (graphbook_composite_map : composite_store) (composite_names : gset string)
    : result composite_store :=
  for_each (wire_step onnx_graph) graphbook_composite_map (set_iter composite_names).

(** *** Cross-scope link routing *)

Definition route_link (onnx_graph : OnnxGraph)
    (primitive_map : gmap string Primitive) (composite_name : string)
    (gcm : composite_store) (link : OnnxLink) : result composite_store :=
  if decide (link_source link = graph_name onnx_graph) then Ok gcm
  else
    primitive_source ← getitem primitive_map (link_source link);
    composite ← getitem gcm composite_name;
    if decide (ChildPrimitive primitive_source ∈ Composite.operations composite) then
      Ok (append_link composite_name
            {| source := endpoint (link_source link) (link_var_name link);
               sink := endpoint (link_sink link) (link_var_name link);
               link_var := Some (link_var_name link) |} gcm)
    else if decide (composite_name = graph_name onnx_graph) then
      let sink_name := Py.join (Py.but_last (Py.split (prim_name primitive_source))) in
      next_composite ← getitem gcm sink_name;
      if decide (link_var_name link ∈ names_of (Composite.outputs next_composite)) then
        Ok (append_link sink_name
              {| source := endpoint (prim_name primitive_source) (link_var_name link);
                 sink := endpoint THIS (link_var_name link);
                 link_var := None |} gcm)
      else Raise (ValueError "Expected link var name to be in composite outputs")
    else if negb (Py.startswith (prim_name primitive_source) composite_name) then
      if decide (link_var_name link ∈ names_of (Composite.inputs composite)) then
        Ok (append_link composite_name
              {| source := endpoint THIS (link_var_name link);
                 sink := endpoint (link_sink link) (link_var_name link);
                 link_var := None |} gcm)
      else Raise (ValueError "Expected link var name to be in composite inputs")
    else
      let split_name := Py.split (prim_name primitive_source) in
      let split_composite_name := Py.split composite_name in
      if decide (length split_name <= length split_composite_name) then
        Raise (ValueError "Primitive source name is not longer than composite name")
      else
        let next_composite_name :=
          Py.join (take (length split_composite_name + 1) split_name) in
        next_composite ← getitem gcm next_composite_name;
        if decide (link_var_name link ∈ names_of (Composite.outputs next_composite)) then
          Ok (append_link composite_name
                {| source := endpoint next_composite_name (link_var_name link);
                   sink := endpoint (link_sink link) (link_var_name link);
                   link_var := None |} gcm)
        else Raise (ValueError "Expected link var name to be in composite outputs").

Definition _compile_links_between_composite_and_primitive (onnx_graph : OnnxGraph)
    (graphbook_composite_map : composite_store)
    (primitive_map : gmap string Primitive)
    (composite_link_map : list (string * list OnnxLink)) : result composite_store :=
  for_each (fun gcm '(composite_name, link_list) =>
              _ ← getitem gcm composite_name;
              for_each (route_link onnx_graph primitive_map composite_name) gcm link_list)
           graphbook_composite_map composite_link_map.

(** *** The conversion *)

(** [graphbook_composite_map] when the [return] of
    [onnx_graph_to_graphbook] is reached. *)
Definition graphbook_composite_map_of (onnx_graph : OnnxGraph) : result composite_store :=
  let '(composite_map, composite_names) :=
    _compile_onnx_composite_map onnx_graph {[""]} in
  let name_to_op := name_to_op_of onnx_graph in
  '(composite_link_map, composite_var_map) ←
    _compile_onnx_composite_link_map onnx_graph name_to_op ∅;
  st ← _compile_graphbook_operations_from_composite_map onnx_graph composite_map
         composite_names ∅ composite_var_map;
  gcm ← _compile_links_between_composite onnx_graph
          (as_graphbook_composite_map st) composite_names;
  _compile_links_between_composite_and_primitive onnx_graph gcm
    (as_primitive_map st) composite_link_map.

(** The function returns the root object alone; what belongs to the
    returned value is what the root reaches through [operations]. *)

(** The keys of the composites nested directly in a composite. *)
Definition nested_keys (c : Composite) : list string :=
  omap (fun child => match child with
                     | ChildComposite key => Some key
                     | ChildPrimitive _ => None
                     end)
       (Composite.operations c).

(** The keys reached from [key] by at most [fuel] steps of nesting. *)
Fixpoint reachable_keys (fuel : nat) (gcm : composite_store) (key : string) : list string :=
  key :: match fuel with
         | 0 => []
         | S fuel' =>
             match gcm !! key with
             | Some c => flat_map (reachable_keys fuel' gcm) (nested_keys c)
             | None => []
             end
         end.

(** [key'] is reached from [key] through [operations] in [n] steps. *)
Inductive nested_at (gcm : composite_store) : nat -> string -> string -> Prop :=
  | nested_at_here key : nested_at gcm 0 key key
  | nested_at_child n key c child key' :
      gcm !! key = Some c ->
      ChildComposite child ∈ Composite.operations c ->
      nested_at gcm n child key' ->
      nested_at gcm (S n) key key'.

(** [key] is the root or one of the composites nested, at any depth, in
    the root. *)
Definition nested_in (gcm : composite_store) (root key : string) : Prop :=
  exists n, nested_at gcm n root key.

(** A composite is only ever nested in the composite of its path
    without the last segment, so no chain of nested composites is longer
    than the deepest key of the store ([returned_tree_lookup_iff]
    below). *)
Definition store_depth (gcm : composite_store) : nat :=
  max_list (depth <$> (map_to_list gcm).*1).

Definition returned_tree (root : string) (gcm : composite_store) : Tree :=
  {| tree_root := root;
     tree_store :=
       filter (fun kc => kc.1 ∈ reachable_keys (store_depth gcm) gcm root) gcm |}.

Definition onnx_graph_to_graphbook (onnx_graph : OnnxGraph) : result Tree :=
  gcm ← graphbook_composite_map_of onnx_graph;
  _ ← getitem gcm (graph_name onnx_graph);
  Ok (returned_tree (graph_name onnx_graph) gcm).

(** *** The assembler when no conversion raises

    The assembler raises only through [onnx_op_to_graphbook].  The
    definitions below are the same loop with the value every conversion
    returns when it does not raise; [assembler_returns] proves that this
    is the state the assembler returns whenever it returns one. *)

Definition value_or {A} (d : A) (r : result A) : A :=
  match r with
  | Ok a => a
  | Raise _ => d
  end.

Definition converted (onnx_op : OnnxOperation) : Primitive :=
  {| prim_name := op_name onnx_op;
     prim_primitive_name := op_opType onnx_op;
     prim_type :=
       if decide (op_opType onnx_op ∈ ["read_from_file"; "write_to_file"])
       then PRIMITIVE_OPERATION else COMPOSITE_OPERATION;
     prim_inputs := value_or [] (graphbook_inputs_of onnx_op);
     prim_outputs := value_or [] (graphbook_outputs_of onnx_op) |}.

Definition this_primitive_ok (ops : list OnnxOperation) : list (string * Primitive) :=
  foldl (fun d onnx_op => Dict.set (op_name onnx_op) (converted onnx_op) d)
        [] ops.

Definition assemble_composite_ok (name : string) (inputs outputs : list string)
    (composite_map : gmap string (list OnnxOperation))
    (primitive_map : gmap string Primitive)
    (graphbook_composite_map : composite_store)
    : gmap string Primitive * composite_store :=
  let this_primitive :=
    match composite_map !! name with
    | Some ops => this_primitive_ok ops
    | None => []
    end in
  let primitive_map :=
    foldl (fun d kv => <[kv.1 := kv.2]> d) primitive_map this_primitive in
  (primitive_map,
   <[name := {| Composite.name := name;
                Composite.primitive_name := name;
                Composite.type := COMPOSITE_OPERATION;
                Composite.operations := ChildPrimitive <$> (snd <$> this_primitive);
                Composite.inputs := Variable_named <$> inputs;
                Composite.outputs := Variable_named <$> outputs;
                Composite.links := [] |}]> graphbook_composite_map).

Definition assemble_step_ok (onnx_graph : OnnxGraph) (composite_var_map : var_map)
    (st : AssemblerState) (name : string) : AssemblerState :=
  if decide (name = "") then
    if as_already_visited_root st then st
    else
      let composite_map := as_composite_map st in
      let composite_map :=
        if decide (is_Some (composite_map !! graph_name onnx_graph)) then composite_map
        else <[graph_name onnx_graph := []]> composite_map in
      let composite_map :=
        match composite_map !! name with
        | Some ops =>
            <[graph_name onnx_graph :=
                default [] (composite_map !! graph_name onnx_graph) ++ ops]> composite_map
        | None => composite_map
        end in
      let '(primitive_map, gcm) :=
        assemble_composite_ok (graph_name onnx_graph)
          (graph_inputs onnx_graph) (graph_outputs onnx_graph)
          composite_map (as_primitive_map st) (as_graphbook_composite_map st) in
      {| as_composite_map := composite_map; as_primitive_map := primitive_map;
         as_graphbook_composite_map := gcm; as_already_visited_root := true |}
  else
    let entry := default ∅ (composite_var_map !! name) in
    let '(primitive_map, gcm) :=
      assemble_composite_ok name
        (default [] (entry !! INPUT)) (default [] (entry !! OUTPUT))
        (as_composite_map st) (as_primitive_map st) (as_graphbook_composite_map st) in
    {| as_composite_map := as_composite_map st; as_primitive_map := primitive_map;
       as_graphbook_composite_map := gcm;
       as_already_visited_root := as_already_visited_root st |}.

Definition assembler_ok
    (onnx_graph : OnnxGraph) (composite_map : gmap string (list OnnxOperation))
    (composite_names : gset string) (primitive_map : gmap string Primitive)
    (composite_var_map : var_map) : AssemblerState :=
  foldl (assemble_step_ok onnx_graph composite_var_map)
        {| as_composite_map := composite_map; as_primitive_map := primitive_map;
           as_graphbook_composite_map := ∅; as_already_visited_root := false |}
        (set_iter composite_names).

End Converter.

(** ** Vocabulary of the statements *)

(** The same graph with another link list. *)
Definition with_links (onnx_graph : OnnxGraph) (ls : list OnnxLink) : OnnxGraph :=
  {| graph_name := graph_name onnx_graph;
     onnx_ops := onnx_ops onnx_graph;
     onnx_links := ls;
     graph_inputs := graph_inputs onnx_graph;
     graph_outputs := graph_outputs onnx_graph |}.

(** The message of the [ValueError] raised for an unknown link sink. *)
Definition sink_not_recognized (link : OnnxLink) : exn :=
  ValueError ("Link sink " +:+ link_sink link +:+ " not recognized").

(** The exceptions that report a link endpoint naming no operation: the
    [KeyError] of [name_to_op[link.source]] and the [ValueError] for the
    sink. *)
Definition unresolved_endpoint (onnx_graph : OnnxGraph) (e : exn) : Prop :=
  ∃ link, link ∈ onnx_links onnx_graph
    ∧ ((e = KeyError (link_source link)
        ∧ name_to_op_of onnx_graph !! link_source link = None)
       ∨ (e = sink_not_recognized link
          ∧ link_sink link ≠ graph_name onnx_graph
          ∧ name_to_op_of onnx_graph !! link_sink link = None)).

(** The number of segments of a scope path; the root, whose path is
    empty, has none. *)
Definition scope_depth (path : string) : nat :=
  if decide (path = "") then 0 else depth path.

(** [C] is a strict prefix of [P] as scope paths: the root of any scope,
    a scope of the scopes it encloses. *)
Definition strict_scope_prefix (C P : string) : Prop :=
  if decide (C = "") then P ≠ ""
  else ∃ B, B ≠ [] ∧ Py.split P = Py.split C ++ B.

(** ** Concrete graphs *)

(** A producer in the scope [a/b] whose output [v], consumed in the
    enclosing scope [a], is a declared graph output. *)
Definition ancestor_output_link : OnnxLink :=
  {| link_source := "a/b/p"; link_sink := "a/q"; link_var_name := "v" |}.

Definition ancestor_output_graph : OnnxGraph :=
  {| graph_name := "g";
     onnx_ops := [ {| op_name := "a/b/p"; op_opType := "Relu"; op_input := [];
                      op_output := ["v"]; op_composite_path := "a/b";
                      op_attribute := []; op_type_meta_data := None |};
                   {| op_name := "a/q"; op_opType := "Relu"; op_input := ["v"];
                      op_output := []; op_composite_path := "a";
                      op_attribute := []; op_type_meta_data := None |} ];
     onnx_links := [ ancestor_output_link ];
     graph_inputs := [];
     graph_outputs := ["v"] |}.

(** The iteration of a set in the order of [elements]. *)
Definition elements_iteration : SetIteration :=
  {| set_iter := elements; set_iter_perm := fun s => reflexivity (elements s) |}.

(** One root operation whose output [v] is a declared graph output and
    is also sent to a consumer that does not exist. *)
Definition dangling_output_graph : OnnxGraph :=
  {| graph_name := "g";
     onnx_ops := [ {| op_name := "A"; op_opType := "Relu"; op_input := [];
                      op_output := ["v"]; op_composite_path := "";
                      op_attribute := []; op_type_meta_data := None |} ];
     onnx_links := [ {| link_source := "A"; link_sink := "ghost"; link_var_name := "v" |} ];
     graph_inputs := [];
     graph_outputs := ["v"] |}.

(** A producer two scopes deep whose output [v] leaves the graph. *)
Definition nested_producer_link : OnnxLink :=
  {| link_source := "x/y/p"; link_sink := "g"; link_var_name := "v" |}.

Definition nested_producer_graph : OnnxGraph :=
  {| graph_name := "g";
     onnx_ops := [ {| op_name := "x/y/p"; op_opType := "Relu"; op_input := [];
                      op_output := ["v"]; op_composite_path := "x/y";
                      op_attribute := []; op_type_meta_data := None |} ];
     onnx_links := [ nested_producer_link ];
     graph_inputs := [];
     graph_outputs := ["v"] |}.

Definition nested_producer_primitive : Primitive :=
  {| prim_name := "x/y/p"; prim_primitive_name := "Relu";
     prim_type := COMPOSITE_OPERATION; prim_inputs := [];
     prim_outputs := [Variable_named "v"] |}.

(** The composites of [nested_producer_graph] when routing starts. *)
Definition nested_producer_store : composite_store :=
  {[ "g" := {| Composite.name := "g"; Composite.primitive_name := "g";
               Composite.type := COMPOSITE_OPERATION; Composite.operations := [];
               Composite.inputs := []; Composite.outputs := [Variable_named "v"];
               Composite.links := [] |};
     "x" := {| Composite.name := "x"; Composite.primitive_name := "x";
               Composite.type := COMPOSITE_OPERATION;
               Composite.operations := [ChildComposite "x/y"];
               Composite.inputs := []; Composite.outputs := [Variable_named "v"];
               Composite.links := [output_boundary_link "x/y" "v"] |};
     "x/y" := {| Composite.name := "x/y"; Composite.primitive_name := "x/y";
                 Composite.type := COMPOSITE_OPERATION;
                 Composite.operations := [ChildPrimitive nested_producer_primitive];
                 Composite.inputs := []; Composite.outputs := [Variable_named "v"];
                 Composite.links := [] |} ]}.

(** One root operation reading the graph input [x]. *)
Definition root_input_graph : OnnxGraph :=
  {| graph_name := "g";
     onnx_ops := [ {| op_name := "A"; op_opType := "Relu"; op_input := ["x"];
                      op_output := ["y"]; op_composite_path := "";
                      op_attribute := []; op_type_meta_data := None |} ];
     onnx_links := [ {| link_source := "g"; link_sink := "A"; link_var_name := "x" |} ];
     graph_inputs := ["x"];
     graph_outputs := [] |}.

(** Interface completeness of a composite, as the specification words
    it: every declared input is fed by an internal link that starts at
    the composite's own boundary, every declared output feeds one that
    ends there. *)
Definition has_link_from_this (c : Composite) (v : string) : Prop :=
  ∃ l, l ∈ Composite.links c ∧ operation (source l) = THIS ∧ data (sink l) = v.

Definition has_link_to_this (c : Composite) (v : string) : Prop :=
  ∃ l, l ∈ Composite.links c ∧ operation (sink l) = THIS ∧ data (source l) = v.

Definition interface_complete (c : Composite) : Prop :=
  (∀ v, v ∈ names_of (Composite.inputs c) → has_link_from_this c v)
  ∧ (∀ v, v ∈ names_of (Composite.outputs c) → has_link_to_this c v).

(** After assembly a composite keeps its interface and only gains
    children and links. *)
Definition extends (c c' : Composite) : Prop :=
  Composite.inputs c' = Composite.inputs c
  ∧ Composite.outputs c' = Composite.outputs c
  ∧ Composite.links c ⊆ Composite.links c'
  ∧ Composite.operations c ⊆ Composite.operations c'.

Definition store_extends (gcm gcm' : composite_store) : Prop :=
  ∀ key c, gcm !! key = Some c → ∃ c', gcm' !! key = Some c' ∧ extends c c'.

(** One root operation whose output [w], not a graph output, is sent to
    a consumer that does not exist. *)
Definition dangling_sink_link : OnnxLink :=
  {| link_source := "A"; link_sink := "ghost"; link_var_name := "w" |}.

Definition dangling_sink_graph : OnnxGraph :=
  {| graph_name := "g";
     onnx_ops := [ {| op_name := "A"; op_opType := "Relu"; op_input := [];
                      op_output := ["w"]; op_composite_path := "";
                      op_attribute := []; op_type_meta_data := None |} ];
     onnx_links := [ dangling_sink_link ];
     graph_inputs := [];
     graph_outputs := [] |}.

(** ** Vocabulary of the further properties *)

(** The key under which scope discovery files an operation: its
    composite path, or the graph's name when it has none. *)
Definition home (onnx_graph : OnnxGraph) (op : OnnxOperation) : string :=
  if decide (op_composite_path op = "") then graph_name onnx_graph
  else op_composite_path op.

(** A scope path an operation implies: a prefix, of depth at least 1, of
    its non-empty composite path. *)
Definition implied_scope (op : OnnxOperation) (name : string) : Prop :=
  op_composite_path op ≠ ""
  ∧ ∃ d, 1 <= d <= depth (op_composite_path op)
         ∧ name = scope_prefix d (op_composite_path op).

(** The body of the loop of [_compile_onnx_composite_map]. *)
Definition discover_step (onnx_graph : OnnxGraph)
    (acc : gmap string (list OnnxOperation) * gset string) (op : OnnxOperation)
    : gmap string (list OnnxOperation) * gset string :=
  if decide (op_composite_path op = "") then
    (<[graph_name onnx_graph := default [] (acc.1 !! graph_name onnx_graph) ++ [op]]> acc.1,
     acc.2)
  else
    let split_path := Py.split (op_composite_path op) in
    (<[op_composite_path op := default [] (acc.1 !! op_composite_path op) ++ [op]]> acc.1,
     foldl (fun names i => names ∪ {[Py.join (take (i + 1) split_path)]})
           acc.2 (Py.range 0 (length split_path))).

(** A single path segment: a string that [split] leaves whole. *)
Definition is_segment (s : string) : Prop := Py.split s = [s].

(** The key under which the assembler stores the composite of a name:
    the graph's name for the empty name, the name itself otherwise. *)
Definition store_key (onnx_graph : OnnxGraph) (name : string) : string :=
  if decide (name = "") then graph_name onnx_graph else name.

(** The composite the assembler builds for a key, from the declared
    input and output names and the operations filed under the key. *)
Definition assembled (key : string) (input_names output_names : list string)
    (ops : option (list OnnxOperation)) : Composite :=
  {| Composite.name := key;
     Composite.primitive_name := key;
     Composite.type := COMPOSITE_OPERATION;
     Composite.operations :=
       ChildPrimitive <$> (snd <$> match ops with
                                   | Some ops => this_primitive_ok ops
                                   | None => []
                                   end);
     Composite.inputs := Variable_named <$> input_names;
     Composite.outputs := Variable_named <$> output_names;
     Composite.links := [] |}.

(** What the assembler keeps true of its store. *)
Definition assembler_invariant (onnx_graph : OnnxGraph)
    (cvm : var_map) (st : AssemblerState) : Prop :=
  (as_already_visited_root st = true →
   is_Some (as_graphbook_composite_map st !! graph_name onnx_graph))
  ∧ ∀ key c, as_graphbook_composite_map st !! key = Some c →
      ∃ input_names output_names ops,
        c = assembled key input_names output_names ops
        ∧ (key ≠ graph_name onnx_graph →
           input_names = required INPUT key cvm ∧ output_names = required OUTPUT key cvm).

(** The final-output rule of link-map compilation: the link does not end
    at the graph, its source is a known operation and its variable is a
    declared graph output. *)
Definition skipped (onnx_graph : OnnxGraph) (name_to_op : gmap string OnnxOperation)
    (link : OnnxLink) : bool :=
  bool_decide (link_sink link ≠ graph_name onnx_graph)
  && bool_decide (is_Some (name_to_op !! link_source link))
  && bool_decide (link_var_name link ∈ graph_outputs onnx_graph).

(** The composite under whose key a link is filed, if any: the graph for
    a link that ends at the graph, otherwise the scope of the consumer. *)
Definition filed_under (onnx_graph : OnnxGraph) (name_to_op : gmap string OnnxOperation)
    (link : OnnxLink) : option string :=
  if decide (link_sink link = graph_name onnx_graph) then Some (graph_name onnx_graph)
  else if skipped onnx_graph name_to_op link then None
  else home onnx_graph <$> name_to_op !! link_sink link.

(** The links on which link-map compilation raises. *)
Definition link_raises (onnx_graph : OnnxGraph) (name_to_op : gmap string OnnxOperation)
    (link : OnnxLink) : bool :=
  if decide (link_sink link = graph_name onnx_graph)
  then bool_decide (name_to_op !! link_source link = None)
  else if skipped onnx_graph name_to_op link then false
  else match name_to_op !! link_sink link with
       | None => true
       | Some _ =>
           bool_decide (link_source link ≠ graph_name onnx_graph)
           && bool_decide (name_to_op !! link_source link = None)
       end.

(** A composite of the store declares a name as input, as output. *)
Definition declares_input (gcm : composite_store) (key v : string) : Prop :=
  ∃ c, gcm !! key = Some c ∧ v ∈ names_of (Composite.inputs c).

Definition declares_output (gcm : composite_store) (key v : string) : Prop :=
  ∃ c, gcm !! key = Some c ∧ v ∈ names_of (Composite.outputs c).

(** A link of the composite at [key] that the boundary wirer may emit:
    it joins the composite's own boundary with a nested scope [child] of
    it, for a name that both declare on the same side. *)
Definition boundary_link_of (onnx_graph : OnnxGraph) (gcm : composite_store)
    (key : string) (l : Link) : Prop :=
  ∃ child v,
    child ≠ graph_name onnx_graph
    ∧ 2 <= depth child
    ∧ parent_name_of onnx_graph child = key
    ∧ (∃ c, gcm !! key = Some c ∧ ChildComposite child ∈ Composite.operations c)
    ∧ ((l = input_boundary_link child v
        ∧ declares_input gcm child v ∧ declares_input gcm key v)
       ∨ (l = output_boundary_link child v
          ∧ declares_output gcm child v ∧ declares_output gcm key v)).

(** The flat link's variable is the data of both endpoints. *)
Definition carries (var : string) (l : Link) : Prop :=
  data (source l) = var ∧ data (sink l) = var.

(** Between two stores, every composite is the same but for links
    appended at the end of its link list, each satisfying [P]. *)
Definition links_appended (P : Link -> Prop) (gcm gcm' : composite_store) : Prop :=
  ∀ key,
    option_Forall2
      (fun c c' => ∃ new, c' = set_links c (Composite.links c ++ new) ∧ Forall P new)
      (gcm !! key) (gcm' !! key).

(** The link the router emits for a flat link whose producer is a direct
    child of the composite being resolved. *)
Definition direct_link (link : OnnxLink) : Link :=
  {| source := endpoint (link_source link) (link_var_name link);
     sink := endpoint (link_sink link) (link_var_name link);
     link_var := Some (link_var_name link) |}.

(** What the assembler keeps true of the operations it files and
    converts, for a graph whose operation names are all different. *)
Definition assembler_ops_invariant (onnx_graph : OnnxGraph)
    (st : AssemblerState) : Prop :=
  (∀ key op, op ∈ onnx_ops onnx_graph → home onnx_graph op = key →
             op ∈ default [] (as_composite_map st !! key))
  ∧ (∀ key op, op ∈ default [] (as_composite_map st !! key) → op ∈ onnx_ops onnx_graph)
  ∧ (∀ k p, as_primitive_map st !! k = Some p →
            ∃ op, op ∈ onnx_ops onnx_graph ∧ op_name op = k ∧ p = converted op)
  ∧ (∀ key c op, as_graphbook_composite_map st !! key = Some c →
                 op ∈ onnx_ops onnx_graph → home onnx_graph op = key →
                 ChildPrimitive (converted op) ∈ Composite.operations c
                 ∧ as_primitive_map st !! op_name op = Some (converted op)).

(** [pat] occurs somewhere in [s]. *)
Definition occurs_in (pat s : string) : Prop :=
  ∃ pre post, s = pre +:+ pat +:+ post.

(** What the assembler keeps true of where operations are filed: a key
    holds only operations of that home, and a composite has only the
    conversions of such operations as primitive children. *)
Definition assembler_home_invariant (onnx_graph : OnnxGraph)
    (st : AssemblerState) : Prop :=
  (∀ key op, op ∈ default [] (as_composite_map st !! key) →
             op ∈ onnx_ops onnx_graph ∧ home onnx_graph op = key)
  ∧ (∀ key c p, as_graphbook_composite_map st !! key = Some c →
                ChildPrimitive p ∈ Composite.operations c →
                ∃ op, op ∈ onnx_ops onnx_graph ∧ home onnx_graph op = key
                      ∧ p = converted op).

(** The composite children of the store, after the wirer went through
    the names [visited]. *)
Definition nests (onnx_graph : OnnxGraph) (visited : list string)
    (gcm : composite_store) : Prop :=
  ∀ key c name, gcm !! key = Some c →
    (ChildComposite name ∈ Composite.operations c
     ↔ name ∈ visited ∧ name ≠ graph_name onnx_graph ∧ 1 < depth name
       ∧ parent_name_of onnx_graph name = key).

(** A graph none of whose operations is in a scope. *)
Definition scope_free (onnx_graph : OnnxGraph) : Prop :=
  ∀ op, op ∈ onnx_ops onnx_graph → op_composite_path op = "".

(** The entry of [this_primitive] of an operation. *)
Definition named_primitive (op : OnnxOperation) : string * Primitive :=
  (op_name op, converted op).

(** The one composite of a graph without scopes, with the given links. *)
Definition flat_composite (onnx_graph : OnnxGraph) (links : list Link)
    : Composite :=
  {| Composite.name := graph_name onnx_graph;
     Composite.primitive_name := graph_name onnx_graph;
     Composite.type := COMPOSITE_OPERATION;
     Composite.operations := ChildPrimitive <$> (converted <$> onnx_ops onnx_graph);
     Composite.inputs := Variable_named <$> graph_inputs onnx_graph;
     Composite.outputs := Variable_named <$> graph_outputs onnx_graph;
     Composite.links := links |}.

(** The link the router emits in a consumer's composite for a producer
    nested deeper: from the nested composite on the way to the producer
    to the consumer. *)
Definition relay_link (child consumer var : string) : Link :=
  {| source := endpoint child var; sink := endpoint consumer var; link_var := None |}.

(** Two operations of the scope [s], the second reading the output of
    the first. *)
Definition same_scope_link : OnnxLink :=
  {| link_source := "s/A"; link_sink := "s/B"; link_var_name := "v" |}.

Definition same_scope_graph : OnnxGraph :=
  {| graph_name := "g";
     onnx_ops := [ {| op_name := "s/A"; op_opType := "Relu"; op_input := [];
                      op_output := ["v"]; op_composite_path := "s";
                      op_attribute := []; op_type_meta_data := None |};
                   {| op_name := "s/B"; op_opType := "Relu"; op_input := ["v"];
                      op_output := []; op_composite_path := "s";
                      op_attribute := []; op_type_meta_data := None |} ];
     onnx_links := [ same_scope_link ];
     graph_inputs := [];
     graph_outputs := [] |}.


(** Two operations outside any scope: [x] comes in from the graph, [v]
    goes from [A] to [B], [y] leaves the graph. *)
Definition flat_graph : OnnxGraph :=
  {| graph_name := "g";
     onnx_ops := [ {| op_name := "A"; op_opType := "Relu"; op_input := ["x"];
                      op_output := ["v"]; op_composite_path := "";
                      op_attribute := []; op_type_meta_data := None |};
                   {| op_name := "B"; op_opType := "Relu"; op_input := ["v"];
                      op_output := ["y"]; op_composite_path := "";
                      op_attribute := []; op_type_meta_data := None |} ];
     onnx_links := [ {| link_source := "g"; link_sink := "A"; link_var_name := "x" |};
                     {| link_source := "A"; link_sink := "B"; link_var_name := "v" |};
                     {| link_source := "B"; link_sink := "g"; link_var_name := "y" |} ];
     graph_inputs := ["x"];
     graph_outputs := ["y"] |}.


(** An operation outside any scope whose output [v] is consumed inside
    the top-level scope [x]. *)
Definition top_level_consumer_link : OnnxLink :=
  {| link_source := "A"; link_sink := "x/B"; link_var_name := "v" |}.

Definition top_level_consumer_graph : OnnxGraph :=
  {| graph_name := "g";
     onnx_ops := [ {| op_name := "A"; op_opType := "Relu"; op_input := [];
                      op_output := ["v"]; op_composite_path := "";
                      op_attribute := []; op_type_meta_data := None |};
                   {| op_name := "x/B"; op_opType := "Relu"; op_input := ["v"];
                      op_output := []; op_composite_path := "x";
                      op_attribute := []; op_type_meta_data := None |} ];
     onnx_links := [ top_level_consumer_link ];
     graph_inputs := [];
     graph_outputs := [] |}.


(** A producer in the scope [a/b] whose output [v] is consumed in the
    enclosing scope [a]. *)
Definition enclosing_consumer_link : OnnxLink :=
  {| link_source := "a/b/p"; link_sink := "a/q"; link_var_name := "v" |}.

Definition enclosing_consumer_graph : OnnxGraph :=
  {| graph_name := "g";
     onnx_ops := [ {| op_name := "a/b/p"; op_opType := "Relu"; op_input := [];
                      op_output := ["v"]; op_composite_path := "a/b";
                      op_attribute := []; op_type_meta_data := None |};
                   {| op_name := "a/q"; op_opType := "Relu"; op_input := ["v"];
                      op_output := []; op_composite_path := "a";
                      op_attribute := []; op_type_meta_data := None |} ];
     onnx_links := [ enclosing_consumer_link ];
     graph_inputs := [];
     graph_outputs := [] |}.

(** The same shapes with paths that start with a slash, as exported
    models write them: the first segment is empty, and a scope of two
    segments is nested in the root. *)
Definition rooted_same_scope_link : OnnxLink :=
  {| link_source := "/s/A"; link_sink := "/s/B"; link_var_name := "v" |}.

Definition rooted_same_scope_graph : OnnxGraph :=
  {| graph_name := "g";
     onnx_ops := [ {| op_name := "/s/A"; op_opType := "Relu"; op_input := [];
                      op_output := ["v"]; op_composite_path := "/s";
                      op_attribute := []; op_type_meta_data := None |};
                   {| op_name := "/s/B"; op_opType := "Relu"; op_input := ["v"];
                      op_output := []; op_composite_path := "/s";
                      op_attribute := []; op_type_meta_data := None |} ];
     onnx_links := [ rooted_same_scope_link ];
     graph_inputs := [];
     graph_outputs := [] |}.

Definition rooted_producer_link : OnnxLink :=
  {| link_source := "/x/y/p"; link_sink := "g"; link_var_name := "v" |}.

Definition rooted_producer_graph : OnnxGraph :=
  {| graph_name := "g";
     onnx_ops := [ {| op_name := "/x/y/p"; op_opType := "Relu"; op_input := [];
                      op_output := ["v"]; op_composite_path := "/x/y";
                      op_attribute := []; op_type_meta_data := None |} ];
     onnx_links := [ rooted_producer_link ];
     graph_inputs := [];
     graph_outputs := ["v"] |}.

Definition rooted_consumer_link : OnnxLink :=
  {| link_source := "A"; link_sink := "/x/B"; link_var_name := "v" |}.

Definition rooted_consumer_graph : OnnxGraph :=
  {| graph_name := "g";
     onnx_ops := [ {| op_name := "A"; op_opType := "Relu"; op_input := [];
                      op_output := ["v"]; op_composite_path := "";
                      op_attribute := []; op_type_meta_data := None |};
                   {| op_name := "/x/B"; op_opType := "Relu"; op_input := ["v"];
                      op_output := []; op_composite_path := "/x";
                      op_attribute := []; op_type_meta_data := None |} ];
     onnx_links := [ rooted_consumer_link ];
     graph_inputs := [];
     graph_outputs := [] |}.

Definition rooted_enclosing_link : OnnxLink :=
  {| link_source := "/a/b/p"; link_sink := "/a/q"; link_var_name := "v" |}.

Definition rooted_enclosing_graph : OnnxGraph :=
  {| graph_name := "g";
     onnx_ops := [ {| op_name := "/a/b/p"; op_opType := "Relu"; op_input := [];
                      op_output := ["v"]; op_composite_path := "/a/b";
                      op_attribute := []; op_type_meta_data := None |};
                   {| op_name := "/a/q"; op_opType := "Relu"; op_input := ["v"];
                      op_output := []; op_composite_path := "/a";
                      op_attribute := []; op_type_meta_data := None |} ];
     onnx_links := [ rooted_enclosing_link ];
     graph_inputs := [];
     graph_outputs := [] |}.

(** A producer in the scope [/b] whose output is consumed by an
    operation outside any scope. *)
Definition root_consumer_link : OnnxLink :=
  {| link_source := "/b/p"; link_sink := "q"; link_var_name := "v" |}.

Definition root_consumer_graph : OnnxGraph :=
  {| graph_name := "g";
     onnx_ops := [ {| op_name := "/b/p"; op_opType := "Relu"; op_input := [];
                      op_output := ["v"]; op_composite_path := "/b";
                      op_attribute := []; op_type_meta_data := None |};
                   {| op_name := "q"; op_opType := "Relu"; op_input := ["v"];
                      op_output := []; op_composite_path := "";
                      op_attribute := []; op_type_meta_data := None |} ];
     onnx_links := [ root_consumer_link ];
     graph_inputs := [];
     graph_outputs := [] |}.

(** The shape of [enclosing_consumer_graph] with the producer, then
    with the consumer, named like the graph. *)
Definition source_named_link : OnnxLink :=
  {| link_source := "g"; link_sink := "a/q"; link_var_name := "v" |}.

Definition source_named_graph : OnnxGraph :=
  {| graph_name := "g";
     onnx_ops := [ {| op_name := "g"; op_opType := "Relu"; op_input := [];
                      op_output := ["v"]; op_composite_path := "a/b";
                      op_attribute := []; op_type_meta_data := None |};
                   {| op_name := "a/q"; op_opType := "Relu"; op_input := ["v"];
                      op_output := []; op_composite_path := "a";
                      op_attribute := []; op_type_meta_data := None |} ];
     onnx_links := [ source_named_link ];
     graph_inputs := [];
     graph_outputs := [] |}.

Definition sink_named_link : OnnxLink :=
  {| link_source := "a/b/p"; link_sink := "g"; link_var_name := "v" |}.

Definition sink_named_graph : OnnxGraph :=
  {| graph_name := "g";
     onnx_ops := [ {| op_name := "a/b/p"; op_opType := "Relu"; op_input := [];
                      op_output := ["v"]; op_composite_path := "a/b";
                      op_attribute := []; op_type_meta_data := None |};
                   {| op_name := "g"; op_opType := "Relu"; op_input := ["v"];
                      op_output := []; op_composite_path := "a";
                      op_attribute := []; op_type_meta_data := None |} ];
     onnx_links := [ sink_named_link ];
     graph_inputs := [];
     graph_outputs := [] |}.

(** An operation with operator metadata: two inputs described by name,
    one attribute with a tensor type, one output. *)
Definition described_operation : OnnxOperation :=
  {| op_name := "Cast_1"; op_opType := "Cast"; op_input := ["x"; "y"];
     op_output := ["z"]; op_composite_path := "";
     op_attribute := ["to"];
     op_type_meta_data :=
       Some {| meta_inputs := Some [[("name", "input")]; [("list", "true")]];
               meta_outputs := Some [[("name", "output")]];
               meta_attribute :=
                 Some [[ItemIndex 0;
                        ItemAttribute {| attr_items := [("name", "to");
                                                        ("type", "tensor(int64)")];
                                         attr_i := 0; attr_ints := [] |}]] |} |}.

(** An operation whose metadata does not describe its input, and a file
    reader without metadata. *)
Definition undescribed_operation : OnnxOperation :=
  {| op_name := "Neg_1"; op_opType := "Neg"; op_input := ["x"];
     op_output := ["y"]; op_composite_path := "";
     op_attribute := [];
     op_type_meta_data :=
       Some {| meta_inputs := None; meta_outputs := Some [[("name", "output")]];
               meta_attribute := None |} |}.

Definition file_reader_operation : OnnxOperation :=
  {| op_name := "reader"; op_opType := "read_from_file";
     op_input := ["f"; "d"; "s"; "more"]; op_output := ["rows"];
     op_composite_path := ""; op_attribute := []; op_type_meta_data := None |}.

(** * Properties *)

(** ** Python strings *)

Module PyFacts.
Import Py.

Lemma append_nil_l s : "" +:+ s = s.
Proof. reflexivity. Qed.

Lemma append_cons c s t : String c s +:+ t = String c (s +:+ t).
Proof. reflexivity. Qed.

Lemma length_append s t : String.length (s +:+ t) = String.length s + String.length t.
Proof. induction s as [|c s IH]; [done|]. rewrite append_cons. simpl. by rewrite IH. Qed.

Lemma split_ne_nil s : split s ≠ [].
Proof.
  destruct s as [|c s]; [done|]. simpl.
  destruct (Ascii.eqb c FORWARD_SLASH); [done|]. by destruct (split s).
Qed.

Lemma length_split_pos s : 1 <= length (split s).
Proof. pose proof (split_ne_nil s). destruct (split s); [done|simpl; lia]. Qed.

Lemma join_cons seg rest :
  rest ≠ [] → join (seg :: rest) = seg +:+ String FORWARD_SLASH (join rest).
Proof. by destruct rest. Qed.

Lemma join_split s : join (split s) = s.
Proof.
  induction s as [|c s IH]; [done|]. simpl.
  destruct (Ascii.eqb_spec c FORWARD_SLASH) as [->|Hc].
  - rewrite join_cons by apply split_ne_nil. by rewrite IH.
  - pose proof (split_ne_nil s) as Hne.
    destruct (split s) as [|seg segs] eqn:Hs; [done|].
    destruct segs as [|seg' segs].
    + simpl in *. by rewrite IH.
    + rewrite join_cons by done. rewrite join_cons in IH by done.
      rewrite append_cons. by rewrite IH.
Qed.

Lemma split_app_slash a b :
  split (a +:+ String FORWARD_SLASH b) = split a ++ split b.
Proof.
  induction a as [|c a IH].
  - done.
  - rewrite append_cons. simpl. rewrite IH.
    destruct (Ascii.eqb c FORWARD_SLASH); [done|].
    pose proof (split_ne_nil a). by destruct (split a).
Qed.

Lemma join_app l1 l2 :
  l1 ≠ [] → l2 ≠ [] → join (l1 ++ l2) = join l1 +:+ String FORWARD_SLASH (join l2).
Proof.
  induction l1 as [|x l1 IH]; [done|]. intros _ Hl2.
  destruct l1 as [|y l1].
  - simpl app. by rewrite join_cons.
  - rewrite <- app_comm_cons. rewrite join_cons by done.
    rewrite IH by done. rewrite (join_cons x) by done.
    generalize (join (y :: l1)). intros s. clear.
    induction x as [|c x IH]; [done|]. rewrite !append_cons. by rewrite IH.
Qed.

Lemma startswith_append a b : startswith (a +:+ b) a = true.
Proof.
  unfold startswith. induction a as [|c a IH]; [by destruct b|].
  rewrite append_cons. simpl. by destruct (ascii_dec c c).
Qed.

(** The key of a scope grows with its depth, so two prefixes of one
    path at different depths never share a key. *)
Lemma length_join_take_lt l j k :
  1 <= j → j < k → k <= length l →
  String.length (join (take j l)) < String.length (join (take k l)).
Proof.
  intros Hj Hjk Hk.
  rewrite <- (take_drop j (take k l)). rewrite take_take.
  replace (j `min` k) with j by lia.
  rewrite join_app.
  - rewrite length_append. simpl. lia.
  - destruct l; simpl in *; [lia|]. destruct j; [lia|done].
  - intros Hnil. apply (f_equal length) in Hnil.
    rewrite length_drop, length_take in Hnil. simpl in Hnil. lia.
Qed.

Lemma join_take_inj l j k :
  1 <= j <= length l → 1 <= k <= length l →
  join (take j l) = join (take k l) → j = k.
Proof.
  intros Hj Hk Heq. apply (f_equal String.length) in Heq.
  destruct (decide (j < k)) as [Hlt|].
  { pose proof (length_join_take_lt l j k). lia. }
  destruct (decide (k < j)) as [Hlt|]; [|lia].
  pose proof (length_join_take_lt l k j). lia.
Qed.

End PyFacts.

Section VarMap.

Implicit Types (m : var_map) (field key v : string).

Lemma field_of_add_var_eq field key v m :
  field_of field key (add_var field key v m) =
    Some (if decide (v ∈ required field key m) then required field key m
          else required field key m ++ [v]).
Proof.
  unfold field_of, required, field_of, add_var.
  rewrite lookup_insert_eq. simpl. rewrite lookup_insert_eq.
  by destruct (m !! key).
Qed.

Lemma field_of_add_var_ne field key field' key' v m :
  (field, key) ≠ (field', key') →
  field_of field' key' (add_var field key v m) = field_of field' key' m.
Proof.
  intros Hne. unfold field_of, add_var.
  destruct (decide (key = key')) as [->|Hk].
  - rewrite lookup_insert_eq. simpl.
    rewrite lookup_insert_ne by congruence.
    by destruct (m !! key').
  - by rewrite lookup_insert_ne.
Qed.

Lemma lookup_add_var_ne field key key' v m :
  key ≠ key' → add_var field key v m !! key' = m !! key'.
Proof. intros. unfold add_var. by rewrite lookup_insert_ne. Qed.

Lemma required_add_var_eq field key v m :
  required field key (add_var field key v m) =
    if decide (v ∈ required field key m) then required field key m
    else required field key m ++ [v].
Proof. unfold required at 1. by rewrite field_of_add_var_eq. Qed.

Lemma required_add_var_ne field key field' key' v m :
  (field, key) ≠ (field', key') →
  required field' key' (add_var field key v m) = required field' key' m.
Proof. intros. unfold required. by rewrite field_of_add_var_ne. Qed.

Lemma elem_of_required_add_var field key v m :
  v ∈ required field key (add_var field key v m).
Proof. rewrite required_add_var_eq. case_decide; set_solver. Qed.

(** An addition that finds the variable already there changes nothing. *)
Lemma add_var_present field key v m :
  is_Some (field_of field key m) → v ∈ required field key m →
  add_var field key v m = m.
Proof.
  unfold required, field_of, add_var. intros [l Hl] Hin.
  destruct (m !! key) as [entry|] eqn:Hkey; simpl in *; [|done].
  rewrite Hl in *. simpl in *. rewrite decide_True by done.
  rewrite (insert_id entry) by done. by rewrite insert_id.
Qed.

(** Every list only ever grows at its end. *)
Lemma required_add_var_prefix field key field' key' v m :
  required field' key' m `prefix_of` required field' key' (add_var field key v m).
Proof.
  destruct (decide ((field, key) = (field', key'))) as [[= -> ->]|Hne].
  - rewrite required_add_var_eq. case_decide; [done|]. by apply prefix_app_r.
  - by rewrite required_add_var_ne.
Qed.

Lemma required_add_var_NoDup field key field' key' v m :
  NoDup (required field' key' m) → NoDup (required field' key' (add_var field key v m)).
Proof.
  intros Hnd. destruct (decide ((field, key) = (field', key'))) as [[= -> ->]|Hne].
  - rewrite required_add_var_eq. case_decide; [done|].
    apply NoDup_app. split_and!; [done| |apply NoDup_singleton].
    intros x Hx ->%list_elem_of_singleton. done.
  - by rewrite required_add_var_ne.
Qed.

Lemma is_Some_field_of_add_var field key field' key' v m :
  is_Some (field_of field' key' m) → is_Some (field_of field' key' (add_var field key v m)).
Proof.
  destruct (decide ((field, key) = (field', key'))) as [[= -> ->]|Hne].
  - rewrite field_of_add_var_eq. eauto.
  - by rewrite field_of_add_var_ne.
Qed.

Lemma run_adds_cons a adds m :
  run_adds (a :: adds) m = run_adds adds (add_var (add_field a) (add_key a) (add_name a) m).
Proof. done. Qed.

Lemma run_adds_app adds1 adds2 m :
  run_adds (adds1 ++ adds2) m = run_adds adds2 (run_adds adds1 m).
Proof. apply foldl_app. Qed.

Lemma required_run_adds_prefix adds field key m :
  required field key m `prefix_of` required field key (run_adds adds m).
Proof.
  revert m. induction adds as [|a adds IH]; intros m; [done|].
  rewrite run_adds_cons. etrans; [|apply IH]. apply required_add_var_prefix.
Qed.

Lemma is_Some_field_of_run_adds adds field key m :
  is_Some (field_of field key m) → is_Some (field_of field key (run_adds adds m)).
Proof.
  revert m. induction adds as [|a adds IH]; intros m Hm; [done|].
  rewrite run_adds_cons. by apply IH, is_Some_field_of_add_var.
Qed.

Lemma required_run_adds_NoDup adds field key m :
  NoDup (required field key m) → NoDup (required field key (run_adds adds m)).
Proof.
  revert m. induction adds as [|a adds IH]; intros m Hm; [done|].
  rewrite run_adds_cons. by apply IH, required_add_var_NoDup.
Qed.

(** After the additions, every target holds its variable. *)
Lemma run_adds_elem_of adds a m :
  a ∈ adds →
  is_Some (field_of (add_field a) (add_key a) (run_adds adds m))
  ∧ add_name a ∈ required (add_field a) (add_key a) (run_adds adds m).
Proof.
  revert m. induction adds as [|a' adds IH]; intros m Hin.
  { by apply elem_of_nil in Hin. }
  rewrite run_adds_cons.
  apply elem_of_cons in Hin as [->|Hin]; [|by apply IH]. split.
  - apply is_Some_field_of_run_adds. rewrite field_of_add_var_eq. eauto.
  - eapply elem_of_prefix; [apply elem_of_required_add_var|].
    apply required_run_adds_prefix.
Qed.

(** What is not a target is left as it was. *)
Lemma field_of_run_adds_ne adds field key m :
  (∀ a, a ∈ adds → (add_field a, add_key a) ≠ (field, key)) →
  field_of field key (run_adds adds m) = field_of field key m.
Proof.
  revert m. induction adds as [|a adds IH]; intros m Hnin; [done|].
  rewrite run_adds_cons. rewrite IH.
  - apply field_of_add_var_ne, Hnin. by left.
  - intros a' Ha'. apply Hnin. by right.
Qed.

Lemma lookup_run_adds_ne adds key m :
  (∀ a, a ∈ adds → add_key a ≠ key) → run_adds adds m !! key = m !! key.
Proof.
  revert m. induction adds as [|a adds IH]; intros m Hnin; [done|].
  rewrite run_adds_cons. rewrite IH.
  - apply lookup_add_var_ne, Hnin. by left.
  - intros a' Ha'. apply Hnin. by right.
Qed.

(** Additions that find their variables already there are a no-op; hence
    running the same additions again changes nothing. *)
Lemma run_adds_present adds m :
  (∀ a, a ∈ adds →
     is_Some (field_of (add_field a) (add_key a) m)
     ∧ add_name a ∈ required (add_field a) (add_key a) m) →
  run_adds adds m = m.
Proof.
  induction adds as [|a adds IH]; intros Hall; [done|].
  rewrite run_adds_cons.
  destruct (Hall a) as [Hs Hv]; [left|].
  rewrite add_var_present by done. apply IH. intros a' Ha'. apply Hall. by right.
Qed.

Lemma run_adds_idempotent adds m :
  run_adds adds (run_adds adds m) = run_adds adds m.
Proof. apply run_adds_present. intros a Ha. by apply run_adds_elem_of. Qed.

Lemma elem_of_additions_of v fks a :
  a ∈ additions_of v fks ↔ add_name a = v ∧ (add_field a, add_key a) ∈ fks.
Proof.
  unfold additions_of. rewrite list_elem_of_fmap. split.
  - intros ([f k] & -> & Hin). done.
  - intros [<- Hin]. exists (add_field a, add_key a). split; [by destruct a|done].
Qed.

Lemma apply_adds_app v adds1 adds2 m :
  apply_adds v (adds1 ++ adds2) m = apply_adds v adds2 (apply_adds v adds1 m).
Proof. unfold apply_adds, additions_of. by rewrite fmap_app, run_adds_app. Qed.

Lemma apply_adds_elem_of v adds field key m :
  (field, key) ∈ adds →
  is_Some (field_of field key (apply_adds v adds m))
  ∧ v ∈ required field key (apply_adds v adds m).
Proof.
  intros Hin.
  apply (run_adds_elem_of _ {| add_name := v; add_field := field; add_key := key |}).
  by apply elem_of_additions_of.
Qed.

Lemma field_of_apply_adds_ne v adds field key m :
  (field, key) ∉ adds → field_of field key (apply_adds v adds m) = field_of field key m.
Proof.
  intros Hnin. apply field_of_run_adds_ne.
  intros a [_ Ha]%elem_of_additions_of Heq. by rewrite Heq in Ha.
Qed.

Lemma required_apply_adds_ne v adds field key m :
  (field, key) ∉ adds → required field key (apply_adds v adds m) = required field key m.
Proof. intros. unfold required. by rewrite field_of_apply_adds_ne. Qed.

Lemma lookup_apply_adds_ne v adds key m :
  key ∉ adds.*2 → apply_adds v adds m !! key = m !! key.
Proof.
  intros Hnin. apply lookup_run_adds_ne.
  intros a [_ Ha]%elem_of_additions_of <-. apply Hnin.
  apply list_elem_of_fmap. by exists (add_field a, add_key a).
Qed.

Lemma foldl_add_var_prefix_keys field v path_split idx m :
  foldl (fun m i => add_var field (Py.join (take (i + 1) path_split)) v m) m idx
  = apply_adds v (prefix_keys field path_split idx) m.
Proof. unfold apply_adds, additions_of, run_adds, prefix_keys. by rewrite !foldl_fmap. Qed.

Lemma cross_stream_side_adds field v path_split shared_parts m :
  cross_stream_side field v path_split shared_parts m
  = apply_adds v (unshared_keys field path_split shared_parts) m.
Proof.
  unfold cross_stream_side, unshared_keys, prefix_keys.
  generalize (Py.range 0 (length path_split)). intros idx. revert m.
  induction idx as [|i idx IH]; intros m; [done|].
  rewrite fmap_cons, filter_cons. simpl.
  case_decide; case_decide; try done.
Qed.

(** The propagator is the sequence of additions to its targets. *)
Lemma calculate_targets v path1 path2 m :
  _calculate_composite_input_outputs v path1 path2 m
  = apply_adds v (targets path1 path2) m.
Proof.
  unfold _calculate_composite_input_outputs, targets.
  repeat case_decide; try apply foldl_add_var_prefix_keys.
  destruct (Py.startswith path1 path2).
  { unfold apply_adds, additions_of, run_adds, partial_keys. by rewrite !foldl_fmap. }
  destruct (Py.startswith path2 path1).
  { unfold apply_adds, additions_of, run_adds, partial_keys. by rewrite !foldl_fmap. }
  simpl. by rewrite apply_adds_app, !cross_stream_side_adds.
Qed.

End VarMap.

(** ** Loops that may raise *)

Lemma for_each_cons {S A} (body : S → A → result S) s x l :
  for_each body s (x :: l) = body s x ≫= fun s' => for_each body s' l.
Proof. done. Qed.

Lemma bind_Ok {A B} (a : A) (k : A → result B) : Ok a ≫= k = k a.
Proof. done. Qed.

Lemma bind_Raise {A B} e (k : A → result B) : Raise e ≫= k = Raise e.
Proof. done. Qed.

Lemma bind_Ok_inv {A B} (r : result A) (k : A → result B) b :
  r ≫= k = Ok b → ∃ a, r = Ok a ∧ k a = Ok b.
Proof. destruct r; [eauto|done]. Qed.

Lemma for_each_app {S A} (body : S → A → result S) s l1 l2 :
  for_each body s (l1 ++ l2) = for_each body s l1 ≫= fun s' => for_each body s' l2.
Proof.
  revert s. induction l1 as [|x l1 IH]; intros s; [done|].
  rewrite <- app_comm_cons, !for_each_cons. destruct (body s x); [|done].
  rewrite !bind_Ok. apply IH.
Qed.

(** ** The interface propagator, case by case *)

Section Propagator.

Import Py PyFacts.
Implicit Types (m : var_map) (var_name key : string).

Lemma targets_downstream (path2 : string) :
  targets "" path2 = prefix_keys INPUT (split path2) (range 1 (depth path2)).
Proof. done. Qed.

Lemma targets_upstream (path1 : string) :
  path1 ≠ "" →
  targets path1 "" = prefix_keys OUTPUT (split path1) (range 0 (depth path1)).
Proof. intros. unfold targets. by rewrite decide_False, decide_True. Qed.

Lemma elem_of_range a b i : i ∈ range a b ↔ a <= i < b.
Proof. unfold range. rewrite elem_of_seq. lia. Qed.

Lemma elem_of_prefix_keys field path_split idx f k :
  (f, k) ∈ prefix_keys field path_split idx
  ↔ f = field ∧ ∃ i, i ∈ idx ∧ k = join (take (i + 1) path_split).
Proof.
  unfold prefix_keys. rewrite list_elem_of_fmap. split.
  - intros (i & [= -> ->] & Hi). eauto.
  - intros (-> & i & Hi & ->). eauto.
Qed.

(** Claim C1 (downstream from the boundary).  Called with an empty
    [path1], the propagator puts the variable in the required-input list
    of every prefix of the consumer path from depth 2 to its full depth,
    and leaves the depth-1 prefix alone: its entry is the one it had, so
    a variable that was not required there is still not. *)
Theorem C1_downstream_from_boundary var_name (path2 : string) m :
  let m' := _calculate_composite_input_outputs var_name "" path2 m in
  (∀ d, 2 <= d <= depth path2 →
        var_name ∈ required INPUT (scope_prefix d path2) m')
  ∧ m' !! scope_prefix 1 path2 = m !! scope_prefix 1 path2
  ∧ (var_name ∉ required INPUT (scope_prefix 1 path2) m →
     var_name ∉ required INPUT (scope_prefix 1 path2) m').
Proof.
  intros m'. subst m'. rewrite calculate_targets, targets_downstream.
  assert (apply_adds var_name (prefix_keys INPUT (split path2) (range 1 (depth path2))) m
            !! scope_prefix 1 path2 = m !! scope_prefix 1 path2) as Hframe.
  { apply lookup_apply_adds_ne. intros ([f k] & Hk & Hin)%list_elem_of_fmap.
    apply elem_of_prefix_keys in Hin as (_ & i & Hi%elem_of_range & ->).
    apply join_take_inj in Hk; unfold depth in *; lia. }
  split_and!.
  - intros d Hd. apply apply_adds_elem_of, elem_of_prefix_keys. split; [done|].
    exists (d - 1). split; [apply elem_of_range; lia|].
    unfold scope_prefix. by replace (d - 1 + 1) with d by lia.
  - done.
  - unfold required, field_of. by rewrite Hframe.
Qed.

(** Claim C5 (upstream to the boundary).  Called with an empty [path2]
    and a non-root producer path, the propagator puts the variable in the
    required-output list of every prefix of the producer path from depth
    1 to its full depth; the depth-1 scope is included. *)
Theorem C5_upstream_to_boundary var_name (path1 : string) m d :
  path1 ≠ "" → 1 <= d <= depth path1 →
  var_name ∈ required OUTPUT (scope_prefix d path1)
               (_calculate_composite_input_outputs var_name path1 "" m).
Proof.
  intros Hne Hd. rewrite calculate_targets, targets_upstream by done.
  apply apply_adds_elem_of, elem_of_prefix_keys. split; [done|].
  exists (d - 1). split; [apply elem_of_range; lia|].
  unfold scope_prefix. by replace (d - 1 + 1) with d by lia.
Qed.


Lemma append_ne_empty (a b : string) : a ≠ "" → a +:+ b ≠ "".
Proof. by destruct a. Qed.

Lemma append_slash_ne (a b : string) : a ≠ a +:+ String FORWARD_SLASH b.
Proof.
  intros Heq. apply (f_equal String.length) in Heq.
  rewrite length_append in Heq. simpl in Heq. lia.
Qed.

Lemma targets_consumer_ancestor (a b : string) :
  a ≠ "" →
  targets (a +:+ String FORWARD_SLASH b) a = partial_keys OUTPUT a (split b).
Proof.
  intros Ha. unfold targets.
  rewrite decide_False by by apply append_ne_empty.
  rewrite decide_False by done.
  rewrite startswith_append, split_app_slash. by rewrite drop_app_length.
Qed.

Lemma elem_of_partial_keys field base partial_split f k :
  (f, k) ∈ partial_keys field base partial_split
  ↔ f = field ∧ ∃ j, 1 <= j <= length partial_split
                    ∧ k = base +:+ String FORWARD_SLASH (join (take j partial_split)).
Proof.
  unfold partial_keys. rewrite list_elem_of_fmap. split.
  - intros (i & [= -> ->] & Hi%elem_of_range). split; [done|].
    exists (i + 1). split; [lia|done].
  - intros (-> & j & Hj & ->). exists (j - 1). split.
    + by replace (j - 1 + 1) with j by lia.
    + apply elem_of_range. lia.
Qed.

(** A strict extension of a scope path, on segments and on strings. *)
Lemma split_extension (path1 path2 : string) B :
  B ≠ [] → split path1 = split path2 ++ B →
  path1 = path2 +:+ String FORWARD_SLASH (join B) ∧ split (join B) = B.
Proof.
  intros HB Hsplit.
  assert (path1 = path2 +:+ String FORWARD_SLASH (join B)) as Hp.
  { rewrite <- (join_split path1), Hsplit, join_app; [|apply split_ne_nil|done].
    by rewrite join_split. }
  split; [done|].
  rewrite Hp, split_app_slash in Hsplit. by apply app_inv_head in Hsplit.
Qed.

Lemma partial_key_scope_prefix (path1 path2 : string) B j :
  split path1 = split path2 ++ B → 1 <= j <= length B →
  path2 +:+ String FORWARD_SLASH (join (take j B)) = scope_prefix (depth path2 + j) path1.
Proof.
  intros Hsplit Hj. unfold scope_prefix, depth. rewrite Hsplit, take_app_add.
  rewrite join_app, join_split; [done|apply split_ne_nil|].
  destruct B, j; simpl in *; try lia; done.
Qed.

(** The call for a producer at [a/b] and a consumer at [a]: the scope
    [a/b] receives the variable as a required output, and the entry of
    the scope [a] is untouched. *)
Lemma consumer_ancestor_output var_name (a b : string) m :
  a ≠ "" →
  let path1 := a +:+ String FORWARD_SLASH b in
  let m' := _calculate_composite_input_outputs var_name path1 a m in
  var_name ∈ required OUTPUT path1 m'
  ∧ m' !! a = m !! a
  ∧ required OUTPUT a m' = required OUTPUT a m
  ∧ required INPUT a m' = required INPUT a m.
Proof.
  intros Ha path1 m'. subst path1 m'.
  rewrite calculate_targets, targets_consumer_ancestor by done.
  assert (apply_adds var_name (partial_keys OUTPUT a (split b)) m !! a = m !! a) as Hframe.
  { apply lookup_apply_adds_ne. intros ([f k] & Hk & Hin)%list_elem_of_fmap.
    apply elem_of_partial_keys in Hin as (_ & j & _ & ->).
    by apply append_slash_ne in Hk. }
  split_and!.
  - apply apply_adds_elem_of, elem_of_partial_keys. split; [done|].
    exists (length (split b)). pose proof (length_split_pos b).
    split; [lia|]. by rewrite firstn_all, join_split.
  - done.
  - unfold required, field_of. by rewrite Hframe.
  - unfold required, field_of. by rewrite Hframe.
Qed.

(** The call for a consumer scope that is a strict prefix of the
    producer scope: the variable enters the required-OUTPUT list of
    every scope deeper than the consumer up to and including the
    producer; every other scope keeps its entry, and no required-input
    list changes anywhere. *)
Lemma consumer_strict_prefix_of_producer var_name (path1 path2 : string) B m :
  path2 ≠ "" → B ≠ [] → split path1 = split path2 ++ B →
  let m' := _calculate_composite_input_outputs var_name path1 path2 m in
  (∀ d, depth path2 < d <= depth path1 →
        var_name ∈ required OUTPUT (scope_prefix d path1) m')
  ∧ (∀ key, (∀ d, depth path2 < d <= depth path1 → key ≠ scope_prefix d path1) →
            m' !! key = m !! key)
  ∧ (∀ key, field_of INPUT key m' = field_of INPUT key m).
Proof.
  intros Hne HB Hsplit m'. subst m'.
  destruct (split_extension path1 path2 B HB Hsplit) as [Hp HsB].
  assert (depth path1 = depth path2 + length B) as Hdepth.
  { unfold depth. by rewrite Hsplit, length_app. }
  assert (targets path1 path2 = partial_keys OUTPUT path2 B) as Ht.
  { rewrite Hp, targets_consumer_ancestor by done. by rewrite HsB. }
  rewrite calculate_targets, Ht.
  split_and!.
  - intros d Hd. apply apply_adds_elem_of, elem_of_partial_keys. split; [done|].
    exists (d - depth path2). split; [lia|].
    rewrite (partial_key_scope_prefix path1) by (done || lia).
    f_equal. lia.
  - intros key Hkey. apply lookup_apply_adds_ne.
    intros ([f k] & Hk & Hin)%list_elem_of_fmap.
    apply elem_of_partial_keys in Hin as (_ & j & Hj & ->). simpl in Hk.
    rewrite (partial_key_scope_prefix path1) in Hk by done.
    apply (Hkey (depth path2 + j)); [lia|done].
  - intros key. apply field_of_apply_adds_ne.
    intros (Hf & _)%elem_of_partial_keys. done.
Qed.

(** Claim C4 at a failing input.  The scopes [a/b10] and [a/b1] are
    siblings under [a], neither a prefix of the other as scope paths; but
    the string ["a/b10"] starts with ["a/b1"], so the propagator takes the
    consumer-is-ancestor branch, finds no extra segment, and adds
    nothing: [a/b10] gets no required output and [a/b1] no required
    input. *)
Theorem C4_sibling_name_prefix_adds_nothing var_name m :
  split "a/b10" = ["a"; "b10"]
  ∧ split "a/b1" = ["a"; "b1"]
  ∧ startswith "a/b10" "a/b1" = true
  ∧ _calculate_composite_input_outputs var_name "a/b10" "a/b1" m = m.
Proof. by split_and!. Qed.

End Propagator.

(** ** The propagator over a link list *)

Section LinkMap.

Implicit Types (m : var_map) (onnx_graph : OnnxGraph) (link : OnnxLink)
  (name_to_op : gmap string OnnxOperation).

Lemma calculate_run_adds v (path1 path2 : string) m :
  _calculate_composite_input_outputs v path1 path2 m
  = run_adds (additions_of v (targets path1 path2)) m.
Proof. apply calculate_targets. Qed.

(** How a flat link reaches the propagator: a link from the graph
    boundary into a scoped consumer is propagated with an empty [path1]. *)
Lemma link_map_step_from_boundary onnx_graph name_to_op link snk clm cvm :
  link_source link = graph_name onnx_graph →
  link_sink link ≠ graph_name onnx_graph →
  name_to_op !! link_source link = None →
  name_to_op !! link_sink link = Some snk →
  op_composite_path snk ≠ "" →
  link_map_step onnx_graph name_to_op (clm, cvm) link
  = Ok (Dict.append (op_composite_path snk) link clm,
        _calculate_composite_input_outputs (link_var_name link)
          "" (op_composite_path snk) cvm).
Proof.
  intros Hsrc Hsink Hnone Hsnk Hpath. unfold link_map_step.
  rewrite decide_False by done. rewrite Hnone, Hsnk.
  rewrite (bool_decide_eq_false_2 (is_Some None)) by (by intros [? ?]). simpl.
  rewrite decide_True by done. by rewrite decide_True.
Qed.

(** A link from an operation to the graph boundary is propagated with an
    empty [path2]. *)
Lemma link_map_step_to_boundary onnx_graph name_to_op link src clm cvm :
  link_sink link = graph_name onnx_graph →
  name_to_op !! link_source link = Some src →
  link_map_step onnx_graph name_to_op (clm, cvm) link
  = Ok (Dict.append (graph_name onnx_graph) link clm,
        _calculate_composite_input_outputs (link_var_name link)
          (op_composite_path src) "" cvm).
Proof.
  intros Hsink Hsrc. unfold link_map_step, getitem.
  rewrite decide_True by done. by rewrite Hsrc.
Qed.

(** A link between two operations in different non-root scopes, not a
    declared graph output, is propagated with the producer's scope as
    [path1] and the consumer's as [path2]. *)
Lemma link_map_step_between_scopes onnx_graph name_to_op link src snk clm cvm :
  link_sink link ≠ graph_name onnx_graph →
  link_source link ≠ graph_name onnx_graph →
  link_var_name link ∉ graph_outputs onnx_graph →
  name_to_op !! link_source link = Some src →
  name_to_op !! link_sink link = Some snk →
  op_composite_path snk ≠ "" →
  op_composite_path snk ≠ op_composite_path src →
  link_map_step onnx_graph name_to_op (clm, cvm) link
  = Ok (Dict.append (op_composite_path snk) link clm,
        _calculate_composite_input_outputs (link_var_name link)
          (op_composite_path src) (op_composite_path snk) cvm).
Proof.
  intros Hsink Hsource Hout Hsrc Hsnk Hpath Hdiff. unfold link_map_step, getitem.
  rewrite decide_False by done. rewrite Hsrc, Hsnk.
  rewrite (bool_decide_eq_false_2 (_ ∈ _)) by done. rewrite andb_false_r.
  rewrite decide_True by done. rewrite decide_False by done. simpl.
  rewrite decide_True by (by right). done.
Qed.

(** Whether a step raises, and which additions it makes, depends on the
    link alone, not on the state it is run in. *)
Lemma link_map_step_adds onnx_graph name_to_op link clm cvm st' :
  link_map_step onnx_graph name_to_op (clm, cvm) link = Ok st' →
  ∃ adds, st'.2 = run_adds adds cvm
          ∧ ∀ clm0 cvm0, ∃ clm0',
              link_map_step onnx_graph name_to_op (clm0, cvm0) link
              = Ok (clm0', run_adds adds cvm0).
Proof.
  unfold link_map_step, getitem.
  repeat (case_decide || case_match || simpl);
    intros [= <-]; simpl;
    try (by exists []; split; [done|]; intros; eexists);
    try (eexists; split; [apply calculate_run_adds|]; intros; eexists;
         by rewrite calculate_run_adds).
  Unshelve. all: exact [].
Qed.

Lemma compile_link_map_adds onnx_graph name_to_op links clm cvm st' :
  for_each (link_map_step onnx_graph name_to_op) (clm, cvm) links = Ok st' →
  ∃ adds, st'.2 = run_adds adds cvm
          ∧ ∀ clm0 cvm0, ∃ clm0',
              for_each (link_map_step onnx_graph name_to_op) (clm0, cvm0) links
              = Ok (clm0', run_adds adds cvm0).
Proof.
  revert clm cvm. induction links as [|link links IH]; intros clm cvm.
  - intros [= <-]. exists []. split; [done|]. intros. by eexists.
  - rewrite for_each_cons. intros ([clm1 cvm1] & Hstep & Hrest)%bind_Ok_inv.
    apply link_map_step_adds in Hstep as (adds1 & Hcvm1 & Hany1). simpl in Hcvm1.
    apply IH in Hrest as (adds2 & Hst' & Hany2).
    exists (adds1 ++ adds2). split.
    + by rewrite run_adds_app, <- Hcvm1.
    + intros clm0 cvm0. rewrite for_each_cons.
      destruct (Hany1 clm0 cvm0) as [clm0' ->]. rewrite bind_Ok.
      rewrite run_adds_app. apply Hany2.
Qed.

(** Claim C6 (idempotent, order-preserving propagation).  A second call
    with the same variable and paths leaves the variable map as the first
    call left it; every list only grows at its end, so first-seen order
    is kept, and a list without duplicates stays so.  The same holds for
    a whole link list: a second run over the same links, started from
    the map the first run produced, ends with that same map, and a run
    started from the empty map leaves no duplicate in any list. *)
Theorem C6_propagation_idempotent v (path1 path2 : string) m :
  let m' := _calculate_composite_input_outputs v path1 path2 m in
  _calculate_composite_input_outputs v path1 path2 m' = m'
  ∧ (∀ field key, required field key m `prefix_of` required field key m')
  ∧ (∀ field key, NoDup (required field key m) → NoDup (required field key m'))
  ∧ (∀ onnx_graph name_to_op clm cvm clm1 cvm1 clm0,
       for_each (link_map_step onnx_graph name_to_op) (clm, cvm) (onnx_links onnx_graph)
         = Ok (clm1, cvm1) →
       (∃ clm2, for_each (link_map_step onnx_graph name_to_op) (clm0, cvm1)
                  (onnx_links onnx_graph) = Ok (clm2, cvm1))
       ∧ (∀ field key, required field key cvm `prefix_of` required field key cvm1)
       ∧ (∀ field key, NoDup (required field key cvm) → NoDup (required field key cvm1))
       ∧ (cvm = ∅ → ∀ field key, NoDup (required field key cvm1))).
Proof.
  intros m'. subst m'. rewrite !calculate_run_adds. split_and!.
  - apply run_adds_idempotent.
  - intros. apply required_run_adds_prefix.
  - intros. by apply required_run_adds_NoDup.
  - intros onnx_graph name_to_op clm cvm clm1 cvm1 clm0 Hrun.
    apply compile_link_map_adds in Hrun as (adds & Hcvm1 & Hany).
    simpl in Hcvm1. subst cvm1. split_and!.
    + destruct (Hany clm0 (run_adds adds cvm)) as [clm2 Hrun2].
      exists clm2. by rewrite Hrun2, run_adds_idempotent.
    + intros. apply required_run_adds_prefix.
    + intros. by apply required_run_adds_NoDup.
    + intros -> field key. apply required_run_adds_NoDup. apply NoDup_nil_2.
Qed.

(** What one link has put into the variable map is still there when the
    whole link list is compiled. *)
Lemma compile_link_map_keeps onnx_graph name_to_op link field key v cvm st :
  link ∈ onnx_links onnx_graph →
  (∀ st1 st2, link_map_step onnx_graph name_to_op st1 link = Ok st2 →
              v ∈ required field key st2.2) →
  _compile_onnx_composite_link_map onnx_graph name_to_op cvm = Ok st →
  v ∈ required field key st.2.
Proof.
  unfold _compile_onnx_composite_link_map.
  intros (l1 & l2 & ->)%list_elem_of_split Hstep Hmap.
  rewrite for_each_app in Hmap. apply bind_Ok_inv in Hmap as (st1 & _ & Hmap).
  rewrite for_each_cons in Hmap. apply bind_Ok_inv in Hmap as (st2 & Hlink & Hmap).
  destruct st2 as [clm2 cvm2].
  apply compile_link_map_adds in Hmap as (adds & -> & _).
  eapply elem_of_prefix; [|apply required_run_adds_prefix]. by eapply (Hstep st1 (clm2, cvm2)).
Qed.

(** Claim C2, amended.  A flat link from an operation in the scope [a/b]
    to an operation in the non-empty scope [a], neither end being the
    graph's name and its variable not a declared graph output, is filed
    under [a] and propagated: the scope [a/b] has the variable as a
    required output, also when the whole link list is compiled, and the
    step leaves the entry of the scope [a] as it was. *)
Theorem C2_consumer_ancestor_link onnx_graph link src snk (a b : string) clm cvm :
  link_source link ≠ graph_name onnx_graph →
  link_sink link ≠ graph_name onnx_graph →
  name_to_op_of onnx_graph !! link_source link = Some src →
  name_to_op_of onnx_graph !! link_sink link = Some snk →
  link_var_name link ∉ graph_outputs onnx_graph →
  a ≠ "" →
  op_composite_path src = a +:+ String Py.FORWARD_SLASH b →
  op_composite_path snk = a →
  ∃ cvm',
    link_map_step onnx_graph (name_to_op_of onnx_graph) (clm, cvm) link
    = Ok (Dict.append a link clm, cvm')
    ∧ link_var_name link ∈ required OUTPUT (a +:+ String Py.FORWARD_SLASH b) cvm'
    ∧ cvm' !! a = cvm !! a
    ∧ required OUTPUT a cvm' = required OUTPUT a cvm
    ∧ required INPUT a cvm' = required INPUT a cvm
    ∧ (link ∈ onnx_links onnx_graph →
       ∀ st, _compile_onnx_composite_link_map onnx_graph (name_to_op_of onnx_graph) ∅
             = Ok st →
             link_var_name link ∈ required OUTPUT (a +:+ String Py.FORWARD_SLASH b) st.2).
Proof.
  intros Hsource Hsink Hsrc Hsnk Hout Ha Hp1 Hp2.
  assert (op_composite_path snk ≠ op_composite_path src) as Hdiff.
  { rewrite Hp1, Hp2. apply append_slash_ne. }
  assert (∀ clm0 cvm0,
            link_map_step onnx_graph (name_to_op_of onnx_graph) (clm0, cvm0) link
            = Ok (Dict.append a link clm0,
                  _calculate_composite_input_outputs (link_var_name link)
                    (a +:+ String Py.FORWARD_SLASH b) a cvm0)) as Hstep.
  { intros clm0 cvm0.
    rewrite (link_map_step_between_scopes _ _ _ src snk) by (done || congruence).
    by rewrite Hp1, Hp2. }
  eexists. split; [apply Hstep|].
  destruct (consumer_ancestor_output (link_var_name link) a b cvm Ha)
    as (Hadded & Hframe & Houts & Hins).
  split_and!; [done..|].
  intros Hlink st Hmap.
  eapply compile_link_map_keeps; [done| |done].
  intros [clm1 cvm1] st2. rewrite Hstep. intros [= <-]. simpl.
  by destruct (consumer_ancestor_output (link_var_name link) a b cvm1 Ha) as (? & _).
Qed.

(** Claim C3, amended.  A flat link between two known operations,
    neither end being the graph's name and its variable not a declared
    graph output, whose consumer scope is a strict prefix of its
    producer scope (the root, whose path is empty, of any scope), is
    propagated: the variable enters the required-OUTPUT list of every
    scope deeper than the consumer up to and including the producer,
    also when the whole link list is compiled; the step leaves every
    other scope's entry as it was and changes no required-input list. *)
Theorem C3_consumer_prefix_link onnx_graph link src snk clm cvm :
  link_source link ≠ graph_name onnx_graph →
  link_sink link ≠ graph_name onnx_graph →
  name_to_op_of onnx_graph !! link_source link = Some src →
  name_to_op_of onnx_graph !! link_sink link = Some snk →
  link_var_name link ∉ graph_outputs onnx_graph →
  strict_scope_prefix (op_composite_path snk) (op_composite_path src) →
  let deeper d :=
    scope_depth (op_composite_path snk) < d <= depth (op_composite_path src) in
  ∃ clm' cvm',
    link_map_step onnx_graph (name_to_op_of onnx_graph) (clm, cvm) link = Ok (clm', cvm')
    ∧ (∀ d, deeper d →
            link_var_name link
            ∈ required OUTPUT (scope_prefix d (op_composite_path src)) cvm')
    ∧ (∀ key, (∀ d, deeper d → key ≠ scope_prefix d (op_composite_path src)) →
              cvm' !! key = cvm !! key)
    ∧ (∀ key, field_of INPUT key cvm' = field_of INPUT key cvm)
    ∧ (link ∈ onnx_links onnx_graph →
       ∀ st d, _compile_onnx_composite_link_map onnx_graph (name_to_op_of onnx_graph) ∅
               = Ok st →
               deeper d →
               link_var_name link
               ∈ required OUTPUT (scope_prefix d (op_composite_path src)) st.2).
Proof.
  intros Hsource Hsink Hsrc Hsnk Hout Hprefix deeper. subst deeper.
  unfold strict_scope_prefix, scope_depth in *.
  destruct (decide (op_composite_path snk = "")) as [Hroot|Hscope].
  - (* the consumer is owned by the root *)
    assert (∀ clm0 cvm0,
              link_map_step onnx_graph (name_to_op_of onnx_graph) (clm0, cvm0) link
              = Ok (Dict.append (graph_name onnx_graph) link clm0,
                    apply_adds (link_var_name link)
                      (prefix_keys OUTPUT (Py.split (op_composite_path src))
                         (Py.range 0 (depth (op_composite_path src)))) cvm0)) as Hstep.
    { intros clm0 cvm0. unfold link_map_step, getitem.
      rewrite decide_False by done. rewrite Hsrc, Hsnk.
      rewrite (bool_decide_eq_false_2 (_ ∈ _)) by done. rewrite andb_false_r.
      rewrite decide_False by (intros ?; done).
      rewrite decide_False by done. simpl. rewrite decide_True by done.
      by rewrite Hroot, calculate_targets, targets_upstream. }
    assert (∀ cvm0 d, 0 < d <= depth (op_composite_path src) →
              link_var_name link
              ∈ required OUTPUT (scope_prefix d (op_composite_path src))
                  (apply_adds (link_var_name link)
                     (prefix_keys OUTPUT (Py.split (op_composite_path src))
                        (Py.range 0 (depth (op_composite_path src)))) cvm0)) as Hadded.
    { intros cvm0 d Hd. apply apply_adds_elem_of, elem_of_prefix_keys. split; [done|].
      exists (d - 1). split; [apply elem_of_range; lia|].
      unfold scope_prefix. f_equal. f_equal. lia. }
    eexists _, _. split; [apply Hstep|]. split_and!.
    + intros d Hd. by apply Hadded.
    + intros key Hkey. apply lookup_apply_adds_ne.
      intros ([f k] & Hk & Hin)%list_elem_of_fmap. simpl in Hk. subst k.
      apply elem_of_prefix_keys in Hin as (_ & i & Hi%elem_of_range & Hk).
      apply (Hkey (i + 1)); [lia|done].
    + intros key. apply field_of_apply_adds_ne.
      intros (Hf & _)%elem_of_prefix_keys. done.
    + intros Hlink st d Hmap Hd.
      eapply compile_link_map_keeps; [done| |done].
      intros [clm1 cvm1] st2. rewrite Hstep. intros [= <-]. by apply Hadded.
  - (* the consumer's scope encloses the producer's *)
    destruct Hprefix as (B & HB & Hsplit).
    assert (op_composite_path snk ≠ op_composite_path src) as Hdiff.
    { intros Heq. rewrite <- Heq in Hsplit. apply (f_equal length) in Hsplit.
      rewrite length_app in Hsplit. destruct B; [done|]. simpl in Hsplit. lia. }
    assert (∀ clm0 cvm0,
              link_map_step onnx_graph (name_to_op_of onnx_graph) (clm0, cvm0) link
              = Ok (Dict.append (op_composite_path snk) link clm0,
                    _calculate_composite_input_outputs (link_var_name link)
                      (op_composite_path src) (op_composite_path snk) cvm0)) as Hstep.
    { intros clm0 cvm0. by apply link_map_step_between_scopes. }
    eexists _, _. split; [apply Hstep|].
    destruct (consumer_strict_prefix_of_producer (link_var_name link) _ _ B cvm
                Hscope HB Hsplit) as (Hadded & Hframe & Hins).
    split_and!; [done..|].
    intros Hlink st d Hmap Hd.
    eapply compile_link_map_keeps; [done| |done].
    intros [clm1 cvm1] st2. rewrite Hstep. intros [= <-]. simpl.
    destruct (consumer_strict_prefix_of_producer (link_var_name link) _ _ B cvm1
                Hscope HB Hsplit) as (Hadded1 & _).
    by apply Hadded1.
Qed.

End LinkMap.

(** ** The cross-stream case *)

Section CrossStream.

Import Py PyFacts.
Implicit Types (m : var_map) (segs osegs : list string).

Lemma shared_parts_loop_acc segs osegs idx acc x :
  x ∈ acc → x ∈ shared_parts_loop segs osegs idx acc.
Proof.
  revert acc. induction idx as [|i idx IH]; intros acc Hx; [done|].
  simpl. case_decide; [|done]. apply IH. set_solver.
Qed.

Lemma elem_of_shared_parts_loop segs osegs idx acc x :
  x ∈ shared_parts_loop segs osegs idx acc →
  x ∈ acc ∨ ∃ i, i ∈ idx ∧ take (i + 1) segs = take (i + 1) osegs ∧ x = join (take (i + 1) segs).
Proof.
  revert acc. induction idx as [|i idx IH]; intros acc; [by left|].
  simpl. case_decide as Heq; [|by left].
  intros [Hacc|(j & Hj & Hjeq & ->)]%IH.
  - apply elem_of_app in Hacc as [Hacc|Hx%list_elem_of_singleton]; [by left|].
    subst x. right. exists i. split; [by left|done].
  - right. exists j. split; [by right|done].
Qed.

Lemma shared_parts_loop_complete segs osegs a n acc i :
  a <= i < a + n →
  (∀ j, a <= j <= i → take (j + 1) segs = take (j + 1) osegs) →
  join (take (i + 1) segs) ∈ shared_parts_loop segs osegs (seq a n) acc.
Proof.
  revert a acc. induction n as [|n IH]; intros a acc Hi Heq; [lia|].
  simpl. rewrite decide_True by (apply Heq; lia).
  destruct (decide (a = i)) as [Hai|Hne].
  - subst i. apply shared_parts_loop_acc, elem_of_app. right. by left.
  - apply IH; [lia|]. intros j Hj. apply Heq. lia.
Qed.

Lemma take_eq_le {A} (l1 l2 : list A) d d' :
  d' <= d → take d l1 = take d l2 → take d' l1 = take d' l2.
Proof.
  intros Hle Heq. apply (f_equal (take d')) in Heq.
  rewrite !take_take in Heq. by replace (d' `min` d) with d' in Heq by lia.
Qed.

Lemma targets_cross_stream (path1 path2 : string) :
  path1 ≠ "" → path2 ≠ "" →
  startswith path1 path2 = false → startswith path2 path1 = false →
  targets path1 path2 =
    let shared_parts :=
      shared_parts_loop (split path1) (split path2)
        (range 0 (min (depth path1) (depth path2))) [] in
    unshared_keys OUTPUT (split path1) shared_parts
    ++ unshared_keys INPUT (split path2) shared_parts.
Proof.
  intros H1 H2 Hs1 Hs2. unfold targets.
  rewrite !decide_False by done. by rewrite Hs1, Hs2.
Qed.

Lemma elem_of_unshared_keys field segs shared f k :
  (f, k) ∈ unshared_keys field segs shared
  ↔ f = field ∧ (k ∉ shared) ∧ ∃ d, 1 <= d <= length segs ∧ k = join (take d segs).
Proof.
  unfold unshared_keys. rewrite list_elem_of_filter. simpl.
  unfold prefix_keys. rewrite list_elem_of_fmap. split.
  - intros (Hk & i & [= -> ->] & Hi%elem_of_seq). split_and!; [done..|].
    exists (i + 1). split; [lia|done].
  - intros (-> & Hk & d & Hd & ->). split; [done|]. exists (d - 1). split.
    + by replace (d - 1 + 1) with d by lia.
    + apply elem_of_seq. lia.
Qed.

(** The cross-stream case, when the code reaches it: the scopes of the
    producer below the common ancestors get the output, those of the
    consumer the input, the common ancestors nothing. *)
Lemma cross_stream_divergent v (path1 path2 : string) m :
  path1 ≠ "" → path2 ≠ "" →
  startswith path1 path2 = false → startswith path2 path1 = false →
  let m' := _calculate_composite_input_outputs v path1 path2 m in
  (∀ d, 1 <= d <= depth path1 → take d (split path1) ≠ take d (split path2) →
        v ∈ required OUTPUT (scope_prefix d path1) m')
  ∧ (∀ d, 1 <= d <= depth path2 → take d (split path1) ≠ take d (split path2) →
          v ∈ required INPUT (scope_prefix d path2) m')
  ∧ (∀ d, 1 <= d <= min (depth path1) (depth path2) →
          take d (split path1) = take d (split path2) →
          m' !! scope_prefix d path1 = m !! scope_prefix d path1).
Proof.
  intros H1 H2 Hs1 Hs2 m'. subst m'.
  rewrite calculate_targets, targets_cross_stream by done. simpl.
  set (shared := shared_parts_loop _ _ _ _).
  assert (∀ x, x ∈ shared → ∃ d, 1 <= d <= min (depth path1) (depth path2)
                               ∧ take d (split path1) = take d (split path2)
                               ∧ x = join (take d (split path1))) as Hshared.
  { intros x [Hx|(i & Hi%elem_of_seq & Heq & ->)]%elem_of_shared_parts_loop.
    - by apply elem_of_nil in Hx.
    - exists (i + 1). split; [lia|done]. }
  unfold depth in *. split_and!.
  - intros d Hd Hne. apply apply_adds_elem_of, elem_of_app. left.
    apply elem_of_unshared_keys. split_and!; [done| |by exists d].
    intros (d' & Hd' & Heq & Hk)%Hshared.
    apply join_take_inj in Hk as ->; [done|lia..].
  - intros d Hd Hne. apply apply_adds_elem_of, elem_of_app. right.
    apply elem_of_unshared_keys. split_and!; [done| |by exists d].
    intros (d' & Hd' & Heq & Hk)%Hshared. rewrite Heq in Hk.
    apply join_take_inj in Hk as ->; [done|lia..].
  - intros d Hd Heq. apply lookup_apply_adds_ne.
    intros ([f k] & Hk & Hin)%list_elem_of_fmap. simpl in Hk. subst k.
    assert (scope_prefix d path1 ∈ shared) as Hin_shared.
    { unfold scope_prefix, shared. replace d with (d - 1 + 1) by lia.
      apply shared_parts_loop_complete; [unfold depth; lia|].
      intros j Hj. apply (take_eq_le _ _ d); [lia|done]. }
    apply elem_of_app in Hin as [Hin|Hin];
      apply elem_of_unshared_keys in Hin as (_ & Hnin & _); done.
Qed.

End CrossStream.

(** ** Link-map compilation *)

Section Conversion.

Context {iteration : SetIteration}.
Implicit Types (onnx_graph : OnnxGraph) (link : OnnxLink).

(** The final-output rule: the step leaves the link map and the variable
    map as they are. *)
Lemma link_map_step_final_output onnx_graph name_to_op link st :
  link_sink link ≠ graph_name onnx_graph →
  is_Some (name_to_op !! link_source link) →
  link_var_name link ∈ graph_outputs onnx_graph →
  link_map_step onnx_graph name_to_op st link = Ok st.
Proof.
  intros Hsink Hsrc Hout. unfold link_map_step. destruct st as [clm cvm].
  rewrite decide_False by done.
  by rewrite !bool_decide_eq_true_2.
Qed.

Lemma for_each_skip {S A} (body : S → A → result S) s l1 x l2 :
  (∀ s', body s' x = Ok s') →
  for_each body s (l1 ++ x :: l2) = for_each body s (l1 ++ l2).
Proof.
  intros Hskip. rewrite !for_each_app. destruct (for_each body s l1); [|done].
  by rewrite !bind_Ok, for_each_cons, Hskip, bind_Ok.
Qed.

(** Claim C10 (the final-output rule).  A link whose sink is not the
    graph itself, whose source is a known operation and whose variable is
    a declared graph output is skipped: its step returns the link map
    and the variable map unchanged, so link-map compilation and the
    whole conversion give what they give without the link, whatever the
    scopes of its producer and consumer. *)
Theorem C10_final_output_link_discarded onnx_graph link l1 l2 :
  link_sink link ≠ graph_name onnx_graph →
  is_Some (name_to_op_of onnx_graph !! link_source link) →
  link_var_name link ∈ graph_outputs onnx_graph →
  onnx_links onnx_graph = l1 ++ link :: l2 →
  (∀ st, link_map_step onnx_graph (name_to_op_of onnx_graph) st link = Ok st)
  ∧ (∀ cvm, _compile_onnx_composite_link_map onnx_graph (name_to_op_of onnx_graph) cvm
            = _compile_onnx_composite_link_map (with_links onnx_graph (l1 ++ l2))
                (name_to_op_of onnx_graph) cvm)
  ∧ onnx_graph_to_graphbook onnx_graph
    = onnx_graph_to_graphbook (with_links onnx_graph (l1 ++ l2)).
Proof.
  intros Hsink Hsrc Hout Hlinks.
  assert (∀ st, link_map_step onnx_graph (name_to_op_of onnx_graph) st link = Ok st)
    as Hstep by (intros; by apply link_map_step_final_output).
  assert (∀ cvm, _compile_onnx_composite_link_map onnx_graph (name_to_op_of onnx_graph) cvm
            = _compile_onnx_composite_link_map (with_links onnx_graph (l1 ++ l2))
                (name_to_op_of onnx_graph) cvm) as Hmap.
  { intros cvm. unfold _compile_onnx_composite_link_map. rewrite Hlinks. simpl.
    by apply (for_each_skip (link_map_step onnx_graph (name_to_op_of onnx_graph))). }
  split_and!; [done..|].
  unfold onnx_graph_to_graphbook, graphbook_composite_map_of.
  change (name_to_op_of (with_links onnx_graph (l1 ++ l2))) with (name_to_op_of onnx_graph).
  change (_compile_onnx_composite_map (with_links onnx_graph (l1 ++ l2)) {[""]})
    with (_compile_onnx_composite_map onnx_graph {[""]}).
  rewrite Hmap. reflexivity.
Qed.


(** A link whose sink names nothing and which the final-output rule does
    not skip raises, whatever the state. *)
Lemma link_map_step_dangling onnx_graph name_to_op link st :
  link_sink link ≠ graph_name onnx_graph →
  name_to_op !! link_sink link = None →
  ¬ (is_Some (name_to_op !! link_source link)
     ∧ link_var_name link ∈ graph_outputs onnx_graph) →
  link_map_step onnx_graph name_to_op st link = Raise (sink_not_recognized link).
Proof.
  intros Hsink Hnone Hskip. unfold link_map_step. destruct st as [clm cvm].
  rewrite decide_False by done. rewrite Hnone.
  destruct (bool_decide _ && bool_decide _) eqn:Hb; [|done].
  apply andb_true_iff in Hb as [?%bool_decide_eq_true ?%bool_decide_eq_true].
  by destruct Hskip.
Qed.

(** The only exceptions of a step are the two unresolved-endpoint ones. *)
Lemma link_map_step_raise onnx_graph name_to_op link st e :
  link_map_step onnx_graph name_to_op st link = Raise e →
  (e = KeyError (link_source link) ∧ name_to_op !! link_source link = None)
  ∨ (e = sink_not_recognized link
     ∧ link_sink link ≠ graph_name onnx_graph
     ∧ name_to_op !! link_sink link = None).
Proof.
  unfold link_map_step, getitem. destruct st as [clm cvm].
  repeat (case_decide || case_match || simpl); intros [= <-]; auto.
Qed.

Lemma for_each_raise_elem {S A} (body : S → A → result S) s l e :
  for_each body s l = Raise e → ∃ s' x, x ∈ l ∧ body s' x = Raise e.
Proof.
  revert s. induction l as [|x l IH]; intros s; [done|].
  rewrite for_each_cons. destruct (body s x) as [s1|e1] eqn:Hbody.
  - rewrite bind_Ok. intros (s' & y & Hy & Hraise)%IH.
    exists s', y. split; [by right|done].
  - rewrite bind_Raise. intros [= <-]. exists s, x. split; [by left|done].
Qed.

Lemma for_each_raises {S A} (body : S → A → result S) s l x :
  x ∈ l → (∀ s', is_ok (body s' x) = false) → is_ok (for_each body s l) = false.
Proof.
  intros Hx Hraise. revert s. induction l as [|y l IH]; intros s.
  { by apply elem_of_nil in Hx. }
  rewrite for_each_cons. destruct (body s y) as [s1|e1] eqn:Hbody; [|done].
  rewrite bind_Ok. apply elem_of_cons in Hx as [->|Hx]; [|by apply IH].
  specialize (Hraise s). by rewrite Hbody in Hraise.
Qed.

(** Claim C8, amended.  A link whose sink is neither the graph nor a
    known operation, and which the final-output rule does not skip (its
    source is unknown or its variable is not a declared graph output),
    makes link-map compilation raise, and the conversion raises the same
    exception, so no tree is returned.  The exception reports an
    unresolved endpoint; it is the [ValueError] for this link's sink
    unless an earlier link raised first. *)
Theorem C8_dangling_sink_fatal onnx_graph link :
  link ∈ onnx_links onnx_graph →
  link_sink link ≠ graph_name onnx_graph →
  name_to_op_of onnx_graph !! link_sink link = None →
  ¬ (is_Some (name_to_op_of onnx_graph !! link_source link)
     ∧ link_var_name link ∈ graph_outputs onnx_graph) →
  ∃ e,
    _compile_onnx_composite_link_map onnx_graph (name_to_op_of onnx_graph) ∅ = Raise e
    ∧ onnx_graph_to_graphbook onnx_graph = Raise e
    ∧ unresolved_endpoint onnx_graph e
    ∧ (∀ l1 l2 st,
         onnx_links onnx_graph = l1 ++ link :: l2 →
         for_each (link_map_step onnx_graph (name_to_op_of onnx_graph)) ([], ∅) l1 = Ok st →
         e = sink_not_recognized link).
Proof.
  intros Hin Hsink Hnone Hskip.
  pose proof (for_each_raises (link_map_step onnx_graph (name_to_op_of onnx_graph))
                ([], ∅) (onnx_links onnx_graph) link Hin) as Hraises.
  destruct (_compile_onnx_composite_link_map onnx_graph (name_to_op_of onnx_graph) ∅)
    as [st|e] eqn:Hmap.
  { unfold _compile_onnx_composite_link_map in Hmap. rewrite Hmap in Hraises.
    discriminate Hraises. intros st'. by rewrite link_map_step_dangling. }
  exists e. split_and!.
  - done.
  - unfold onnx_graph_to_graphbook, graphbook_composite_map_of.
    destruct (_compile_onnx_composite_map onnx_graph {[""]}) as [composite_map composite_names].
    by rewrite Hmap.
  - unfold _compile_onnx_composite_link_map in Hmap.
    apply for_each_raise_elem in Hmap as (st' & link' & Hin' & Hstep).
    exists link'. split; [done|]. by eapply link_map_step_raise.
  - intros l1 l2 st Hlinks Hl1.
    unfold _compile_onnx_composite_link_map in Hmap.
    rewrite Hlinks, for_each_app, Hl1, bind_Ok, for_each_cons in Hmap.
    rewrite link_map_step_dangling in Hmap by done. by injection Hmap.
Qed.

End Conversion.

(** Claim C8 as stated fails: a link to a consumer that does not exist is
    dropped without any exception when its source is known and its
    variable is a declared graph output, and the conversion returns a
    tree. *)
Lemma C8_counterexample :
  link_sink {| link_source := "A"; link_sink := "ghost"; link_var_name := "v" |}
    ≠ graph_name dangling_output_graph
  ∧ name_to_op_of dangling_output_graph !! "ghost" = None
  ∧ is_ok (onnx_graph_to_graphbook (iteration := elements_iteration) dangling_output_graph) = true.
Proof. split_and!; [done| |]; by vm_compute. Qed.

(** ** Routing at the root *)

Section Routing.

Context {iteration : SetIteration}.
Implicit Types (onnx_graph : OnnxGraph) (link : OnnxLink) (gcm : composite_store).

Lemma lookup_append_link_eq key l gcm c :
  gcm !! key = Some c →
  append_link key l gcm !! key = Some (set_links c (Composite.links c ++ [l])).
Proof. intros Hc. unfold append_link. rewrite Hc. apply lookup_insert_eq. Qed.

Lemma lookup_append_link_ne key key' l gcm :
  key ≠ key' → append_link key l gcm !! key' = gcm !! key'.
Proof.
  intros Hne. unfold append_link. destruct (gcm !! key); [|done].
  by apply lookup_insert_ne.
Qed.

(** Claim C7, amended.  When the root is being resolved and the producer
    is not one of its direct children, the router takes the producer's
    name without its last segment as the scope to look up (the scope
    that immediately encloses the producer).  It raises [KeyError] when
    there is no such composite and [ValueError] when the variable is not
    a declared output of it; otherwise it appends, to that scope's own
    link list, a link from the producing primitive to that scope's
    ["this"] boundary, and changes no other composite: the root keeps
    its link list unless the scope looked up is the root itself. *)
Theorem C7_root_routes_into_enclosing_scope onnx_graph primitive_map gcm link
    primitive_source root :
  link_source link ≠ graph_name onnx_graph →
  primitive_map !! link_source link = Some primitive_source →
  gcm !! graph_name onnx_graph = Some root →
  ChildPrimitive primitive_source ∉ Composite.operations root →
  let sink_name := Py.join (Py.but_last (Py.split (prim_name primitive_source))) in
  let emitted :=
    {| source := endpoint (prim_name primitive_source) (link_var_name link);
       sink := endpoint THIS (link_var_name link);
       link_var := None |} in
  match gcm !! sink_name with
  | None =>
      route_link onnx_graph primitive_map (graph_name onnx_graph) gcm link
      = Raise (KeyError sink_name)
  | Some next_composite =>
      if decide (link_var_name link ∈ names_of (Composite.outputs next_composite)) then
        ∃ gcm',
          route_link onnx_graph primitive_map (graph_name onnx_graph) gcm link = Ok gcm'
          ∧ gcm' !! sink_name
            = Some (set_links next_composite (Composite.links next_composite ++ [emitted]))
          ∧ (∀ key, key ≠ sink_name → gcm' !! key = gcm !! key)
          ∧ (sink_name ≠ graph_name onnx_graph →
             gcm' !! graph_name onnx_graph = Some root)
      else
        route_link onnx_graph primitive_map (graph_name onnx_graph) gcm link
        = Raise (ValueError "Expected link var name to be in composite outputs")
  end.
Proof.
  intros Hsrc Hprim Hroot Hchild sink_name emitted.
  unfold route_link, getitem. rewrite decide_False by done.
  rewrite Hprim, Hroot. simpl.
  rewrite decide_False by done. rewrite decide_True by done.
  fold sink_name. destruct (gcm !! sink_name) as [next_composite|] eqn:Hnext; [|done].
  simpl. case_decide; [|done].
  eexists. split; [done|]. split_and!.
  - by apply lookup_append_link_eq.
  - intros key Hkey. by apply lookup_append_link_ne.
  - intros Hne. by rewrite lookup_append_link_ne.
Qed.

End Routing.

(** Claim C7 as stated fails: for the producer [x/y/p] the top-level scope
    is [x], but the link is emitted inside [x/y], its source is the
    primitive [x/y/p], and the root's link list stays empty, in the
    composite map and in the tree that is returned. *)
Lemma C7_counterexample :
  let emitted :=
    {| source := endpoint "x/y/p" "v"; sink := endpoint THIS "v"; link_var := None |} in
  let routed := append_link "x/y" emitted nested_producer_store in
  scope_prefix 1 "x/y" = "x"
  ∧ route_link nested_producer_graph {[ "x/y/p" := nested_producer_primitive ]} "g"
      nested_producer_store nested_producer_link = Ok routed
  ∧ routed !! "g" = nested_producer_store !! "g"
  ∧ Composite.links <$> routed !! "g" = Some []
  ∧ Composite.links <$> routed !! "x" = Some [output_boundary_link "x/y" "v"]
  ∧ Composite.links <$> routed !! "x/y" = Some [emitted]
  ∧ graphbook_composite_map_of (iteration := elements_iteration) nested_producer_graph = Ok routed
  ∧ ∃ t root,
      onnx_graph_to_graphbook (iteration := elements_iteration) nested_producer_graph = Ok t
      ∧ tree_store t !! "g" = Some root
      ∧ Composite.links root = [].
Proof.
  split_and!; try by vm_compute.
  eexists _, _. split_and!; by vm_compute.
Qed.

(** ** Boundary wiring *)

Section Wiring.

Context {iteration : SetIteration}.
Implicit Types (onnx_graph : OnnxGraph) (link : OnnxLink) (gcm : composite_store)
  (c : Composite).

Lemma extends_refl c : extends c c.
Proof. by unfold extends. Qed.

Lemma extends_trans c1 c2 c3 : extends c1 c2 → extends c2 c3 → extends c1 c3.
Proof.
  intros (Hi & Ho & Hl & Hop) (Hi' & Ho' & Hl' & Hop'). unfold extends.
  split_and!; [congruence|congruence|set_solver|set_solver].
Qed.

Lemma store_extends_refl gcm : store_extends gcm gcm.
Proof. intros key c Hc. exists c. split; [done|apply extends_refl]. Qed.

Lemma store_extends_trans gcm1 gcm2 gcm3 :
  store_extends gcm1 gcm2 → store_extends gcm2 gcm3 → store_extends gcm1 gcm3.
Proof.
  intros H12 H23 key c1 Hc1.
  destruct (H12 key c1 Hc1) as (c2 & Hc2 & He12).
  destruct (H23 key c2 Hc2) as (c3 & Hc3 & He23).
  exists c3. split; [done|]. by eapply extends_trans.
Qed.

Lemma store_extends_insert gcm key c c' :
  gcm !! key = Some c → extends c c' → store_extends gcm (<[key := c']> gcm).
Proof.
  intros Hc Hext key' c0 Hc0. destruct (decide (key = key')) as [<-|Hne].
  - rewrite lookup_insert_eq. exists c'. split; [done|]. congruence.
  - rewrite lookup_insert_ne by done. exists c0. split; [done|apply extends_refl].
Qed.

Lemma append_link_extends key l gcm : store_extends gcm (append_link key l gcm).
Proof.
  unfold append_link. destruct (gcm !! key) as [c|] eqn:Hc; [|apply store_extends_refl].
  eapply store_extends_insert; [done|].
  unfold extends, set_links. simpl. split_and!; [done|done|set_solver|done].
Qed.

Lemma for_each_invariant {S A} (R : S → S → Prop) (body : S → A → result S) s l s' :
  (∀ s, R s s) → (∀ s1 s2 s3, R s1 s2 → R s2 s3 → R s1 s3) →
  (∀ s x s', body s x = Ok s' → R s s') →
  for_each body s l = Ok s' → R s s'.
Proof.
  intros Hrefl Htrans Hbody. revert s. induction l as [|x l IH]; intros s.
  - intros [= <-]. apply Hrefl.
  - rewrite for_each_cons. intros (s1 & Hx & Hl)%bind_Ok_inv.
    eapply Htrans; [by eapply Hbody|by apply IH].
Qed.

Lemma wire_step_extends onnx_graph gcm name gcm' :
  wire_step onnx_graph gcm name = Ok gcm' → store_extends gcm gcm'.
Proof.
  unfold wire_step, getitem.
  repeat case_decide; try (intros [= <-]; apply store_extends_refl).
  destruct (gcm !! name) as [sub_op|]; [|done]. simpl.
  destruct (gcm !! parent_name_of onnx_graph name) as [parent_composite|] eqn:Hp; [|done].
  simpl. intros [= <-]. eapply store_extends_insert; [done|].
  unfold extends, set_links, set_operations. simpl.
  split_and!; [done|done|set_solver|set_solver].
Qed.

Lemma route_link_extends onnx_graph primitive_map composite_name gcm link gcm' :
  route_link onnx_graph primitive_map composite_name gcm link = Ok gcm' →
  store_extends gcm gcm'.
Proof.
  unfold route_link, getitem.
  repeat (case_decide || case_match || simpl); intros [= <-];
    apply store_extends_refl || apply append_link_extends.
Qed.

Lemma wirer_extends onnx_graph gcm names gcm' :
  for_each (wire_step onnx_graph) gcm names = Ok gcm' → store_extends gcm gcm'.
Proof.
  apply for_each_invariant;
    [apply store_extends_refl|apply store_extends_trans|apply wire_step_extends].
Qed.

Lemma router_extends onnx_graph gcm primitive_map composite_link_map gcm' :
  _compile_links_between_composite_and_primitive onnx_graph gcm primitive_map
    composite_link_map = Ok gcm' →
  store_extends gcm gcm'.
Proof.
  apply for_each_invariant; [apply store_extends_refl|apply store_extends_trans|].
  intros s [composite_name link_list] s'.
  intros (_ & _ & Hlinks)%bind_Ok_inv. revert Hlinks.
  apply for_each_invariant;
    [apply store_extends_refl|apply store_extends_trans|apply route_link_extends].
Qed.

Lemma elem_of_boundary_links mk sub_vars parent_vars v :
  v ∈ names_of sub_vars → v ∈ names_of parent_vars →
  mk v ∈ boundary_links mk sub_vars parent_vars.
Proof.
  unfold names_of, boundary_links.
  intros (sv & -> & Hsv)%list_elem_of_fmap (pv & Hpv & Hin)%list_elem_of_fmap.
  apply list_elem_of_In, in_flat_map. exists sv. split; [by apply list_elem_of_In|].
  apply in_flat_map. exists pv. split; [by apply list_elem_of_In|].
  rewrite decide_True by done. by left.
Qed.

(** What the wirer does for one nested scope. *)
Lemma wire_step_links onnx_graph gcm name gcm' :
  name ≠ graph_name onnx_graph → 2 <= depth name →
  wire_step onnx_graph gcm name = Ok gcm' →
  ∃ sub_op parent_composite parent',
    gcm !! name = Some sub_op
    ∧ gcm !! parent_name_of onnx_graph name = Some parent_composite
    ∧ gcm' !! parent_name_of onnx_graph name = Some parent'
    ∧ ChildComposite name ∈ Composite.operations parent'
    ∧ (∀ v, v ∈ names_of (Composite.inputs sub_op) →
            v ∈ names_of (Composite.inputs parent_composite) →
            input_boundary_link name v ∈ Composite.links parent')
    ∧ (∀ v, v ∈ names_of (Composite.outputs sub_op) →
            v ∈ names_of (Composite.outputs parent_composite) →
            output_boundary_link name v ∈ Composite.links parent').
Proof.
  intros Hname Hdepth. unfold wire_step, getitem, depth in *.
  rewrite decide_False by done. rewrite decide_False by lia.
  destruct (gcm !! name) as [sub_op|]; [|done]. simpl.
  destruct (gcm !! parent_name_of onnx_graph name) as [parent_composite|] eqn:Hp; [|done].
  simpl. intros [= <-]. eexists _, _, _. split_and!; [done|done|apply lookup_insert_eq|..].
  - simpl. set_solver.
  - intros v Hs Hp'. simpl. rewrite !elem_of_app. right. left.
    by apply elem_of_boundary_links.
  - intros v Hs Hp'. simpl. rewrite !elem_of_app. right. right.
    by apply elem_of_boundary_links.
Qed.

End Wiring.

Section Completeness.

Context {iteration : SetIteration}.
Implicit Types (onnx_graph : OnnxGraph) (gcm : composite_store) (c : Composite).

Lemma elem_of_set_iter (names : gset string) name : name ∈ set_iter names ↔ name ∈ names.
Proof. rewrite set_iter_perm. apply elem_of_elements. Qed.

(** What the wirer does for a nested scope is still there after
    routing: the scope is a child of its parent composite, and every
    name that both declare as an input is the variable of a link in the
    parent from ["this"] to the child; every name that both declare as
    an output is the variable of a link in the parent from the child to
    ["this"]. *)
Lemma nested_interface_wired onnx_graph gcm names pm clm gcm_w gcm_r name :
  _compile_links_between_composite onnx_graph gcm names = Ok gcm_w →
  _compile_links_between_composite_and_primitive onnx_graph gcm_w pm clm = Ok gcm_r →
  name ∈ names →
  name ≠ graph_name onnx_graph →
  2 <= depth name →
  ∃ sub_op parent,
    gcm_r !! name = Some sub_op
    ∧ gcm_r !! parent_name_of onnx_graph name = Some parent
    ∧ ChildComposite name ∈ Composite.operations parent
    ∧ (∀ v, v ∈ names_of (Composite.inputs sub_op) →
            v ∈ names_of (Composite.inputs parent) →
            input_boundary_link name v ∈ Composite.links parent
            ∧ has_link_from_this parent v)
    ∧ (∀ v, v ∈ names_of (Composite.outputs sub_op) →
            v ∈ names_of (Composite.outputs parent) →
            output_boundary_link name v ∈ Composite.links parent
            ∧ has_link_to_this parent v).
Proof.
  intros Hwire Hroute Hname Hroot Hdepth.
  apply router_extends in Hroute.
  unfold _compile_links_between_composite in Hwire.
  apply elem_of_set_iter, list_elem_of_split in Hname as (l1 & l2 & Hsplit).
  rewrite Hsplit, for_each_app in Hwire.
  apply bind_Ok_inv in Hwire as (gcm1 & _ & Hwire).
  rewrite for_each_cons in Hwire.
  apply bind_Ok_inv in Hwire as (gcm2 & Hstep & Hrest).
  apply wirer_extends in Hrest.
  pose proof (wire_step_extends _ _ _ _ Hstep) as Hext12.
  apply wire_step_links in Hstep
    as (sub1 & parent1 & parent2 & Hsub1 & Hparent1 & Hparent2 & Hchild & Hin & Hout);
    [|done..].
  assert (store_extends gcm2 gcm_r) as Hext2r by by eapply store_extends_trans.
  destruct (Hext12 _ _ Hsub1) as (sub2 & Hsub2 & Hi12 & Ho12 & _).
  destruct (Hext2r _ _ Hsub2) as (sub_r & Hsub_r & Hi2r & Ho2r & _).
  destruct (Hext12 _ _ Hparent1) as (parent2' & Hparent2' & Hpi & Hpo & _).
  rewrite Hparent2 in Hparent2'. injection Hparent2' as <-.
  destruct (Hext2r _ _ Hparent2) as (parent_r & Hparent_r & Hpi' & Hpo' & Hlinks & Hops).
  exists sub_r, parent_r. split_and!; [done|done|by apply Hops|..].
  - intros v Hv Hpv.
    assert (input_boundary_link name v ∈ Composite.links parent_r) as Hl.
    { apply Hlinks, Hin; congruence. }
    split; [done|]. by exists (input_boundary_link name v).
  - intros v Hv Hpv.
    assert (output_boundary_link name v ∈ Composite.links parent_r) as Hl.
    { apply Hlinks, Hout; congruence. }
    split; [done|]. by exists (output_boundary_link name v).
Qed.

End Completeness.

(** ** Worked examples *)

Example downstream_skip_example :
  let m' := _calculate_composite_input_outputs "v" "" "x/y/z" ∅ in
  m' !! "x" = None
  ∧ required INPUT "x/y" m' = ["v"]
  ∧ required INPUT "x/y/z" m' = ["v"].
Proof. by vm_compute. Qed.

Example cross_stream_example :
  let m' := _calculate_composite_input_outputs "v" "a/b" "a/c" ∅ in
  m' !! "a" = None
  ∧ required OUTPUT "a/b" m' = ["v"] ∧ field_of INPUT "a/b" m' = None
  ∧ required INPUT "a/c" m' = ["v"] ∧ field_of OUTPUT "a/c" m' = None.
Proof. by vm_compute. Qed.

Example first_seen_order_example :
  let m1 := _calculate_composite_input_outputs "u" "x/y" "" ∅ in
  let m2 := _calculate_composite_input_outputs "v" "x/y" "" m1 in
  let m3 := _calculate_composite_input_outputs "u" "x/y" "" m2 in
  required OUTPUT "x/y" m2 = ["u"; "v"] ∧ m3 = m2.
Proof. by vm_compute. Qed.

(** ** The theorems at concrete inputs *)

Lemma C1_witness :
  "v" ∈ required INPUT "x/y" (_calculate_composite_input_outputs "v" "" "x/y/z" ∅)
  ∧ "v" ∈ required INPUT "x/y/z" (_calculate_composite_input_outputs "v" "" "x/y/z" ∅)
  ∧ "v" ∉ required INPUT "x" (_calculate_composite_input_outputs "v" "" "x/y/z" ∅).
Proof.
  destruct (C1_downstream_from_boundary "v" "x/y/z" ∅) as (Hdeep & _ & Hfirst).
  split_and!.
  - apply (Hdeep 2). vm_compute. lia.
  - apply (Hdeep 3). vm_compute. lia.
  - apply Hfirst. vm_compute. apply not_elem_of_nil.
Defined.

Lemma C5_witness :
  "x/y" ≠ "" ∧ 1 <= 1 <= depth "x/y"
  ∧ "v" ∈ required OUTPUT "x" (_calculate_composite_input_outputs "v" "x/y" "" ∅).
Proof.
  assert ("x/y" ≠ "") as Hne by discriminate.
  assert (1 <= 1 <= depth "x/y") as Hd by (vm_compute; lia).
  split; [exact Hne|]. split; [exact Hd|].
  exact (C5_upstream_to_boundary "v" "x/y" ∅ 1 Hne Hd).
Defined.

Lemma C6_witness :
  let m' := _calculate_composite_input_outputs "v" "a/b" "a/c" ∅ in
  _calculate_composite_input_outputs "v" "a/b" "a/c" m' = m'
  ∧ NoDup (required OUTPUT "a/b" m').
Proof.
  destruct (C6_propagation_idempotent "v" "a/b" "a/c" ∅) as (Hidem & _ & Hnodup & _).
  split; [exact Hidem|]. apply Hnodup. vm_compute. apply NoDup_nil_2.
Defined.

Lemma C7_witness :
  ∃ gcm',
    route_link nested_producer_graph {[ "x/y/p" := nested_producer_primitive ]} "g"
      nested_producer_store nested_producer_link = Ok gcm'
    ∧ Composite.links <$> gcm' !! "x/y"
      = Some [ {| source := endpoint "x/y/p" "v"; sink := endpoint THIS "v";
                  link_var := None |} ]
    ∧ gcm' !! "g" = nested_producer_store !! "g".
Proof.
  assert (link_source nested_producer_link ≠ graph_name nested_producer_graph) as Hsrc
    by discriminate.
  assert (({[ "x/y/p" := nested_producer_primitive ]} : gmap string Primitive)
            !! link_source nested_producer_link = Some nested_producer_primitive) as Hprim
    by reflexivity.
  pose (root := {| Composite.name := "g"; Composite.primitive_name := "g";
                   Composite.type := COMPOSITE_OPERATION; Composite.operations := [];
                   Composite.inputs := []; Composite.outputs := [Variable_named "v"];
                   Composite.links := [] |}).
  assert (nested_producer_store !! graph_name nested_producer_graph = Some root) as Hroot
    by reflexivity.
  assert (ChildPrimitive nested_producer_primitive ∉ Composite.operations root) as Hchild
    by apply not_elem_of_nil.
  pose proof (C7_root_routes_into_enclosing_scope nested_producer_graph _ _ _ _ _
                Hsrc Hprim Hroot Hchild) as Hroute.
  vm_compute in Hroute. destruct Hroute as (gcm' & Hok & _ & _).
  injection Hok as <-. eexists. split_and!; vm_compute; reflexivity.
Defined.

Lemma C8_witness :
  ∃ e,
    onnx_graph_to_graphbook (iteration := elements_iteration) dangling_sink_graph = Raise e
    ∧ e = sink_not_recognized dangling_sink_link.
Proof.
  assert (dangling_sink_link ∈ onnx_links dangling_sink_graph) as Hin by (simpl; left).
  assert (link_sink dangling_sink_link ≠ graph_name dangling_sink_graph) as Hsink
    by discriminate.
  assert (name_to_op_of dangling_sink_graph !! link_sink dangling_sink_link = None) as Hnone
    by reflexivity.
  assert (¬ (is_Some (name_to_op_of dangling_sink_graph !! link_source dangling_sink_link)
             ∧ link_var_name dangling_sink_link ∈ graph_outputs dangling_sink_graph)) as Hskip.
  { intros [_ Hout]. simpl in Hout. by apply elem_of_nil in Hout. }
  destruct (C8_dangling_sink_fatal (iteration := elements_iteration)
              dangling_sink_graph dangling_sink_link Hin Hsink Hnone Hskip)
    as (e & _ & Hconv & _ & Hfirst).
  exists e. split; [exact Hconv|].
  apply (Hfirst [] [] ([], ∅)); reflexivity.
Defined.

Lemma C10_witness :
  onnx_graph_to_graphbook (iteration := elements_iteration) dangling_output_graph
  = onnx_graph_to_graphbook (iteration := elements_iteration) (with_links dangling_output_graph []).
Proof.
  pose (link := {| link_source := "A"; link_sink := "ghost"; link_var_name := "v" |}).
  assert (link_sink link ≠ graph_name dangling_output_graph) as Hsink by discriminate.
  assert (is_Some (name_to_op_of dangling_output_graph !! link_source link)) as Hsrc
    by (vm_compute; eauto).
  assert (link_var_name link ∈ graph_outputs dangling_output_graph) as Hout
    by (simpl; left).
  assert (onnx_links dangling_output_graph = [] ++ link :: []) as Hlinks by reflexivity.
  exact (proj2 (proj2 (C10_final_output_link_discarded (iteration := elements_iteration)
                         dangling_output_graph link [] [] Hsink Hsrc Hout Hlinks))).
Defined.

(** * Further properties *)

(** ** The propagator's remaining cases *)

Section PropagatorMore.

Import Py PyFacts.
Implicit Types (m : var_map) (var_name key : string).

Lemma startswith_refl (s : string) : startswith s s = true.
Proof.
  unfold startswith. induction s as [|c s IH]; [done|].
  simpl. by destruct (ascii_dec c c).
Qed.

Lemma startswith_length (s p : string) :
  startswith s p = true → String.length p <= String.length s.
Proof.
  unfold startswith. revert s. induction p as [|c p IH]; intros s; [simpl; lia|].
  destruct s as [|c' s]; [done|]. simpl.
  destruct (ascii_dec c c'); [|done]. intros Hp%IH. lia.
Qed.

Lemma targets_producer_ancestor (a b : string) :
  a ≠ "" →
  targets a (a +:+ String FORWARD_SLASH b) = partial_keys INPUT a (split b).
Proof.
  intros Ha. unfold targets.
  rewrite decide_False by done.
  rewrite decide_False by by apply append_ne_empty.
  destruct (startswith a (a +:+ String FORWARD_SLASH b)) eqn:Hs.
  { apply startswith_length in Hs. rewrite length_append in Hs. simpl in Hs. lia. }
  rewrite startswith_append, split_app_slash. by rewrite drop_app_length.
Qed.

(** Producer scope a strict prefix of the consumer scope: the scopes
    below the producer down to the consumer get the variable as a
    required input; no other entry and no output list changes. *)
Theorem producer_strict_prefix_of_consumer var_name (path1 path2 : string) B m :
  path1 ≠ "" → B ≠ [] → split path2 = split path1 ++ B →
  let m' := _calculate_composite_input_outputs var_name path1 path2 m in
  (∀ d, depth path1 < d <= depth path2 →
        var_name ∈ required INPUT (scope_prefix d path2) m')
  ∧ (∀ key, (∀ d, depth path1 < d <= depth path2 → key ≠ scope_prefix d path2) →
            m' !! key = m !! key)
  ∧ (∀ key, field_of OUTPUT key m' = field_of OUTPUT key m).
Proof.
  intros Hne HB Hsplit m'. subst m'.
  destruct (split_extension path2 path1 B HB Hsplit) as [Hp HsB].
  assert (depth path2 = depth path1 + length B) as Hdepth.
  { unfold depth. by rewrite Hsplit, length_app. }
  assert (targets path1 path2 = partial_keys INPUT path1 B) as Ht.
  { rewrite Hp, targets_producer_ancestor by done. by rewrite HsB. }
  rewrite calculate_targets, Ht.
  split_and!.
  - intros d Hd. apply apply_adds_elem_of, elem_of_partial_keys. split; [done|].
    exists (d - depth path1). split; [lia|].
    rewrite (partial_key_scope_prefix path2) by (done || lia).
    f_equal. lia.
  - intros key Hkey. apply lookup_apply_adds_ne.
    intros ([f k] & Hk & Hin)%list_elem_of_fmap.
    apply elem_of_partial_keys in Hin as (_ & j & Hj & ->). simpl in Hk.
    rewrite (partial_key_scope_prefix path2) in Hk by done.
    apply (Hkey (depth path1 + j)); [lia|done].
  - intros key. apply field_of_apply_adds_ne.
    intros (Hf & _)%elem_of_partial_keys. done.
Qed.

(** The docstring asks for [path2] not equal to [path1]; when they are
    equal the call changes nothing. *)
Theorem equal_paths_add_nothing var_name (path : string) m :
  _calculate_composite_input_outputs var_name path path m = m.
Proof.
  unfold _calculate_composite_input_outputs.
  destruct (decide (path = "")) as [->|Hne]; [done|].
  by rewrite startswith_refl, drop_all.
Qed.

End PropagatorMore.

(** ** Scope discovery *)

Section Discovery.

Import Py PyFacts.
Context {iteration : SetIteration}.
Implicit Types (onnx_graph : OnnxGraph) (op : OnnxOperation) (names : gset string)
  (cm : gmap string (list OnnxOperation)).

Lemma elem_of_add_prefixes names (path_split : list string) idx x :
  x ∈ foldl (fun names i => names ∪ {[join (take (i + 1) path_split)]}) names idx
  ↔ x ∈ names ∨ ∃ i, i ∈ idx ∧ x = join (take (i + 1) path_split).
Proof.
  revert names. induction idx as [|i idx IH]; intros names; simpl.
  - split; [by left|]. intros [?|(i & Hi & _)]; [done|]. by apply elem_of_nil in Hi.
  - rewrite IH, elem_of_union, elem_of_singleton. split.
    + intros [[Hx | Hx]|(j & Hj & Hx)].
      * by left.
      * right. exists i. split; [by left|done].
      * right. exists j. split; [by right|done].
    + intros [Hx|(j & Hj & Hx)]; [by left; left|].
      apply elem_of_cons in Hj as [Hj | Hj].
      * subst j. by left; right.
      * right. by exists j.
Qed.

Lemma foldl_ext_eq {A B} (f g : A → B → A) (a : A) (l : list B) :
  (∀ a b, f a b = g a b) → foldl f a l = foldl g a l.
Proof.
  intros Hfg. revert a. induction l as [|b l IH]; intros a; [done|].
  simpl. by rewrite Hfg, IH.
Qed.

Lemma compile_composite_map_fold onnx_graph names :
  _compile_onnx_composite_map onnx_graph names
  = foldl (discover_step onnx_graph) (∅, names) (onnx_ops onnx_graph).
Proof.
  unfold _compile_onnx_composite_map. apply foldl_ext_eq. intros [cm nm] op.
  unfold discover_step. simpl. by case_decide.
Qed.

Lemma discover_step_names onnx_graph cm names op x :
  x ∈ (discover_step onnx_graph (cm, names) op).2 ↔ x ∈ names ∨ implied_scope op x.
Proof.
  unfold discover_step, implied_scope. case_decide as Hp; simpl.
  - split; [by left|]. by intros [?|[? _]].
  - rewrite elem_of_add_prefixes. split.
    + intros [?|(i & Hi%elem_of_range & ->)]; [by left|]. right. split; [done|].
      exists (i + 1). unfold depth, scope_prefix. split; [lia|done].
    + intros [?|(_ & d & Hd & ->)]; [by left|]. right. exists (d - 1).
      unfold depth, scope_prefix in *. rewrite elem_of_range.
      split; [lia|]. by replace (d - 1 + 1) with d by lia.
Qed.

Lemma discover_step_map onnx_graph cm names op key :
  (discover_step onnx_graph (cm, names) op).1 !! key
  = if decide (home onnx_graph op = key)
    then Some (default [] (cm !! key) ++ [op]) else cm !! key.
Proof.
  unfold discover_step, home.
  destruct (decide (op_composite_path op = "")); simpl;
    (case_decide as Hk; [subst key; by rewrite lookup_insert_eq
                        |by rewrite lookup_insert_ne]).
Qed.

Lemma discover_fold onnx_graph ops cm names :
  let r := foldl (discover_step onnx_graph) (cm, names) ops in
  (∀ x, x ∈ r.2 ↔ x ∈ names ∨ ∃ op, op ∈ ops ∧ implied_scope op x)
  ∧ (∀ key, default [] (r.1 !! key)
            = default [] (cm !! key) ++ filter (fun op => home onnx_graph op = key) ops)
  ∧ (∀ key, is_Some (r.1 !! key)
            ↔ is_Some (cm !! key) ∨ ∃ op, op ∈ ops ∧ home onnx_graph op = key).
Proof.
  revert cm names. induction ops as [|op ops IH]; intros cm names; simpl.
  - split_and!.
    + intros x. split; [by left|]. intros [?|(op & Hop & _)]; [done|].
      by apply elem_of_nil in Hop.
    + intros key. by rewrite filter_nil, app_nil_r.
    + intros key. split; [by left|]. intros [?|(op & Hop & _)]; [done|].
      by apply elem_of_nil in Hop.
  - destruct (discover_step onnx_graph (cm, names) op) as [cm1 names1] eqn:Hstep.
    destruct (IH cm1 names1) as (Hnames & Hmap & Hkeys).
    pose proof (discover_step_names onnx_graph cm names op) as Hn1.
    pose proof (discover_step_map onnx_graph cm names op) as Hm1.
    rewrite Hstep in Hn1, Hm1. simpl in Hn1, Hm1. split_and!.
    + intros x. rewrite Hnames, Hn1. split.
      * intros [[?|?]|(op' & Hop' & ?)]; [by left|right..].
        -- exists op. split; [by left|done].
        -- exists op'. split; [by right|done].
      * intros [?|(op' & Hop' & ?)]; [by left; left|].
        apply elem_of_cons in Hop' as [Heq | Hop'].
        -- subst op'. by left; right.
        -- right. by exists op'.
    + intros key. rewrite Hmap, Hm1, filter_cons.
      case_decide; simpl; [|done]. by rewrite <- app_assoc.
    + intros key. rewrite Hkeys, Hm1. split.
      * intros [Hs|(op' & Hop' & ?)].
        -- case_decide; [|by left]. right. exists op. split; [by left|done].
        -- right. exists op'. split; [by right|done].
      * intros [Hs|(op' & Hop' & Hh)].
        -- left. case_decide; [eauto|done].
        -- apply elem_of_cons in Hop' as [Heq | Hop'].
           ++ subst op'. left. rewrite decide_True by done. eauto.
           ++ right. by exists op'.
Qed.

(** What scope discovery returns, for any starting set of names. *)
Lemma compile_composite_map_result onnx_graph names :
  let r := _compile_onnx_composite_map onnx_graph names in
  (∀ x, x ∈ r.2 ↔ x ∈ names ∨ ∃ op, op ∈ onnx_ops onnx_graph ∧ implied_scope op x)
  ∧ (∀ key, default [] (r.1 !! key)
            = filter (fun op => home onnx_graph op = key) (onnx_ops onnx_graph))
  ∧ (∀ key, is_Some (r.1 !! key)
            ↔ ∃ op, op ∈ onnx_ops onnx_graph ∧ home onnx_graph op = key).
Proof.
  intros r. subst r. rewrite compile_composite_map_fold.
  destruct (discover_fold onnx_graph (onnx_ops onnx_graph) ∅ names)
    as (Hnames & Hmap & Hkeys).
  split_and!; [done| |].
  - intros key. by rewrite Hmap, lookup_empty.
  - intros key. rewrite Hkeys, lookup_empty. split; [|by right].
    intros [[? ?]|?]; done.
Qed.

(** Scope discovery: the names are the given ones and every prefix of
    every non-empty composite path; an operation is filed, in the order
    of the operation list, under its own path (the graph's name when it
    has none), and under no other key. *)
Theorem scope_discovery onnx_graph names :
  let r := _compile_onnx_composite_map onnx_graph names in
  (∀ x, x ∈ r.2 ↔ x ∈ names ∨ ∃ op, op ∈ onnx_ops onnx_graph ∧ implied_scope op x)
  ∧ (∀ key, default [] (r.1 !! key)
            = filter (fun op => home onnx_graph op = key) (onnx_ops onnx_graph))
  ∧ (∀ key, is_Some (r.1 !! key)
            ↔ ∃ op, op ∈ onnx_ops onnx_graph ∧ home onnx_graph op = key).
Proof. apply compile_composite_map_result. Qed.

End Discovery.

(** ** Paths and their segments *)

Section Segments.

Import Py PyFacts.

Lemma split_segments (s : string) : Forall is_segment (split s).
Proof.
  induction s as [|c s IH]; [by repeat constructor|]. simpl.
  destruct (Ascii.eqb c FORWARD_SLASH) eqn:Hc; [by constructor|].
  pose proof (split_ne_nil s) as Hne.
  destruct (split s) as [|seg segs]; [done|].
  apply Forall_cons in IH as [Hseg Hsegs]. constructor; [|done].
  unfold is_segment in *. simpl. by rewrite Hc, Hseg.
Qed.

(** [split] undoes [join] on a non-empty list of segments, and [join]
    undoes [split] on every string. *)
Lemma split_join (l : list string) :
  l ≠ [] → Forall is_segment l → split (join l) = l.
Proof.
  induction l as [|x l IH]; [done|]. intros _ [Hx Hl]%Forall_cons.
  destruct l as [|y l]; [done|].
  rewrite join_cons by done. rewrite split_app_slash, IH by done. by rewrite Hx.
Qed.

Lemma split_scope_prefix d (path : string) :
  1 <= d → split (scope_prefix d path) = take d (split path).
Proof.
  intros Hd. unfold scope_prefix. apply split_join.
  - pose proof (split_ne_nil path). destruct (split path), d; simpl; done || lia.
  - apply Forall_take, split_segments.
Qed.

Lemma depth_scope_prefix d (path : string) :
  1 <= d <= depth path → depth (scope_prefix d path) = d.
Proof.
  intros Hd. unfold depth in *. rewrite split_scope_prefix by lia.
  rewrite length_take. lia.
Qed.

Lemma scope_prefix_full (path : string) : scope_prefix (depth path) path = path.
Proof. unfold scope_prefix, depth. by rewrite firstn_all, join_split. Qed.

Lemma but_last_scope_prefix d (path : string) :
  1 <= d <= depth path →
  join (but_last (split (scope_prefix d path))) = join (take (d - 1) (split path)).
Proof.
  intros Hd. unfold but_last. rewrite split_scope_prefix by lia.
  unfold depth in Hd. rewrite length_take, take_take. f_equal. f_equal. lia.
Qed.

End Segments.

(** ** Composite assembly *)

Section Assembly.

Import Py PyFacts.
Context {iteration : SetIteration}.
Implicit Types (onnx_graph : OnnxGraph) (op : OnnxOperation) (names : gset string)
  (cm : gmap string (list OnnxOperation)) (cvm : var_map) (gcm : composite_store)
  (st : AssemblerState) (pm : gmap string Primitive).

Lemma assemble_composite_store key input_names output_names cm pm gcm :
  (assemble_composite_ok key input_names output_names cm pm gcm).2
  = <[key := assembled key input_names output_names (cm !! key)]> gcm.
Proof. unfold assemble_composite_ok, assembled. by destruct (cm !! key). Qed.

Lemma required_default cvm field key :
  default [] (default ∅ (cvm !! key) !! field) = required field key cvm.
Proof. unfold required, field_of. by destruct (cvm !! key). Qed.

(** One step of the assembler loop on the store: either nothing (the
    root seen again), or one composite stored under the key of the
    name. *)
Lemma assemble_step_store onnx_graph cvm st name :
  as_graphbook_composite_map (assemble_step_ok onnx_graph cvm st name)
  = as_graphbook_composite_map st
    ∧ name = "" ∧ as_already_visited_root st = true
  ∨ ∃ ops,
      as_graphbook_composite_map (assemble_step_ok onnx_graph cvm st name)
      = <[store_key onnx_graph name :=
            if decide (name = "")
            then assembled (graph_name onnx_graph) (graph_inputs onnx_graph)
                   (graph_outputs onnx_graph) ops
            else assembled name (required INPUT name cvm) (required OUTPUT name cvm) ops]>
          (as_graphbook_composite_map st)
      ∧ (name = "" → as_already_visited_root st = false).
Proof.
  unfold assemble_step_ok, store_key. case_decide as Hname.
  - destruct (as_already_visited_root st) eqn:Hvisited; [by left|]. right.
    match goal with
    | |- context [assemble_composite_ok ?k ?i ?o ?cm ?pm ?gcm] =>
        pose proof (assemble_composite_store k i o cm pm gcm) as Hstore;
        destruct (assemble_composite_ok k i o cm pm gcm) as [pm' gcm'] eqn:Hac
    end.
    simpl in *. eexists. split; [exact Hstore|done].
  - right.
    match goal with
    | |- context [assemble_composite_ok ?k ?i ?o ?cm ?pm ?gcm] =>
        pose proof (assemble_composite_store k i o cm pm gcm) as Hstore;
        destruct (assemble_composite_ok k i o cm pm gcm) as [pm' gcm'] eqn:Hac
    end.
    simpl in *. rewrite !required_default in Hstore. eexists. split; [exact Hstore|done].
Qed.

Lemma assemble_step_visited onnx_graph cvm st name :
  as_already_visited_root (assemble_step_ok onnx_graph cvm st name)
  = if decide (name = "") then true else as_already_visited_root st.
Proof.
  unfold assemble_step_ok. case_decide.
  - destruct (as_already_visited_root st) eqn:Hv; [done|].
    by destruct (assemble_composite_ok _ _ _ _ _ _).
  - by destruct (assemble_composite_ok _ _ _ _ _ _).
Qed.

Lemma assemble_step_invariant onnx_graph cvm st name :
  assembler_invariant onnx_graph cvm st →
  assembler_invariant onnx_graph cvm (assemble_step_ok onnx_graph cvm st name)
  ∧ ∀ key,
      is_Some (as_graphbook_composite_map (assemble_step_ok onnx_graph cvm st name) !! key)
      ↔ is_Some (as_graphbook_composite_map st !! key) ∨ store_key onnx_graph name = key.
Proof.
  intros [Hroot Hshape]. unfold assembler_invariant.
  rewrite assemble_step_visited.
  destruct (assemble_step_store onnx_graph cvm st name)
    as [(-> & -> & Hvisited)|(ops & -> & Hfresh)].
  - split_and!; [by intros _; apply Hroot|done|]. intros key. split; [by left|].
    intros [?|<-]; [done|]. by apply Hroot.
  - split_and!.
    + intros Hflag.
      destruct (decide (store_key onnx_graph name = graph_name onnx_graph)) as [->|Hne].
      * rewrite lookup_insert_eq. eauto.
      * rewrite lookup_insert_ne by done. apply Hroot.
        unfold store_key in Hne. case_decide; done.
    + intros key c. destruct (decide (store_key onnx_graph name = key)) as [<-|Hne].
      * rewrite lookup_insert_eq. intros [= <-]. unfold store_key.
        case_decide; eexists _, _, _; (split; [done|]); done.
      * rewrite lookup_insert_ne by done. apply Hshape.
    + intros key. destruct (decide (store_key onnx_graph name = key)) as [<-|Hne].
      * rewrite lookup_insert_eq. split; [by right|eauto].
      * rewrite lookup_insert_ne by done. split; [by left|]. by intros [?|?].
Qed.

Lemma assembler_fold_invariant onnx_graph cvm st l :
  assembler_invariant onnx_graph cvm st →
  assembler_invariant onnx_graph cvm (foldl (assemble_step_ok onnx_graph cvm) st l)
  ∧ ∀ key,
      is_Some (as_graphbook_composite_map (foldl (assemble_step_ok onnx_graph cvm) st l) !! key)
      ↔ is_Some (as_graphbook_composite_map st !! key)
        ∨ ∃ name, name ∈ l ∧ store_key onnx_graph name = key.
Proof.
  revert st. induction l as [|name l IH]; intros st Hinv; simpl.
  - split; [done|]. intros key. split; [by left|].
    intros [?|(name & Hname & _)]; [done|]. by apply elem_of_nil in Hname.
  - destruct (assemble_step_invariant onnx_graph cvm st name Hinv) as [Hinv1 Hdom1].
    destruct (IH _ Hinv1) as [Hinv2 Hdom2]. split; [done|].
    intros key. rewrite Hdom2, Hdom1. split.
    + intros [[?|?]|(name' & Hname' & ?)]; [by left|right..].
      * exists name. split; [by left|done].
      * exists name'. split; [by right|done].
    + intros [?|(name' & Hname' & Hkey)]; [by left; left|].
      apply elem_of_cons in Hname' as [Heq | Hname'].
      * subst name'. by left; right.
      * right. by exists name'.
Qed.

(** What the assembler leaves in the store. *)
Lemma assembler_result onnx_graph cm names pm cvm :
  let gcm :=
    as_graphbook_composite_map
      (assembler_ok onnx_graph cm names pm cvm) in
  (∀ key, is_Some (gcm !! key) ↔ ∃ name, name ∈ names ∧ store_key onnx_graph name = key)
  ∧ (∀ key c, gcm !! key = Some c →
       Composite.name c = key
       ∧ Composite.primitive_name c = key
       ∧ Composite.type c = COMPOSITE_OPERATION
       ∧ Composite.links c = []
       ∧ (∀ child, child ∈ Composite.operations c → ∃ p, child = ChildPrimitive p)
       ∧ (key ≠ graph_name onnx_graph →
          Composite.inputs c = Variable_named <$> required INPUT key cvm
          ∧ Composite.outputs c = Variable_named <$> required OUTPUT key cvm)).
Proof.
  intros gcm. subst gcm. unfold assembler_ok.
  match goal with
  | |- context [foldl _ ?st0 _] =>
      destruct (assembler_fold_invariant onnx_graph cvm st0 (set_iter names))
        as [[_ Hshape] Hdom]
  end.
  { split; [done|]. intros key c. simpl. by rewrite lookup_empty. }
  split.
  - intros key. rewrite Hdom. simpl. rewrite lookup_empty. split.
    + intros [[? ?]|(name & Hname%elem_of_set_iter & ?)]; [done|]. by exists name.
    + intros (name & Hname%elem_of_set_iter & ?). right. by exists name.
  - intros key c Hc. destruct (Hshape key c Hc) as (i & o & ops & -> & Hio).
    split_and!; try done.
    + simpl. intros child (p & -> & _)%list_elem_of_fmap. by exists p.
    + intros Hkey. destruct (Hio Hkey) as [-> ->]. done.
Qed.

End Assembly.

(** ** The assembler and the conversions it makes *)

Section AssemblerReturns.

Context {iteration : SetIteration}.
Implicit Types (onnx_graph : OnnxGraph) (op : OnnxOperation) (gcm : composite_store)
  (c : Composite) (st : AssemblerState) (pm : gmap string Primitive)
  (cm : gmap string (list OnnxOperation)) (ops : list OnnxOperation).

(** A conversion that does not raise returns [converted]. *)
Lemma onnx_op_to_graphbook_Ok op p : onnx_op_to_graphbook op = Ok p → p = converted op.
Proof.
  unfold onnx_op_to_graphbook, converted.
  intros (ins & Hins & (outs & Houts & [= <-])%bind_Ok_inv)%bind_Ok_inv.
  by rewrite Hins, Houts.
Qed.

Lemma onnx_op_to_graphbook_is_ok op :
  is_ok (onnx_op_to_graphbook op) = true ↔ onnx_op_to_graphbook op = Ok (converted op).
Proof.
  split; [|by intros ->].
  destruct (onnx_op_to_graphbook op) as [p|e] eqn:Hp; [|done].
  intros _. by apply onnx_op_to_graphbook_Ok in Hp as ->.
Qed.

Lemma this_primitive_fold_Ok ops (d d' : list (string * Primitive)) :
  for_each (fun acc onnx_op =>
              p ← onnx_op_to_graphbook onnx_op;
              Ok (Dict.set (op_name onnx_op) p acc)) d ops = Ok d' ↔
  d' = foldl (fun acc onnx_op => Dict.set (op_name onnx_op) (converted onnx_op) acc) d ops
  ∧ Forall (fun op => is_ok (onnx_op_to_graphbook op) = true) ops.
Proof.
  revert d. induction ops as [|op ops IH]; intros d.
  - simpl. split; [by intros [= <-]|by intros [-> _]].
  - rewrite for_each_cons. cbn [foldl]. rewrite Forall_cons. split.
    + intros (d1 & (p & Hp & [= <-])%bind_Ok_inv & Hrest)%bind_Ok_inv.
      pose proof (onnx_op_to_graphbook_Ok _ _ Hp) as ->.
      apply IH in Hrest as [-> Hall]. by rewrite Hp.
    + intros (-> & Hop%onnx_op_to_graphbook_is_ok & Hall).
      rewrite Hop, !bind_Ok. apply IH. done.
Qed.

Lemma this_primitive_of_Ok ops d :
  this_primitive_of ops = Ok d ↔
  d = this_primitive_ok ops
  ∧ Forall (fun op => is_ok (onnx_op_to_graphbook op) = true) ops.
Proof. apply this_primitive_fold_Ok. Qed.

(** The tail of the loop body returns what [assemble_composite_ok]
    gives, exactly when every operation filed under the name converts. *)
Lemma assemble_composite_Ok name input_names output_names cm pm gcm r :
  assemble_composite name input_names output_names cm pm gcm = Ok r ↔
  r = assemble_composite_ok name input_names output_names cm pm gcm
  ∧ Forall (fun op => is_ok (onnx_op_to_graphbook op) = true) (default [] (cm !! name)).
Proof.
  unfold assemble_composite, assemble_composite_ok.
  destruct (cm !! name) as [ops|]; simpl.
  - split.
    + intros (d & [-> Hall]%this_primitive_of_Ok & [= <-])%bind_Ok_inv. done.
    + intros [-> Hall].
      by rewrite (proj2 (this_primitive_of_Ok ops _) (conj eq_refl Hall)), bind_Ok.
  - split; [by intros [= <-]|by intros [-> _]].
Qed.

(** The operations one step of the assembler converts. *)
Lemma assemble_step_Ok onnx_graph cvm st name st' :
  assemble_step onnx_graph cvm st name = Ok st' ↔
  st' = assemble_step_ok onnx_graph cvm st name
  ∧ (name = "" ∧ as_already_visited_root st = true
     ∨ Forall (fun op => is_ok (onnx_op_to_graphbook op) = true)
              (default [] (as_composite_map st' !! store_key onnx_graph name))).
Proof.
  unfold assemble_step, assemble_step_ok, store_key.
  destruct (decide (name = "")) as [Hname|Hname].
  - destruct (as_already_visited_root st) eqn:Hvisited.
    { split; [intros [= <-]; split; [done|by left]|by intros [-> _]]. }
    match goal with
    | |- context [assemble_composite ?k ?i ?o ?cm2 ?pm ?gcm] =>
        pose proof (assemble_composite_Ok k i o cm2 pm gcm) as Hbody;
        destruct (assemble_composite k i o cm2 pm gcm) as [[pm' gcm']|e] eqn:Hasm;
        destruct (assemble_composite_ok k i o cm2 pm gcm) as [pm_ok gcm_ok] eqn:Hok
    end.
    + destruct (proj1 (Hbody _) eq_refl) as [[= -> ->] Hall]. rewrite bind_Ok. split.
      * intros [= <-]. split; [done|]. by right.
      * by intros [-> _].
    + rewrite bind_Raise. split; [done|]. intros [-> [[_ ?]|Hall]]; [done|].
      simpl in Hall. by pose proof (proj2 (Hbody (pm_ok, gcm_ok)) (conj eq_refl Hall)).
  - match goal with
    | |- context [assemble_composite ?k ?i ?o ?cm2 ?pm ?gcm] =>
        pose proof (assemble_composite_Ok k i o cm2 pm gcm) as Hbody;
        destruct (assemble_composite k i o cm2 pm gcm) as [[pm' gcm']|e] eqn:Hasm;
        destruct (assemble_composite_ok k i o cm2 pm gcm) as [pm_ok gcm_ok] eqn:Hok
    end.
    + destruct (proj1 (Hbody _) eq_refl) as [[= -> ->] Hall]. rewrite bind_Ok. split.
      * intros [= <-]. split; [done|]. by right.
      * by intros [-> _].
    + rewrite bind_Raise. split; [done|]. intros [-> [[? _]|Hall]]; [done|].
      simpl in Hall. by pose proof (proj2 (Hbody (pm_ok, gcm_ok)) (conj eq_refl Hall)).
Qed.

Lemma assembler_fold_returns onnx_graph cvm st names_list st' :
  for_each (assemble_step onnx_graph cvm) st names_list = Ok st' →
  st' = foldl (assemble_step_ok onnx_graph cvm) st names_list.
Proof.
  revert st. induction names_list as [|name rest IH]; intros st; [by intros [= <-]|].
  rewrite for_each_cons. intros (st1 & [-> _]%assemble_step_Ok & Hrest)%bind_Ok_inv.
  by apply IH.
Qed.

(** The state the assembler returns, when it returns one, is the state
    of the loop in which every conversion has its value. *)
Lemma assembler_returns onnx_graph cm names pm cvm st :
  _compile_graphbook_operations_from_composite_map onnx_graph cm names pm cvm = Ok st →
  st = assembler_ok onnx_graph cm names pm cvm.
Proof. apply assembler_fold_returns. Qed.

Lemma assemble_step_ok_keeps onnx_graph cvm st name key op :
  op ∈ default [] (as_composite_map st !! key) →
  op ∈ default [] (as_composite_map (assemble_step_ok onnx_graph cvm st name) !! key).
Proof.
  intros Hop. unfold assemble_step_ok.
  destruct (decide (name = "")) as [Hname|Hname].
  - destruct (as_already_visited_root st); [done|].
    match goal with
    | |- context [assemble_composite_ok ?k ?i ?o ?cm2 ?pm ?gcm] =>
        destruct (assemble_composite_ok k i o cm2 pm gcm) as [pm_ok gcm_ok]
    end.
    simpl.
    assert (op ∈ default [] ((if decide (is_Some (as_composite_map st !! graph_name onnx_graph))
                              then as_composite_map st
                              else <[graph_name onnx_graph := []]> (as_composite_map st)) !! key))
      as Hop1.
    { case_decide as Hroot; [done|].
      destruct (decide (key = graph_name onnx_graph)) as [->|Hkey].
      - exfalso. destruct (as_composite_map st !! graph_name onnx_graph) eqn:Hl.
        + apply Hroot. eauto.
        + simpl in Hop. by apply elem_of_nil in Hop.
      - by rewrite lookup_insert_ne. }
    destruct (_ !! name) as [ops|]; [|done].
    destruct (decide (key = graph_name onnx_graph)) as [->|Hkey].
    + rewrite lookup_insert_eq. simpl. apply elem_of_app. by left.
    + by rewrite lookup_insert_ne.
  - match goal with
    | |- context [assemble_composite_ok ?k ?i ?o ?cm2 ?pm ?gcm] =>
        destruct (assemble_composite_ok k i o cm2 pm gcm) as [pm_ok gcm_ok]
    end.
    done.
Qed.

Lemma assemble_step_ok_from onnx_graph cvm st name key op :
  op ∈ default [] (as_composite_map (assemble_step_ok onnx_graph cvm st name) !! key) →
  ∃ key', op ∈ default [] (as_composite_map st !! key').
Proof.
  unfold assemble_step_ok.
  destruct (decide (name = "")) as [Hname|Hname].
  - destruct (as_already_visited_root st); [eauto|].
    match goal with
    | |- context [assemble_composite_ok ?k ?i ?o ?cm2 ?pm ?gcm] =>
        destruct (assemble_composite_ok k i o cm2 pm gcm) as [pm_ok gcm_ok]
    end.
    simpl.
    assert (∀ key, op ∈ default [] ((if decide (is_Some (as_composite_map st !! graph_name onnx_graph))
                              then as_composite_map st
                              else <[graph_name onnx_graph := []]> (as_composite_map st)) !! key) →
            ∃ key', op ∈ default [] (as_composite_map st !! key')) as Hfrom.
    { intros k. case_decide as Hroot; [eauto|].
      destruct (decide (k = graph_name onnx_graph)) as [->|Hkey].
      - rewrite lookup_insert_eq. simpl. by intros ?%elem_of_nil.
      - rewrite lookup_insert_ne by done. eauto. }
    destruct (_ !! name) as [ops|] eqn:Hops; [|by apply Hfrom].
    destruct (decide (key = graph_name onnx_graph)) as [->|Hkey].
    + rewrite lookup_insert_eq. simpl. intros [Hop|Hop]%elem_of_app.
      * by apply (Hfrom (graph_name onnx_graph)).
      * apply (Hfrom name). by rewrite Hops.
    + rewrite lookup_insert_ne by done. apply Hfrom.
  - match goal with
    | |- context [assemble_composite_ok ?k ?i ?o ?cm2 ?pm ?gcm] =>
        destruct (assemble_composite_ok k i o cm2 pm gcm) as [pm_ok gcm_ok]
    end.
    simpl. eauto.
Qed.

Lemma assemble_step_ok_visited onnx_graph cvm st name :
  name ≠ "" →
  as_already_visited_root (assemble_step_ok onnx_graph cvm st name)
  = as_already_visited_root st.
Proof.
  intros Hname. unfold assemble_step_ok. rewrite decide_False by done.
  match goal with
  | |- context [assemble_composite_ok ?k ?i ?o ?cm2 ?pm ?gcm] =>
      destruct (assemble_composite_ok k i o cm2 pm gcm) as [pm_ok gcm_ok]
  end.
  done.
Qed.

(** The loop returns when every operation filed converts. *)
Lemma assembler_fold_converts onnx_graph cvm st names_list :
  (∀ key op, op ∈ default [] (as_composite_map st !! key) →
             is_ok (onnx_op_to_graphbook op) = true) →
  for_each (assemble_step onnx_graph cvm) st names_list
  = Ok (foldl (assemble_step_ok onnx_graph cvm) st names_list).
Proof.
  revert st. induction names_list as [|name rest IH]; intros st Hall; [done|].
  rewrite for_each_cons. cbn [foldl].
  assert (∀ key op,
            op ∈ default [] (as_composite_map (assemble_step_ok onnx_graph cvm st name) !! key) →
            is_ok (onnx_op_to_graphbook op) = true) as Hall'.
  { intros key op [key' Hop]%assemble_step_ok_from. by apply (Hall key'). }
  rewrite (proj2 (assemble_step_Ok onnx_graph cvm st name
                    (assemble_step_ok onnx_graph cvm st name))), bind_Ok; [by apply IH|].
  split; [done|]. right. apply Forall_forall. intros op Hop. by apply (Hall' _ _ Hop).
Qed.

(** What the loop converted when it returns: every operation filed
    under a name it has yet to visit. *)
Lemma assembler_fold_converted onnx_graph cvm names_list st st' name op :
  for_each (assemble_step onnx_graph cvm) st names_list = Ok st' →
  name ∈ names_list →
  (name = "" → as_already_visited_root st = false) →
  op ∈ default [] (as_composite_map st !! store_key onnx_graph name) →
  is_ok (onnx_op_to_graphbook op) = true.
Proof.
  revert st. induction names_list as [|n rest IH]; intros st Hfold Hin Hroot Hop.
  { by apply elem_of_nil in Hin. }
  rewrite for_each_cons in Hfold.
  apply bind_Ok_inv in Hfold as (st1 & [-> Hconv]%assemble_step_Ok & Hrest).
  pose proof (assemble_step_ok_keeps onnx_graph cvm st n _ _ Hop) as Hop1.
  destruct (decide (name = n)) as [->|Hne].
  - destruct Hconv as [[Hn Hvisited]|Hall].
    + rewrite (Hroot Hn) in Hvisited. done.
    + rewrite Forall_forall in Hall. by apply Hall.
  - apply elem_of_cons in Hin as [Heq | Hin]; [done|].
    apply (IH _ Hrest Hin); [|done].
    intros Hname. rewrite assemble_step_ok_visited; [by apply Hroot|]. by subst name.
Qed.

(** The assembler returns exactly when every operation of the graph
    converts. *)
Lemma assembler_returns_iff onnx_graph pm cvm :
  let r := _compile_onnx_composite_map onnx_graph {[""]} in
  (∃ st, _compile_graphbook_operations_from_composite_map onnx_graph r.1 r.2 pm cvm = Ok st)
  ↔ ∀ op, op ∈ onnx_ops onnx_graph → is_ok (onnx_op_to_graphbook op) = true.
Proof.
  intros r. destruct (compile_composite_map_result onnx_graph {[""]}) as (Hnames & Hmap & _).
  fold r in Hnames, Hmap. split.
  - intros [st Hasm] op Hop.
    eapply (assembler_fold_converted _ _ _ _ _ (op_composite_path op) op Hasm).
    + apply elem_of_set_iter, Hnames.
      destruct (decide (op_composite_path op = "")) as [->|Hpath]; [left; set_solver|].
      right. exists op. split; [done|]. split; [done|].
      exists (depth (op_composite_path op)). split; [|by rewrite scope_prefix_full].
      pose proof (PyFacts.split_ne_nil (op_composite_path op)) as Hne. unfold depth.
      destruct (Py.split (op_composite_path op)); [done|simpl; lia].
    + done.
    + simpl. replace (store_key onnx_graph (op_composite_path op)) with (home onnx_graph op)
        by done.
      rewrite Hmap. apply list_elem_of_filter. done.
  - intros Hall. eexists. apply assembler_fold_converts. simpl.
    intros key op Hop. rewrite Hmap in Hop. apply list_elem_of_filter in Hop as [_ Hop].
    by apply Hall.
Qed.

(** The assembler, run on the discovered scopes, returns exactly when
    the conversion of no operation of the graph raises. *)
Theorem assembler_returns_when_operations_convert onnx_graph pm cvm :
  let r := _compile_onnx_composite_map onnx_graph {[""]} in
  (∃ st, _compile_graphbook_operations_from_composite_map onnx_graph r.1 r.2 pm cvm = Ok st)
  ↔ ∀ op, op ∈ onnx_ops onnx_graph → is_ok (onnx_op_to_graphbook op) = true.
Proof. apply assembler_returns_iff. Qed.

(** When the assembler returns, every operation of the graph has its
    conversion. *)
Lemma assembler_converted onnx_graph pm cvm st op :
  _compile_graphbook_operations_from_composite_map onnx_graph
    (_compile_onnx_composite_map onnx_graph {[""]}).1
    (_compile_onnx_composite_map onnx_graph {[""]}).2 pm cvm = Ok st →
  op ∈ onnx_ops onnx_graph →
  onnx_op_to_graphbook op = Ok (converted op).
Proof.
  intros Hasm Hop. apply onnx_op_to_graphbook_is_ok.
  apply (proj1 (assembler_returns_iff onnx_graph pm cvm)); eauto.
Qed.

(** Assembly: when the assembler returns, the store holds exactly one
    composite per discovered name (the empty name under the graph's
    name); each has its key as name, the composite type, only primitives
    as children, no link yet, and, except possibly under the graph's
    name, the interface the propagator computed for its key. *)
Theorem assembly_store onnx_graph cm names pm cvm st :
  _compile_graphbook_operations_from_composite_map onnx_graph cm names pm cvm = Ok st →
  let gcm := as_graphbook_composite_map st in
  (∀ key, is_Some (gcm !! key) ↔ ∃ name, name ∈ names ∧ store_key onnx_graph name = key)
  ∧ (∀ key c, gcm !! key = Some c →
       Composite.name c = key
       ∧ Composite.primitive_name c = key
       ∧ Composite.type c = COMPOSITE_OPERATION
       ∧ Composite.links c = []
       ∧ (∀ child, child ∈ Composite.operations c → ∃ p, child = ChildPrimitive p)
       ∧ (key ≠ graph_name onnx_graph →
          Composite.inputs c = Variable_named <$> required INPUT key cvm
          ∧ Composite.outputs c = Variable_named <$> required OUTPUT key cvm)).
Proof. intros ->%assembler_returns. apply assembler_result. Qed.

(** The stages a conversion has gone through when it built its
    composite map. *)
Lemma composite_map_stages onnx_graph gcm_r :
  graphbook_composite_map_of onnx_graph = Ok gcm_r →
  ∃ clm cvm gcm_w,
    _compile_onnx_composite_link_map onnx_graph (name_to_op_of onnx_graph) ∅
    = Ok (clm, cvm)
    ∧ _compile_graphbook_operations_from_composite_map onnx_graph
        (_compile_onnx_composite_map onnx_graph {[""]}).1
        (_compile_onnx_composite_map onnx_graph {[""]}).2 ∅ cvm
      = Ok (assembler_ok onnx_graph
              (_compile_onnx_composite_map onnx_graph {[""]}).1
              (_compile_onnx_composite_map onnx_graph {[""]}).2 ∅ cvm)
    ∧ _compile_links_between_composite onnx_graph
        (as_graphbook_composite_map
           (assembler_ok onnx_graph
              (_compile_onnx_composite_map onnx_graph {[""]}).1
              (_compile_onnx_composite_map onnx_graph {[""]}).2 ∅ cvm))
        (_compile_onnx_composite_map onnx_graph {[""]}).2
      = Ok gcm_w
    ∧ _compile_links_between_composite_and_primitive onnx_graph gcm_w
        (as_primitive_map
           (assembler_ok onnx_graph
              (_compile_onnx_composite_map onnx_graph {[""]}).1
              (_compile_onnx_composite_map onnx_graph {[""]}).2 ∅ cvm))
        clm
      = Ok gcm_r.
Proof.
  unfold graphbook_composite_map_of.
  destruct (_compile_onnx_composite_map onnx_graph {[""]}) as [cm names]. simpl.
  intros ([clm cvm] & Hmap & Hconv)%bind_Ok_inv.
  apply bind_Ok_inv in Hconv as (st & Hasm & Hconv).
  apply bind_Ok_inv in Hconv as (gcm_w & Hwire & Hroute).
  pose proof (assembler_returns _ _ _ _ _ _ Hasm) as ->.
  by exists clm, cvm, gcm_w.
Qed.

(** The value returned: the composite map cut down to what the root
    reaches. *)
Lemma conversion_Ok_inv onnx_graph t :
  onnx_graph_to_graphbook onnx_graph = Ok t →
  ∃ gcm root,
    graphbook_composite_map_of onnx_graph = Ok gcm
    ∧ gcm !! graph_name onnx_graph = Some root
    ∧ t = returned_tree (graph_name onnx_graph) gcm.
Proof.
  unfold onnx_graph_to_graphbook, getitem.
  intros (gcm & Hmap & Hroot)%bind_Ok_inv.
  destruct (gcm !! graph_name onnx_graph) as [root|] eqn:Hr; [|done].
  rewrite bind_Ok in Hroot. injection Hroot as <-. by exists gcm, root.
Qed.

Lemma returned_tree_lookup root gcm key c :
  tree_store (returned_tree root gcm) !! key = Some c → gcm !! key = Some c.
Proof. unfold returned_tree. simpl. by intros [? _]%map_lookup_filter_Some. Qed.

Lemma returned_tree_root root gcm c :
  gcm !! root = Some c → tree_store (returned_tree root gcm) !! root = Some c.
Proof.
  intros Hc. unfold returned_tree. simpl. apply map_lookup_filter_Some. split; [done|].
  simpl. destruct (store_depth gcm); simpl; by left.
Qed.

(** What is in the returned tree is in the composite map. *)
Lemma conversion_lookup onnx_graph t key c :
  onnx_graph_to_graphbook onnx_graph = Ok t → tree_store t !! key = Some c →
  ∃ gcm, graphbook_composite_map_of onnx_graph = Ok gcm ∧ gcm !! key = Some c.
Proof.
  intros (gcm & root & Hmap & _ & ->)%conversion_Ok_inv Hc%returned_tree_lookup.
  by exists gcm.
Qed.

End AssemblerReturns.

(** ** Converting one operation *)

Section OperationConversion.

Lemma names_of_imap (f : nat → string → GVariable) (l : list string) :
  (∀ i n, var_name (f i n) = n) → names_of (imap f l) = l.
Proof.
  revert f. induction l as [|n l IH]; intros f Hf; [done|].
  unfold names_of in *. simpl. rewrite Hf. f_equal. apply IH. intros i n'. apply Hf.
Qed.

Lemma names_of_role_variables roles (l : list string) :
  names_of (imap (role_variable roles) l) = l.
Proof. by apply names_of_imap. Qed.

Lemma role_variable_lookup roles (l : list string) i v :
  imap (role_variable roles) l !! i = Some v → var_primitive_name v = roles !! i.
Proof.
  rewrite list_lookup_imap. destruct (l !! i) as [n|]; [|done]. by intros [= <-].
Qed.

(** Without operator metadata the conversion of an operation never
    raises: the primitive has the operation's name, its operator type as
    primitive name, the primitive type for the two file operators and
    the composite type otherwise, and one variable per input and output
    name, in order; the first three inputs of [read_from_file] and the
    first four outputs of [write_to_file] have their role as primitive
    name, every other variable has none. *)
Theorem conversion_without_metadata onnx_op :
  op_type_meta_data onnx_op = None →
  ∃ p,
    onnx_op_to_graphbook onnx_op = Ok p
    ∧ prim_name p = op_name onnx_op
    ∧ prim_primitive_name p = op_opType onnx_op
    ∧ (prim_type p = PRIMITIVE_OPERATION
       ↔ op_opType onnx_op = "read_from_file" ∨ op_opType onnx_op = "write_to_file")
    ∧ names_of (prim_inputs p) = op_input onnx_op
    ∧ names_of (prim_outputs p) = op_output onnx_op
    ∧ (∀ i v, prim_inputs p !! i = Some v →
              var_primitive_name v
              = if decide (op_opType onnx_op = "read_from_file")
                then ["file_name"; "dir_name"; "extraction_schema"] !! i else None)
    ∧ (∀ i v, prim_outputs p !! i = Some v →
              var_primitive_name v
              = if decide (op_opType onnx_op = "write_to_file")
                then ["file_name"; "dir_name"; "overwrite"; "data"] !! i else None).
Proof.
  intros Hmeta. unfold onnx_op_to_graphbook, graphbook_inputs_of, graphbook_outputs_of.
  rewrite Hmeta, !bind_Ok. eexists. split; [done|]. simpl.
  split_and!; [done|done| |apply names_of_role_variables|apply names_of_role_variables|..].
  - case_decide as Hfile; [|split; [done|]].
    + split; [|done]. intros _.
      apply elem_of_cons in Hfile as [Htype|Htype]; [by left|].
      apply list_elem_of_singleton in Htype. by right.
    + intros [Htype|Htype]; destruct Hfile; rewrite Htype.
      * by left.
      * right. by left.
  - intros i v Hv. rewrite (role_variable_lookup _ _ _ _ Hv). by case_decide.
  - intros i v Hv. rewrite (role_variable_lookup _ _ _ _ Hv). by case_decide.
Qed.

(** With operator metadata the conversion of an operation that has an
    input indexes the ["inputs"] entry of the metadata at once: it
    raises [KeyError] when the metadata has no such entry and
    [IndexError] when the entry is an empty list. *)
Theorem conversion_with_metadata_needs_inputs onnx_op meta :
  op_type_meta_data onnx_op = Some meta →
  op_input onnx_op ≠ [] →
  (meta_inputs meta = None → onnx_op_to_graphbook onnx_op = Raise (KeyError "inputs"))
  ∧ (meta_inputs meta = Some [] →
     onnx_op_to_graphbook onnx_op = Raise (IndexError "list index out of range")).
Proof.
  intros Hmeta Hinput. unfold onnx_op_to_graphbook, graphbook_inputs_of.
  rewrite Hmeta. destruct (op_input onnx_op) as [|inp rest]; [done|]. simpl.
  unfold input_variable. split; intros ->; reflexivity.
Qed.

(** The conversion of an operation with metadata. *)
Example described_operation_conversion :
  onnx_op_to_graphbook described_operation
  = Ok {| prim_name := "Cast_1"; prim_primitive_name := "Cast";
          prim_type := COMPOSITE_OPERATION;
          prim_inputs :=
            [ {| var_name := "x"; var_primitive_name := Some "input"; var_type := None;
                 var_shape := None; var_onnx_attribute := None |};
              {| var_name := "y"; var_primitive_name := None; var_type := None;
                 var_shape := None; var_onnx_attribute := None |};
              {| var_name := "to"; var_primitive_name := Some "attribute_to";
                 var_type := Some INTEGER; var_shape := None;
                 var_onnx_attribute := Some true |} ];
          prim_outputs :=
            [ {| var_name := "z"; var_primitive_name := Some "output"; var_type := None;
                 var_shape := None; var_onnx_attribute := None |} ] |}.
Proof. by vm_compute. Qed.

End OperationConversion.

(** ** Wiring never raises *)

Section WiringTotal.

Import Py PyFacts.
Context {iteration : SetIteration}.
Implicit Types (onnx_graph : OnnxGraph) (names : gset string) (gcm : composite_store).

Lemma wire_step_present onnx_graph gcm name :
  (name ≠ graph_name onnx_graph → 2 <= depth name →
   is_Some (gcm !! name) ∧ is_Some (gcm !! parent_name_of onnx_graph name)) →
  ∃ gcm', wire_step onnx_graph gcm name = Ok gcm'
          ∧ ∀ key, is_Some (gcm' !! key) ↔ is_Some (gcm !! key).
Proof.
  intros Hpresent. unfold wire_step, getitem, depth in *.
  case_decide as Hroot; [by exists gcm|].
  case_decide as Hdepth; [by exists gcm|].
  destruct Hpresent as [[sub_op ->] [parent_composite Hparent]]; [done|lia|].
  simpl. rewrite Hparent. simpl. eexists. split; [done|].
  intros key. destruct (decide (parent_name_of onnx_graph name = key)) as [<-|Hne].
  - rewrite lookup_insert_eq, Hparent. split; eauto.
  - by rewrite lookup_insert_ne.
Qed.

Lemma wirer_present onnx_graph gcm l :
  (∀ name, name ∈ l → name ≠ graph_name onnx_graph → 2 <= depth name →
           is_Some (gcm !! name) ∧ is_Some (gcm !! parent_name_of onnx_graph name)) →
  ∃ gcm', for_each (wire_step onnx_graph) gcm l = Ok gcm'
          ∧ ∀ key, is_Some (gcm' !! key) ↔ is_Some (gcm !! key).
Proof.
  revert gcm. induction l as [|name l IH]; intros gcm Hpresent.
  - by exists gcm.
  - destruct (wire_step_present onnx_graph gcm name) as (gcm1 & Hstep & Hdom1).
    { apply Hpresent. by left. }
    destruct (IH gcm1) as (gcm2 & Hrest & Hdom2).
    { intros name' Hname' Hroot Hdepth. rewrite !Hdom1. apply Hpresent; [by right|done..]. }
    exists gcm2. rewrite for_each_cons, Hstep, bind_Ok. split; [done|].
    intros key. by rewrite Hdom2, Hdom1.
Qed.

(** The names scope discovery finds from the empty name alone are
    closed under taking the parent. *)
Lemma discovered_parent onnx_graph name :
  name ∈ (_compile_onnx_composite_map onnx_graph {[""]}).2 →
  2 <= depth name →
  join (but_last (split name)) ∈ (_compile_onnx_composite_map onnx_graph {[""]}).2.
Proof.
  destruct (compile_composite_map_result onnx_graph {[""]}) as (Hnames & _ & _). simpl in Hnames.
  rewrite !Hnames. intros [->%elem_of_singleton|(op & Hop & Hpath & d & Hd & ->)] Hdepth.
  { unfold depth in Hdepth. simpl in Hdepth. lia. }
  rewrite depth_scope_prefix in Hdepth by done.
  rewrite but_last_scope_prefix by done. right. exists op. split; [done|].
  split; [done|]. exists (d - 1). split; [lia|done].
Qed.

Lemma discovered_present onnx_graph gcm name :
  (∀ key, is_Some (gcm !! key)
          ↔ ∃ name, name ∈ (_compile_onnx_composite_map onnx_graph {[""]}).2
                    ∧ store_key onnx_graph name = key) →
  name ∈ (_compile_onnx_composite_map onnx_graph {[""]}).2 →
  2 <= depth name →
  is_Some (gcm !! name) ∧ is_Some (gcm !! parent_name_of onnx_graph name).
Proof.
  intros Hdom Hname Hdepth. rewrite !Hdom. split.
  - exists name. split; [done|]. unfold store_key. rewrite decide_False; [done|].
    intros ->. unfold depth in Hdepth. simpl in Hdepth. lia.
  - exists (join (but_last (split name))). split; [by apply discovered_parent|].
    unfold parent_name_of, store_key.
    by destruct (join (but_last (split name))) as [|c s].
Qed.

(** The wirer on the assembled store. *)
Lemma wirer_result onnx_graph pm cvm :
  let r := _compile_onnx_composite_map onnx_graph {[""]} in
  let st := assembler_ok onnx_graph r.1 r.2 pm cvm in
  ∃ gcm,
    _compile_links_between_composite onnx_graph (as_graphbook_composite_map st) r.2 = Ok gcm
    ∧ (∀ key, is_Some (gcm !! key)
              ↔ ∃ name, name ∈ r.2 ∧ store_key onnx_graph name = key)
    ∧ is_Some (gcm !! graph_name onnx_graph).
Proof.
  intros r st. subst r st.
  destruct (assembler_result onnx_graph (_compile_onnx_composite_map onnx_graph {[""]}).1
              (_compile_onnx_composite_map onnx_graph {[""]}).2 pm cvm) as [Hdom _].
  simpl in Hdom. unfold _compile_links_between_composite.
  match goal with
  | |- context [for_each _ ?gcm0 ?l] =>
      destruct (wirer_present onnx_graph gcm0 l) as (gcm & Hwire & Hdom')
  end.
  { intros name Hname%elem_of_set_iter _ Hdepth. by apply discovered_present. }
  exists gcm. split; [done|]. split.
  - intros key. by rewrite Hdom', Hdom.
  - rewrite Hdom', Hdom. exists "". split; [|done].
    destruct (compile_composite_map_result onnx_graph {[""]}) as (Hnames & _ & _).
    apply Hnames. left. by apply elem_of_singleton.
Qed.

Lemma wiring_never_raises_fact onnx_graph pm cvm st :
  let r := _compile_onnx_composite_map onnx_graph {[""]} in
  _compile_graphbook_operations_from_composite_map onnx_graph r.1 r.2 pm cvm = Ok st →
  ∃ gcm,
    _compile_links_between_composite onnx_graph (as_graphbook_composite_map st) r.2 = Ok gcm
    ∧ (∀ key, is_Some (gcm !! key)
              ↔ ∃ name, name ∈ r.2 ∧ store_key onnx_graph name = key)
    ∧ is_Some (gcm !! graph_name onnx_graph).
Proof. intros r ->%assembler_returns. apply wirer_result. Qed.

(** Wiring cannot fail: on the store the assembler builds from the
    discovered scopes, when it returns one, every scope and its parent
    are present. *)
Theorem wiring_never_raises onnx_graph pm cvm st :
  let r := _compile_onnx_composite_map onnx_graph {[""]} in
  _compile_graphbook_operations_from_composite_map onnx_graph r.1 r.2 pm cvm = Ok st →
  ∃ gcm,
    _compile_links_between_composite onnx_graph (as_graphbook_composite_map st) r.2 = Ok gcm
    ∧ (∀ key, is_Some (gcm !! key)
              ↔ ∃ name, name ∈ r.2 ∧ store_key onnx_graph name = key)
    ∧ is_Some (gcm !! graph_name onnx_graph).
Proof. apply wiring_never_raises_fact. Qed.

(** The composite map as the sequence of the stages that build it. *)
Lemma conversion_stages onnx_graph :
  match _compile_onnx_composite_link_map onnx_graph (name_to_op_of onnx_graph) ∅ with
  | Raise e => graphbook_composite_map_of onnx_graph = Raise e
  | Ok (composite_link_map, composite_var_map) =>
      let r := _compile_onnx_composite_map onnx_graph {[""]} in
      match _compile_graphbook_operations_from_composite_map onnx_graph r.1 r.2 ∅
              composite_var_map with
      | Raise e => graphbook_composite_map_of onnx_graph = Raise e
      | Ok st =>
          ∃ gcm,
            _compile_links_between_composite onnx_graph (as_graphbook_composite_map st) r.2
            = Ok gcm
            ∧ is_Some (gcm !! graph_name onnx_graph)
            ∧ graphbook_composite_map_of onnx_graph
              = _compile_links_between_composite_and_primitive onnx_graph gcm
                  (as_primitive_map st) composite_link_map
      end
  end.
Proof.
  unfold graphbook_composite_map_of.
  destruct (_compile_onnx_composite_link_map onnx_graph (name_to_op_of onnx_graph) ∅)
    as [[clm cvm]|e] eqn:Hmap.
  - cbv zeta.
    destruct (_compile_graphbook_operations_from_composite_map onnx_graph _ _ ∅ cvm)
      as [st|e] eqn:Hasm.
    + destruct (wiring_never_raises_fact onnx_graph ∅ cvm st Hasm) as (gcm & Hwire & _ & Hroot).
      exists gcm. split; [done|]. split; [done|].
      destruct (_compile_onnx_composite_map onnx_graph {[""]}) as [cm names]. simpl in *.
      by rewrite Hasm, bind_Ok, Hwire, bind_Ok.
    + destruct (_compile_onnx_composite_map onnx_graph {[""]}) as [cm names]. simpl in *.
      by rewrite Hasm.
  - by destruct (_compile_onnx_composite_map onnx_graph {[""]}).
Qed.

(** The composite map the router returns keeps the root. *)
Lemma routed_root onnx_graph gcm pm clm gcm' :
  is_Some (gcm !! graph_name onnx_graph) →
  _compile_links_between_composite_and_primitive onnx_graph gcm pm clm = Ok gcm' →
  is_Some (gcm' !! graph_name onnx_graph).
Proof.
  intros [root Hroot] Hroute%router_extends.
  destruct (Hroute _ _ Hroot) as (root' & Hroot' & _). eauto.
Qed.

(** The conversion can only fail where a link is compiled into the link
    map, where an operation is converted during assembly, or where a
    link is routed: discovery and wiring never raise and the root
    composite is always there to return. *)
Theorem conversion_fails_only_in_link_map_assembly_or_routing onnx_graph :
  match _compile_onnx_composite_link_map onnx_graph (name_to_op_of onnx_graph) ∅ with
  | Raise e => onnx_graph_to_graphbook onnx_graph = Raise e
  | Ok (composite_link_map, composite_var_map) =>
      let r := _compile_onnx_composite_map onnx_graph {[""]} in
      match _compile_graphbook_operations_from_composite_map onnx_graph r.1 r.2 ∅
              composite_var_map with
      | Raise e => onnx_graph_to_graphbook onnx_graph = Raise e
      | Ok st =>
          ∃ gcm,
            _compile_links_between_composite onnx_graph (as_graphbook_composite_map st) r.2
            = Ok gcm
            ∧ onnx_graph_to_graphbook onnx_graph
              = match _compile_links_between_composite_and_primitive onnx_graph gcm
                        (as_primitive_map st) composite_link_map with
                | Ok gcm' => Ok (returned_tree (graph_name onnx_graph) gcm')
                | Raise e => Raise e
                end
      end
  end.
Proof.
  pose proof (conversion_stages onnx_graph) as Hstages. unfold onnx_graph_to_graphbook.
  destruct (_compile_onnx_composite_link_map onnx_graph (name_to_op_of onnx_graph) ∅)
    as [[clm cvm]|e]; [|by rewrite Hstages].
  cbv zeta in *.
  destruct (_compile_graphbook_operations_from_composite_map onnx_graph _ _ ∅ cvm)
    as [st|e]; [|by rewrite Hstages].
  destruct Hstages as (gcm & Hwire & Hroot & ->). exists gcm. split; [done|].
  destruct (_compile_links_between_composite_and_primitive onnx_graph gcm _ clm)
    as [gcm'|e] eqn:Hroute; [|done].
  rewrite bind_Ok. destruct (routed_root _ _ _ _ _ Hroot Hroute) as [root' Hroot'].
  unfold getitem. by rewrite Hroot'.
Qed.

End WiringTotal.

(** ** The link map *)

Section LinkFiling.

Context {iteration : SetIteration}.
Implicit Types (onnx_graph : OnnxGraph) (link : OnnxLink)
  (name_to_op : gmap string OnnxOperation) (clm : list (string * list OnnxLink))
  (cvm : var_map).

Lemma dict_get_append {A} (k k' : string) (x : A) (d : list (string * list A)) :
  dict_get k (Dict.append k' x d)
  = if decide (k = k') then Some (default [] (dict_get k d) ++ [x]) else dict_get k d.
Proof.
  induction d as [|[k0 l] d IH]; simpl.
  - by repeat case_decide.
  - destruct (decide (k' = k0)) as [->|Hne]; simpl.
    + by repeat case_decide.
    + rewrite IH. repeat case_decide; congruence.
Qed.

Lemma dict_append_keys {A} (k : string) (x : A) (d : list (string * list A)) :
  (Dict.append k x d).*1 = if decide (k ∈ d.*1) then d.*1 else d.*1 ++ [k].
Proof.
  induction d as [|[k0 l] d IH]; [done|].
  cbn [Dict.append]. destruct (decide (k = k0)) as [->|Hne]; rewrite !fmap_cons; cbn [fst].
  - by rewrite decide_True by left.
  - rewrite IH. destruct (decide (k ∈ d.*1)).
    + by rewrite decide_True by by right.
    + rewrite decide_False; [done|]. by intros [?|?]%elem_of_cons.
Qed.

Lemma dict_append_NoDup {A} (k : string) (x : A) (d : list (string * list A)) :
  NoDup d.*1 → NoDup (Dict.append k x d).*1.
Proof.
  intros Hnd. rewrite dict_append_keys. case_decide; [done|].
  apply NoDup_app. split_and!; [done| |apply NoDup_singleton].
  by intros k' Hk' ->%list_elem_of_singleton.
Qed.

(** What one step of link-map compilation does with a link: it raises,
    or it files the link where [filed_under] says and passes the variable
    map on. *)
Lemma link_map_step_outcome onnx_graph name_to_op link clm cvm :
  if link_raises onnx_graph name_to_op link
  then is_ok (link_map_step onnx_graph name_to_op (clm, cvm) link) = false
  else ∃ cvm',
         link_map_step onnx_graph name_to_op (clm, cvm) link
         = Ok (match filed_under onnx_graph name_to_op link with
               | Some key => Dict.append key link clm
               | None => clm
               end, cvm').
Proof.
  unfold link_raises, filed_under, skipped, link_map_step, getitem, home.
  destruct (decide (link_sink link = graph_name onnx_graph)) as [Hsink|Hsink].
  - destruct (name_to_op !! link_source link) as [src|] eqn:Hsrc; simpl; [eauto|done].
  - rewrite (bool_decide_eq_true_2 (link_sink link ≠ _)) by done. simpl.
    destruct (bool_decide (is_Some (name_to_op !! link_source link))
              && bool_decide (link_var_name link ∈ graph_outputs onnx_graph)) eqn:Hskip;
      [eauto|].
    destruct (name_to_op !! link_sink link) as [snk|] eqn:Hsnk; simpl; [|done].
    destruct (decide (link_source link = graph_name onnx_graph)) as [Hsource|Hsource].
    + rewrite (bool_decide_eq_false_2 (link_source link ≠ _)) by (by intros ?). simpl.
      repeat case_decide; eauto; done.
    + rewrite (bool_decide_eq_true_2 (link_source link ≠ _)) by done. simpl.
      destruct (name_to_op !! link_source link) as [src|] eqn:Hsrc; simpl.
      * repeat case_decide; eauto; done.
      * repeat case_decide; done.
Qed.

Lemma compile_link_map_outcome onnx_graph name_to_op links clm cvm :
  (Forall (fun link => link_raises onnx_graph name_to_op link = false) links →
   ∃ clm' cvm',
     for_each (link_map_step onnx_graph name_to_op) (clm, cvm) links = Ok (clm', cvm')
     ∧ (∀ key, default [] (dict_get key clm')
               = default [] (dict_get key clm)
                 ++ filter (fun link => filed_under onnx_graph name_to_op link = Some key)
                      links)
     ∧ (∀ key, key ∈ clm'.*1
               ↔ key ∈ clm.*1
                 ∨ ∃ link, link ∈ links
                           ∧ filed_under onnx_graph name_to_op link = Some key)
     ∧ (NoDup clm.*1 → NoDup clm'.*1))
  ∧ (Exists (fun link => link_raises onnx_graph name_to_op link = true) links →
     is_ok (for_each (link_map_step onnx_graph name_to_op) (clm, cvm) links) = false).
Proof.
  revert clm cvm. induction links as [|link links IH]; intros clm cvm.
  { split; [|by intros ?%Exists_nil]. intros _. exists clm, cvm. split_and!; [done| | |done].
    - intros key. by rewrite filter_nil, app_nil_r.
    - intros key. split; [by left|]. intros [?|(? & ?%elem_of_nil & _)]; done. }
  rewrite for_each_cons.
  pose proof (link_map_step_outcome onnx_graph name_to_op link clm cvm) as Hstep.
  destruct (link_raises onnx_graph name_to_op link) eqn:Hraises.
  { split; [intros [? _]%Forall_cons; congruence|]. intros _.
    by destruct (link_map_step onnx_graph name_to_op (clm, cvm) link). }
  destruct Hstep as (cvm1 & ->). rewrite bind_Ok.
  match goal with |- context [for_each _ (?c, cvm1) links] => set (clm1 := c) end.
  destruct (IH clm1 cvm1) as [IHok IHraise]. split.
  - intros [_ Hrest]%Forall_cons.
    destruct (IHok Hrest) as (clm' & cvm' & Hrun & Hget & Hkeys & Hnd).
    exists clm', cvm'. split_and!; [done| | |].
    + intros key. rewrite Hget, filter_cons. subst clm1.
      destruct (filed_under onnx_graph name_to_op link) as [key'|]; simpl.
      * rewrite dict_get_append. destruct (decide (key = key')) as [->|Hne].
        -- rewrite decide_True by done. simpl. by rewrite <- app_assoc.
        -- rewrite decide_False by congruence. done.
      * done.
    + intros key. rewrite Hkeys. subst clm1. split.
      * intros [Hin|(link' & Hlink' & Hfiled)].
        -- destruct (filed_under onnx_graph name_to_op link) as [key'|] eqn:Hf; [|by left].
           rewrite dict_append_keys in Hin. case_decide; [by left|].
           apply elem_of_app in Hin as [?|Hk%list_elem_of_singleton]; [by left|].
           subst key. right. exists link. split; [by left|done].
        -- right. exists link'. split; [by right|done].
      * intros [Hin|(link' & Hlink' & Hfiled)].
        -- left. destruct (filed_under onnx_graph name_to_op link); [|done].
           rewrite dict_append_keys. case_decide; [done|]. apply elem_of_app. by left.
        -- apply elem_of_cons in Hlink' as [Heq | Hlink'].
           ++ subst link'. left. rewrite Hfiled, dict_append_keys.
              case_decide; [done|]. apply elem_of_app. right. by left.
           ++ right. by exists link'.
    + intros Hclm. apply Hnd. subst clm1.
      destruct (filed_under onnx_graph name_to_op link); [|done].
      by apply dict_append_NoDup.
  - intros [Hhd|Htl]%Exists_cons; [congruence|]. by apply IHraise.
Qed.

(** What link-map compilation returns. *)
Lemma compile_link_map_result onnx_graph cvm :
  let name_to_op := name_to_op_of onnx_graph in
  let links := onnx_links onnx_graph in
  (is_ok (_compile_onnx_composite_link_map onnx_graph name_to_op cvm) = true
   ↔ Forall (fun link => link_raises onnx_graph name_to_op link = false) links)
  ∧ ∀ clm cvm',
      _compile_onnx_composite_link_map onnx_graph name_to_op cvm = Ok (clm, cvm') →
      (∀ key, default [] (dict_get key clm)
              = filter (fun link => filed_under onnx_graph name_to_op link = Some key) links)
      ∧ (∀ key, key ∈ clm.*1
                ↔ ∃ link, link ∈ links ∧ filed_under onnx_graph name_to_op link = Some key)
      ∧ NoDup clm.*1.
Proof.
  intros name_to_op links. subst name_to_op links.
  unfold _compile_onnx_composite_link_map.
  destruct (compile_link_map_outcome onnx_graph (name_to_op_of onnx_graph)
              (onnx_links onnx_graph) [] cvm) as [Hok Hraise].
  destruct (decide (Forall (fun link => link_raises onnx_graph (name_to_op_of onnx_graph) link
                                        = false) (onnx_links onnx_graph))) as [Hall|Hex].
  - destruct (Hok Hall) as (clm' & cvm'' & Hrun & Hget & Hkeys & Hnd). rewrite Hrun.
    split; [done|]. intros clm cvm' [= <- <-]. split_and!.
    + intros key. by rewrite Hget.
    + intros key. rewrite Hkeys. split; [|by right].
      by intros [?%elem_of_nil|?].
    + apply Hnd. constructor.
  - assert (Exists (fun link => link_raises onnx_graph (name_to_op_of onnx_graph) link = true)
              (onnx_links onnx_graph)) as Hexists.
    { apply not_Forall_Exists in Hex; [|intros link; apply _].
      eapply Exists_impl; [exact Hex|]. intros link Hl. simpl in Hl.
      by destruct (link_raises _ _ link). }
    specialize (Hraise Hexists). split.
    + split; [by rewrite Hraise|done].
    + intros clm cvm' Hrun. by rewrite Hrun in Hraise.
Qed.

(** Link-map compilation succeeds exactly when no link raises, and then
    the link map holds, under each composite's key and in the order of
    the link list, the links filed under it; a key is present only when
    some link is filed under it, and no key is repeated. *)
Theorem link_map_filing onnx_graph cvm :
  let name_to_op := name_to_op_of onnx_graph in
  let links := onnx_links onnx_graph in
  (is_ok (_compile_onnx_composite_link_map onnx_graph name_to_op cvm) = true
   ↔ Forall (fun link => link_raises onnx_graph name_to_op link = false) links)
  ∧ ∀ clm cvm',
      _compile_onnx_composite_link_map onnx_graph name_to_op cvm = Ok (clm, cvm') →
      (∀ key, default [] (dict_get key clm)
              = filter (fun link => filed_under onnx_graph name_to_op link = Some key) links)
      ∧ (∀ key, key ∈ clm.*1
                ↔ ∃ link, link ∈ links ∧ filed_under onnx_graph name_to_op link = Some key)
      ∧ NoDup clm.*1.
Proof. apply compile_link_map_result. Qed.

End LinkFiling.

(** ** What wiring and routing add *)

Section Emission.

Import Py PyFacts.
Context {iteration : SetIteration}.
Implicit Types (onnx_graph : OnnxGraph) (gcm : composite_store) (c : Composite)
  (link : OnnxLink).

Lemma elem_of_boundary_links_inv mk sub_vars parent_vars l :
  l ∈ boundary_links mk sub_vars parent_vars →
  ∃ v, l = mk v ∧ v ∈ names_of sub_vars ∧ v ∈ names_of parent_vars.
Proof.
  unfold boundary_links, names_of.
  intros (sv & Hsv & Hl)%list_elem_of_In%in_flat_map.
  apply in_flat_map in Hl as (pv & Hpv & Hl).
  case_decide as Heq; [|done]. destruct Hl as [<-|[]].
  exists (var_name sv). split; [done|]. split.
  - apply list_elem_of_fmap. exists sv. split; [done|]. by apply list_elem_of_In.
  - rewrite Heq. apply list_elem_of_fmap. exists pv. split; [done|]. by apply list_elem_of_In.
Qed.

Lemma declares_input_extends gcm gcm' key v :
  store_extends gcm gcm' → declares_input gcm key v → declares_input gcm' key v.
Proof.
  intros Hext (c & Hc & Hv). destruct (Hext key c Hc) as (c' & Hc' & Hi & _).
  exists c'. split; [done|]. by rewrite Hi.
Qed.

Lemma declares_output_extends gcm gcm' key v :
  store_extends gcm gcm' → declares_output gcm key v → declares_output gcm' key v.
Proof.
  intros Hext (c & Hc & Hv). destruct (Hext key c Hc) as (c' & Hc' & _ & Ho & _).
  exists c'. split; [done|]. by rewrite Ho.
Qed.

Lemma boundary_link_of_extends onnx_graph gcm gcm' key l :
  store_extends gcm gcm' →
  boundary_link_of onnx_graph gcm key l → boundary_link_of onnx_graph gcm' key l.
Proof.
  intros Hext (child & v & Hroot & Hdepth & Hparent & (c & Hc & Hchild) & Hl).
  exists child, v. split_and!; [done..| |].
  - destruct (Hext key c Hc) as (c' & Hc' & _ & _ & _ & Hops). exists c'. split; [done|].
    by apply Hops.
  - destruct Hl as [(-> & ? & ?)|(-> & ? & ?)]; [left|right];
      eauto using declares_input_extends, declares_output_extends.
Qed.

Lemma wire_step_boundary_links onnx_graph gcm name gcm' :
  (∀ key c, gcm !! key = Some c →
            Forall (boundary_link_of onnx_graph gcm key) (Composite.links c)) →
  wire_step onnx_graph gcm name = Ok gcm' →
  ∀ key c, gcm' !! key = Some c →
           Forall (boundary_link_of onnx_graph gcm' key) (Composite.links c).
Proof.
  intros Hinv Hstep. pose proof (wire_step_extends _ _ _ _ Hstep) as Hext.
  revert Hstep. unfold wire_step, getitem.
  case_decide as Hroot; [by intros [= <-]|].
  case_decide as Hdepth; [by intros [= <-]|].
  destruct (gcm !! name) as [sub_op|] eqn:Hsub; [|done]. simpl.
  destruct (gcm !! parent_name_of onnx_graph name) as [parent_composite|] eqn:Hparent;
    [|done].
  simpl. intros [= Hgcm'] key c Hc.
  destruct (decide (parent_name_of onnx_graph name = key)) as [<-|Hne].
  - rewrite <- Hgcm', lookup_insert_eq in Hc. injection Hc as <-. simpl.
    rewrite !Forall_app. split_and!.
    + eapply Forall_impl; [by apply Hinv|].
      intros l Hl. by eapply boundary_link_of_extends.
    + apply Forall_forall. intros l (v & -> & Hv & Hpv)%elem_of_boundary_links_inv.
      exists name, v. split_and!; [done|unfold depth; lia|done| |].
      * eexists. rewrite <- Hgcm', lookup_insert_eq. split; [done|]. simpl.
        apply elem_of_app. right. by left.
      * left. split; [done|]. split.
        -- apply (declares_input_extends gcm); [done|]. by exists sub_op.
        -- apply (declares_input_extends gcm); [done|]. by exists parent_composite.
    + apply Forall_forall. intros l (v & -> & Hv & Hpv)%elem_of_boundary_links_inv.
      exists name, v. split_and!; [done|unfold depth; lia|done| |].
      * eexists. rewrite <- Hgcm', lookup_insert_eq. split; [done|]. simpl.
        apply elem_of_app. right. by left.
      * right. split; [done|]. split.
        -- apply (declares_output_extends gcm); [done|]. by exists sub_op.
        -- apply (declares_output_extends gcm); [done|]. by exists parent_composite.
  - rewrite <- Hgcm', lookup_insert_ne in Hc by done.
    eapply Forall_impl; [by eapply Hinv|].
    intros l Hl. by eapply boundary_link_of_extends.
Qed.

(** The links the wirer leaves in a composite. *)
Lemma wirer_links onnx_graph gcm names gcm' :
  (∀ key c, gcm !! key = Some c → Composite.links c = []) →
  _compile_links_between_composite onnx_graph gcm names = Ok gcm' →
  ∀ key c l, gcm' !! key = Some c → l ∈ Composite.links c →
             boundary_link_of onnx_graph gcm' key l.
Proof.
  intros Hempty Hwire.
  assert (∀ key c, gcm' !! key = Some c →
                   Forall (boundary_link_of onnx_graph gcm' key) (Composite.links c)) as Hall.
  { revert Hwire. unfold _compile_links_between_composite.
    assert (∀ key c, gcm !! key = Some c →
                     Forall (boundary_link_of onnx_graph gcm key) (Composite.links c)) as Hinv.
    { intros key c Hc. by rewrite (Hempty key c Hc). }
    clear Hempty. revert gcm Hinv.
    induction (set_iter names) as [|name l IH]; intros gcm Hinv.
    - by intros [= <-].
    - rewrite for_each_cons. intros (gcm1 & Hstep & Hrest)%bind_Ok_inv.
      eapply IH; [|done]. by eapply wire_step_boundary_links. }
  intros key c l Hc Hl. specialize (Hall key c Hc).
  rewrite Forall_forall in Hall. by apply Hall.
Qed.

(** The boundary wirer emits nothing else than boundary links: after
    wiring a store that has no link yet, every link of every composite
    joins its ["this"] boundary with one of its nested children, for a
    name that the composite and the child both declare on that side. *)
Theorem wiring_emits_only_boundary_links onnx_graph gcm names gcm' :
  (∀ key c, gcm !! key = Some c → Composite.links c = []) →
  _compile_links_between_composite onnx_graph gcm names = Ok gcm' →
  ∀ key c l, gcm' !! key = Some c → l ∈ Composite.links c →
             boundary_link_of onnx_graph gcm' key l.
Proof. apply wirer_links. Qed.

End Emission.

Section RouterAppends.

Context {iteration : SetIteration}.
Implicit Types (onnx_graph : OnnxGraph) (gcm : composite_store) (c : Composite)
  (link : OnnxLink) (P : Link → Prop).

Lemma set_links_id c : set_links c (Composite.links c ++ []) = c.
Proof. destruct c. unfold set_links. simpl. by rewrite app_nil_r. Qed.

Lemma set_links_set_links c new1 new2 :
  set_links (set_links c (Composite.links c ++ new1))
    (Composite.links (set_links c (Composite.links c ++ new1)) ++ new2)
  = set_links c (Composite.links c ++ (new1 ++ new2)).
Proof. unfold set_links. simpl. by rewrite app_assoc. Qed.

Lemma links_appended_refl P gcm : links_appended P gcm gcm.
Proof.
  intros key. destruct (gcm !! key) as [c|]; constructor.
  exists []. split; [by rewrite set_links_id|constructor].
Qed.

Lemma links_appended_trans P gcm1 gcm2 gcm3 :
  links_appended P gcm1 gcm2 → links_appended P gcm2 gcm3 → links_appended P gcm1 gcm3.
Proof.
  intros H12 H23 key. specialize (H12 key). specialize (H23 key).
  destruct H12 as [c1 c2 (new1 & -> & Hnew1)|]; inversion H23 as [? c3 (new2 & -> & Hnew2)|];
    constructor.
  exists (new1 ++ new2). split; [apply set_links_set_links|by apply Forall_app].
Qed.

Lemma links_appended_impl P Q gcm gcm' :
  (∀ l, P l → Q l) → links_appended P gcm gcm' → links_appended Q gcm gcm'.
Proof.
  intros HPQ H key. destruct (H key) as [c c' (new & -> & Hnew)|]; constructor.
  exists new. split; [done|]. by eapply Forall_impl.
Qed.

Lemma links_appended_append_link P key l gcm :
  P l → links_appended P gcm (append_link key l gcm).
Proof.
  intros Hl key'. unfold append_link.
  destruct (gcm !! key) as [c|] eqn:Hc; [|apply links_appended_refl].
  destruct (decide (key = key')) as [<-|Hne].
  - rewrite lookup_insert_eq, Hc. constructor. exists [l]. split; [done|].
    by repeat constructor.
  - rewrite lookup_insert_ne by done. apply links_appended_refl.
Qed.

(** One flat link makes the router append at most one link, carrying the
    flat link's variable at both ends, and none when the flat link comes
    from the graph boundary. *)
Lemma route_link_appends onnx_graph primitive_map composite_name gcm link gcm' :
  route_link onnx_graph primitive_map composite_name gcm link = Ok gcm' →
  gcm' = gcm
  ∨ link_source link ≠ graph_name onnx_graph
    ∧ ∃ key l, gcm' = append_link key l gcm ∧ carries (link_var_name link) l.
Proof.
  unfold route_link, getitem.
  case_decide as Hsrc; [intros [= <-]; by left|].
  repeat (case_decide || case_match || simpl); intros [= <-];
    right; (split; [done|]); eexists _, _; (split; [done|]); done.
Qed.

(** What the router does to a store. *)
Lemma router_appends onnx_graph gcm primitive_map composite_link_map gcm' :
  _compile_links_between_composite_and_primitive onnx_graph gcm primitive_map
    composite_link_map = Ok gcm' →
  links_appended
    (fun l => ∃ key flats flat,
                (key, flats) ∈ composite_link_map ∧ flat ∈ flats
                ∧ link_source flat ≠ graph_name onnx_graph
                ∧ carries (link_var_name flat) l)
    gcm gcm'.
Proof.
  unfold _compile_links_between_composite_and_primitive.
  revert gcm. induction composite_link_map as [|[key flats] clm IH]; intros gcm.
  - intros [= <-]. apply links_appended_refl.
  - rewrite for_each_cons. intros (gcm1 & Hhere & Hrest)%bind_Ok_inv.
    eapply links_appended_trans.
    + apply bind_Ok_inv in Hhere as (_ & _ & Hhere).
      assert (links_appended
                (fun l => ∃ flat, flat ∈ flats ∧ link_source flat ≠ graph_name onnx_graph
                                  ∧ carries (link_var_name flat) l) gcm gcm1) as Hflats.
      { clear IH Hrest. revert gcm Hhere. induction flats as [|flat flats IHf]; intros gcm.
        - intros [= <-]. apply links_appended_refl.
        - rewrite for_each_cons. intros (gcm0 & Hstep & Hmore)%bind_Ok_inv.
          eapply links_appended_trans.
          + apply route_link_appends in Hstep as [->|(Hsrc & k & l & -> & Hl)].
            * apply links_appended_refl.
            * apply links_appended_append_link. exists flat. split; [by left|done].
          + eapply links_appended_impl; [|by apply IHf].
            intros l (flat' & ? & ?). exists flat'. split; [by right|done]. }
      eapply links_appended_impl; [|exact Hflats].
      intros l (flat & ? & ? & ?). exists key, flats, flat. split; [by left|done].
    + eapply links_appended_impl; [|by apply IH].
      intros l (key' & flats' & flat & ? & ?). exists key', flats', flat.
      split; [by right|done].
Qed.

(** Routing only appends links: every composite keeps its name, type,
    interface and children, its earlier links stay in place and in
    order, and each new link carries, at both ends, the variable of a
    flat link of the link map that does not come from the graph
    boundary. *)
Theorem routing_only_appends_links onnx_graph gcm primitive_map composite_link_map gcm' :
  _compile_links_between_composite_and_primitive onnx_graph gcm primitive_map
    composite_link_map = Ok gcm' →
  links_appended
    (fun l => ∃ key flats flat,
                (key, flats) ∈ composite_link_map ∧ flat ∈ flats
                ∧ link_source flat ≠ graph_name onnx_graph
                ∧ carries (link_var_name flat) l)
    gcm gcm'.
Proof. apply router_appends. Qed.

End RouterAppends.

(** ** A graph without links *)

Section NoLinks.

Import Py PyFacts.
Context {iteration : SetIteration}.
Implicit Types (onnx_graph : OnnxGraph) (gcm : composite_store) (c : Composite).

Lemma required_empty field key : required field key ∅ = [].
Proof. done. Qed.

(** Without links, the composite map has one composite per discovered
    scope and not a single link. *)
Lemma conversion_without_links_map onnx_graph :
  onnx_links onnx_graph = [] →
  (∀ op, op ∈ onnx_ops onnx_graph → is_ok (onnx_op_to_graphbook op) = true) →
  ∃ gcm root,
    graphbook_composite_map_of onnx_graph = Ok gcm
    ∧ (∀ key, is_Some (gcm !! key)
              ↔ ∃ name, name ∈ (_compile_onnx_composite_map onnx_graph {[""]}).2
                        ∧ store_key onnx_graph name = key)
    ∧ (∀ key c, gcm !! key = Some c → Composite.links c = [])
    ∧ gcm !! graph_name onnx_graph = Some root
    ∧ onnx_graph_to_graphbook onnx_graph = Ok (returned_tree (graph_name onnx_graph) gcm)
    ∧ tree_store (returned_tree (graph_name onnx_graph) gcm) !! graph_name onnx_graph
      = Some root.
Proof.
  intros Hlinks Hops.
  destruct (proj2 (assembler_returns_iff onnx_graph ∅ ∅) Hops) as [st Hasm].
  pose proof (conversion_stages onnx_graph) as Hconv.
  unfold _compile_onnx_composite_link_map in Hconv. rewrite Hlinks in Hconv.
  simpl in Hconv. rewrite Hasm in Hconv. destruct Hconv as (gcm & Hwire & [root Hroot] & Hconv).
  change (graphbook_composite_map_of onnx_graph = Ok gcm) in Hconv.
  pose proof (assembler_returns _ _ _ _ _ _ Hasm) as ->.
  exists gcm, root. split; [by rewrite Hconv|].
  destruct (wirer_result onnx_graph ∅ ∅) as (gcm' & Hwire' & Hdom & _).
  simpl in Hwire'. rewrite Hwire in Hwire'. injection Hwire' as <-.
  split; [done|].
  destruct (assembler_result onnx_graph (_compile_onnx_composite_map onnx_graph {[""]}).1
              (_compile_onnx_composite_map onnx_graph {[""]}).2 ∅ ∅) as [Hdom_a Hshape].
  simpl in Hdom_a, Hshape.
  split; [|split; [done|]; split; [|by apply returned_tree_root]].
  2:{ unfold onnx_graph_to_graphbook, getitem. by rewrite Hconv, bind_Ok, Hroot. }
  intros key c Hc. destruct (Composite.links c) as [|l ls] eqn:Hl; [done|]. exfalso.
  assert (boundary_link_of onnx_graph gcm key l) as Hb.
  { eapply wirer_links; [|exact Hwire|exact Hc|rewrite Hl; by left].
    intros key' c' Hc'. by apply (Hshape key' c' Hc'). }
  destruct Hb as (child & v & Hchild_root & _ & _ & _ & Hdecl).
  assert (∀ c', gcm !! child = Some c' →
                Composite.inputs c' = [] ∧ Composite.outputs c' = []) as Hchild.
  { intros c' Hc'.
    assert (is_Some (gcm !! child)) as Hsome by eauto.
    apply Hdom, Hdom_a in Hsome as [c0 Hc0].
    destruct (Hshape child c0 Hc0) as (_ & _ & _ & _ & _ & Hio).
    destruct (Hio Hchild_root) as [Hi Ho]. rewrite !required_empty in Hi, Ho.
    apply wirer_extends in Hwire. destruct (Hwire child c0 Hc0) as (c1 & Hc1 & Hi1 & Ho1 & _).
    rewrite Hc' in Hc1. injection Hc1 as <-. by rewrite Hi1, Ho1. }
  destruct Hdecl as [(_ & (c' & Hc' & Hv) & _)|(_ & (c' & Hc' & Hv) & _)];
    destruct (Hchild c' Hc') as [Hi Ho].
  - rewrite Hi in Hv. by apply elem_of_nil in Hv.
  - rewrite Ho in Hv. by apply elem_of_nil in Hv.
Qed.

(** A flat graph without any link converts when each of its operations
    converts, whatever its scopes: the tree returned is rooted at the
    graph's name, its composites are composites of discovered scopes,
    and none of them has a link. *)
Theorem conversion_without_links onnx_graph :
  onnx_links onnx_graph = [] →
  (∀ op, op ∈ onnx_ops onnx_graph → is_ok (onnx_op_to_graphbook op) = true) →
  ∃ t root,
    onnx_graph_to_graphbook onnx_graph = Ok t
    ∧ tree_root t = graph_name onnx_graph
    ∧ tree_store t !! graph_name onnx_graph = Some root
    ∧ (∀ key, is_Some (tree_store t !! key)
              → ∃ name, name ∈ (_compile_onnx_composite_map onnx_graph {[""]}).2
                        ∧ store_key onnx_graph name = key)
    ∧ (∀ key c, tree_store t !! key = Some c → Composite.links c = []).
Proof.
  intros Hlinks Hops.
  destruct (conversion_without_links_map onnx_graph Hlinks Hops)
    as (gcm & root & Hmap & Hdom & Hnone & Hroot & Hconv & Hroot_t).
  exists (returned_tree (graph_name onnx_graph) gcm), root.
  split_and!; [done|done|done|..].
  - intros key [c Hc%returned_tree_lookup]. apply Hdom. eauto.
  - intros key c Hc%returned_tree_lookup. by eapply Hnone.
Qed.

End NoLinks.

(** ** Links inside one scope *)

Section IntraScope.

Import Py PyFacts.
Context {iteration : SetIteration}.
Implicit Types (onnx_graph : OnnxGraph) (op : OnnxOperation) (gcm : composite_store)
  (c : Composite) (link : OnnxLink) (st : AssemblerState)
  (pm : gmap string Primitive) (d : list (string * Primitive)).

Lemma elem_of_dict_set {V} (k k' : string) (v v' : V) (d : list (string * V)) :
  (k, v) ∈ Dict.set k' v' d → (k, v) = (k', v') ∨ (k, v) ∈ d.
Proof.
  induction d as [|[k0 v0] d IH]; simpl.
  - intros ->%list_elem_of_singleton. by left.
  - case_decide.
    + intros [Heq|Hin]%elem_of_cons; [by left|]. right. by right.
    + intros [Heq|Hin]%elem_of_cons; [right; rewrite Heq; by left|].
      destruct (IH Hin) as [?|?]; [by left|]. right. by right.
Qed.

Lemma dict_set_key {V} (k : string) (v : V) (d : list (string * V)) :
  ∃ v', (k, v') ∈ Dict.set k v d.
Proof.
  induction d as [|[k0 v0] d IH]; simpl.
  - exists v. by left.
  - case_decide.
    + exists v. by left.
    + destruct IH as [v' Hv']. exists v'. by right.
Qed.

Lemma dict_set_keeps_key {V} (k k' : string) (v v' : V) (d : list (string * V)) :
  (k, v) ∈ d → ∃ v'', (k, v'') ∈ Dict.set k' v' d.
Proof.
  induction d as [|[k0 v0] d IH]; simpl; [by intros ?%elem_of_nil|].
  intros [[= <- <-]|Hin]%elem_of_cons.
  - case_decide; [subst; exists v'|exists v]; by left.
  - case_decide; [exists v; by right|].
    destruct (IH Hin) as [v'' Hv'']. exists v''. by right.
Qed.

Lemma this_primitive_fold ops d k p :
  (k, p) ∈ foldl (fun d onnx_op => Dict.set (op_name onnx_op) (converted onnx_op) d)
             d ops →
  (k, p) ∈ d ∨ ∃ op, op ∈ ops ∧ op_name op = k ∧ p = converted op.
Proof.
  revert d. induction ops as [|op ops IH]; intros d; simpl; [by left|].
  intros [Hin|(op' & Hop' & ?)]%IH.
  - apply elem_of_dict_set in Hin as [[= -> ->]|?]; [|by left].
    right. exists op. split; [by left|done].
  - right. exists op'. split; [by right|done].
Qed.

Lemma this_primitive_fold_key ops d k :
  (∃ p, (k, p) ∈ d) ∨ (∃ op, op ∈ ops ∧ op_name op = k) →
  ∃ p, (k, p) ∈ foldl (fun d onnx_op =>
                         Dict.set (op_name onnx_op) (converted onnx_op) d) d ops.
Proof.
  revert d. induction ops as [|op ops IH]; intros d; simpl.
  - intros [?|(op & ?%elem_of_nil & _)]; done.
  - intros [[p Hp]|(op' & Hop' & Hname)].
    + apply IH. left. by eapply dict_set_keeps_key.
    + apply elem_of_cons in Hop' as [Heq | Hop'].
      * subst op'. apply IH. left. rewrite <- Hname. apply dict_set_key.
      * apply IH. right. by exists op'.
Qed.

Lemma elem_of_this_primitive_of ops k p :
  (k, p) ∈ this_primitive_ok ops →
  ∃ op, op ∈ ops ∧ op_name op = k ∧ p = converted op.
Proof.
  intros [?%elem_of_nil|?]%this_primitive_fold; done.
Qed.

Lemma this_primitive_of_key ops op :
  op ∈ ops → ∃ p, (op_name op, p) ∈ this_primitive_ok ops.
Proof. intros Hop. apply this_primitive_fold_key. right. by exists op. Qed.

Lemma insert_items_lookup (items : list (string * Primitive)) pm k p :
  foldl (fun acc kv => <[kv.1 := kv.2]> acc) pm items !! k = Some p →
  pm !! k = Some p ∨ (k, p) ∈ items.
Proof.
  revert pm. induction items as [|[k0 p0] items IH]; intros pm; simpl; [by left|].
  intros [Hpm|Hin]%IH; [|right; by right].
  destruct (decide (k0 = k)) as [->|Hne].
  - rewrite lookup_insert_eq in Hpm. injection Hpm as ->. right. by left.
  - rewrite lookup_insert_ne in Hpm by done. by left.
Qed.

Lemma insert_items_is_Some (items : list (string * Primitive)) pm k :
  is_Some (pm !! k) ∨ k ∈ items.*1 →
  is_Some (foldl (fun acc kv => <[kv.1 := kv.2]> acc) pm items !! k).
Proof.
  revert pm. induction items as [|[k0 p0] items IH]; intros pm; simpl.
  - intros [?|?%elem_of_nil]; done.
  - intros [Hpm|[->|Hin]%elem_of_cons]; apply IH.
    + left. destruct (decide (k0 = k)) as [->|Hne];
        [rewrite lookup_insert_eq; eauto|by rewrite lookup_insert_ne].
    + left. rewrite lookup_insert_eq. eauto.
    + by right.
Qed.

Lemma op_name_inj ops op op' :
  NoDup (op_name <$> ops) → op ∈ ops → op' ∈ ops → op_name op = op_name op' → op = op'.
Proof.
  induction ops as [|op0 ops IH]; [by intros _ ?%elem_of_nil|].
  rewrite fmap_cons. intros [Hnin Hnd]%NoDup_cons.
  intros [->|Hop]%elem_of_cons [->|Hop']%elem_of_cons Hname; [done| | |by apply IH].
  - destruct Hnin. rewrite Hname. apply list_elem_of_fmap. by exists op'.
  - destruct Hnin. rewrite <- Hname. apply list_elem_of_fmap. by exists op.
Qed.

Lemma name_to_op_elem onnx_graph k op :
  name_to_op_of onnx_graph !! k = Some op → op ∈ onnx_ops onnx_graph ∧ op_name op = k.
Proof.
  unfold name_to_op_of.
  assert (∀ ops (acc : gmap string OnnxOperation),
            foldl (fun m op => <[op_name op := op]> m) acc ops !! k = Some op →
            acc !! k = Some op ∨ (op ∈ ops ∧ op_name op = k)) as Hfold.
  { induction ops as [|op0 ops IH]; intros acc; simpl; [by left|].
    intros [Hd|[? ?]]%IH; [|right; split; [by right|done]].
    destruct (decide (op_name op0 = k)) as [<-|Hne].
    - rewrite lookup_insert_eq in Hd. injection Hd as ->. right. split; [by left|done].
    - rewrite lookup_insert_ne in Hd by done. by left. }
  intros [Hempty|?]%Hfold; [|done]. by rewrite lookup_empty in Hempty.
Qed.

End IntraScope.

Section IntraScopeAssembly.

Import Py PyFacts.
Context {iteration : SetIteration}.
Implicit Types (onnx_graph : OnnxGraph) (op : OnnxOperation) (gcm : composite_store)
  (c : Composite) (link : OnnxLink) (st : AssemblerState)
  (pm : gmap string Primitive) (cm : gmap string (list OnnxOperation)).

Lemma assemble_composite_ops onnx_graph key input_names output_names cm pm gcm
    already_visited_root :
  NoDup (op_name <$> onnx_ops onnx_graph) →
  assembler_ops_invariant onnx_graph
    {| as_composite_map := cm; as_primitive_map := pm;
       as_graphbook_composite_map := gcm; as_already_visited_root := already_visited_root |} →
  ∀ flag,
    assembler_ops_invariant onnx_graph
      {| as_composite_map := cm;
         as_primitive_map := (assemble_composite_ok key input_names output_names cm pm gcm).1;
         as_graphbook_composite_map :=
           (assemble_composite_ok key input_names output_names cm pm gcm).2;
         as_already_visited_root := flag |}.
Proof.
  intros Hnd (Hfiled & Hknown & Hpm & Hgcm) flag.
  cbn [as_composite_map as_primitive_map as_graphbook_composite_map] in *.
  set (items := match cm !! key with Some ops => this_primitive_ok ops | None => [] end).
  assert ((assemble_composite_ok key input_names output_names cm pm gcm).1
          = foldl (fun acc kv => <[kv.1 := kv.2]> acc) pm items) as Hpm' by done.
  assert (∀ k p, (k, p) ∈ items →
                 ∃ op, op ∈ onnx_ops onnx_graph ∧ op_name op = k
                       ∧ p = converted op) as Hitems.
  { intros k p Hin. subst items. destruct (cm !! key) as [ops|] eqn:Hcm.
    - apply elem_of_this_primitive_of in Hin as (op & Hop & ? & ?).
      exists op. split; [|done]. apply (Hknown key). by rewrite Hcm.
    - by apply elem_of_nil in Hin. }
  assert (∀ k p, (assemble_composite_ok key input_names output_names cm pm gcm).1 !! k = Some p →
                 ∃ op, op ∈ onnx_ops onnx_graph ∧ op_name op = k
                       ∧ p = converted op) as Hpm_ok.
  { intros k p. rewrite Hpm'. intros [?|?]%insert_items_lookup; eauto. }
  assert (∀ op, op ∈ onnx_ops onnx_graph →
                is_Some ((assemble_composite_ok key input_names output_names cm pm gcm).1
                           !! op_name op) →
                (assemble_composite_ok key input_names output_names cm pm gcm).1 !! op_name op
                = Some (converted op)) as Hvalue.
  { intros op Hop [p Hp]. rewrite Hp. f_equal.
    destruct (Hpm_ok _ _ Hp) as (op' & Hop' & Hname & ->).
    by assert (op' = op) as -> by by eapply op_name_inj. }
  split_and!; cbn [as_composite_map as_primitive_map as_graphbook_composite_map];
    [done|done|done|].
  intros key' c op. rewrite assemble_composite_store.
  destruct (decide (key = key')) as [<-|Hne].
  - rewrite lookup_insert_eq. intros [= <-] Hop Hhome.
    assert ((op_name op, converted op) ∈ items) as Hin.
    { pose proof (Hfiled key op Hop Hhome) as Hop_filed. subst items.
      destruct (cm !! key) as [ops|] eqn:Hcm; simpl in Hop_filed;
        [|by apply elem_of_nil in Hop_filed].
      destruct (this_primitive_of_key ops op Hop_filed) as [p Hp].
      destruct (elem_of_this_primitive_of _ _ _ Hp) as (op' & Hop' & Hname & ->).
      assert (op' ∈ onnx_ops onnx_graph) as Hop'_known.
      { apply (Hknown key). by rewrite Hcm. }
      assert (op' = op) as Heq by by eapply op_name_inj.
      by subst op'. }
    split.
    + unfold assembled. simpl. fold items.
      apply list_elem_of_fmap. exists (converted op). split; [done|].
      apply list_elem_of_fmap. by exists (op_name op, converted op).
    + apply Hvalue; [done|]. rewrite Hpm'. apply insert_items_is_Some. right.
      apply list_elem_of_fmap. by exists (op_name op, converted op).
  - rewrite lookup_insert_ne by done. intros Hc Hop Hhome.
    destruct (Hgcm key' c op Hc Hop Hhome) as [Hchild Hprim]. split; [done|].
    apply Hvalue; [done|]. rewrite Hpm'. apply insert_items_is_Some. left. eauto.
Qed.

Lemma assemble_step_ops onnx_graph cvm st name :
  NoDup (op_name <$> onnx_ops onnx_graph) →
  assembler_ops_invariant onnx_graph st →
  assembler_ops_invariant onnx_graph (assemble_step_ok onnx_graph cvm st name).
Proof.
  intros Hnd Hinv. unfold assemble_step_ok. case_decide as Hname.
  - destruct (as_already_visited_root st) eqn:Hvisited; [done|].
    set (cm1 := if decide (is_Some (as_composite_map st !! graph_name onnx_graph))
                then as_composite_map st
                else <[graph_name onnx_graph := []]> (as_composite_map st)).
    set (cm2 := match cm1 !! name with
                | Some ops =>
                    <[graph_name onnx_graph :=
                        default [] (cm1 !! graph_name onnx_graph) ++ ops]> cm1
                | None => cm1
                end).
    assert (∀ key, default [] (cm1 !! key) = default [] (as_composite_map st !! key)) as Hcm1.
    { intros key. subst cm1. case_decide as Hsome; [done|].
      destruct (decide (graph_name onnx_graph = key)) as [<-|Hne].
      - rewrite lookup_insert_eq. simpl.
        destruct (as_composite_map st !! graph_name onnx_graph) eqn:Hcm; [|done].
        destruct Hsome. eauto.
      - by rewrite lookup_insert_ne. }
    destruct Hinv as (Hfiled & Hknown & Hpm & Hgcm).
    assert (assembler_ops_invariant onnx_graph
              {| as_composite_map := cm2; as_primitive_map := as_primitive_map st;
                 as_graphbook_composite_map := as_graphbook_composite_map st;
                 as_already_visited_root := false |}) as Hinv2.
    { split_and!; simpl; [| |done|done].
      - intros key op Hop Hhome. specialize (Hfiled key op Hop Hhome).
        rewrite <- Hcm1 in Hfiled. subst cm2.
        destruct (cm1 !! name) as [ops|]; [|done].
        destruct (decide (graph_name onnx_graph = key)) as [<-|Hne].
        + rewrite lookup_insert_eq. simpl. apply elem_of_app. by left.
        + by rewrite lookup_insert_ne.
      - intros key op. subst cm2.
        destruct (cm1 !! name) as [ops|] eqn:Hroot_ops.
        + destruct (decide (graph_name onnx_graph = key)) as [<-|Hne].
          * rewrite lookup_insert_eq. simpl. intros [Hop|Hop]%elem_of_app.
            -- apply (Hknown (graph_name onnx_graph)). by rewrite <- Hcm1.
            -- apply (Hknown name). rewrite <- Hcm1, Hroot_ops. done.
          * rewrite lookup_insert_ne by done. rewrite Hcm1. apply Hknown.
        + rewrite Hcm1. apply Hknown. }
    pose proof (assemble_composite_ops onnx_graph (graph_name onnx_graph)
                  (graph_inputs onnx_graph) (graph_outputs onnx_graph) cm2
                  (as_primitive_map st) (as_graphbook_composite_map st) false Hnd Hinv2 true)
      as Hdone.
    fold cm1. fold cm2.
    by destruct (assemble_composite_ok (graph_name onnx_graph) _ _ cm2 _ _).
  - destruct st as [cm pm gcm visited].
    cbn [as_composite_map as_primitive_map as_graphbook_composite_map
         as_already_visited_root]. cbv zeta.
    pose proof (assemble_composite_ops onnx_graph name
                  (default [] (default ∅ (cvm !! name) !! INPUT))
                  (default [] (default ∅ (cvm !! name) !! OUTPUT))
                  cm pm gcm visited Hnd Hinv visited) as Hdone.
    by destruct (assemble_composite_ok name _ _ cm pm gcm).
Qed.

(** Where the assembler puts an operation. *)
Lemma assembler_places onnx_graph cvm op :
  NoDup (op_name <$> onnx_ops onnx_graph) →
  op ∈ onnx_ops onnx_graph →
  let r := _compile_onnx_composite_map onnx_graph {[""]} in
  let st := assembler_ok onnx_graph r.1 r.2 ∅ cvm in
  as_primitive_map st !! op_name op = Some (converted op)
  ∧ ∃ c, as_graphbook_composite_map st !! home onnx_graph op = Some c
         ∧ ChildPrimitive (converted op) ∈ Composite.operations c.
Proof.
  intros Hnd Hop r st.
  assert (assembler_ops_invariant onnx_graph st) as (_ & _ & _ & Hgcm).
  { subst st. unfold assembler_ok.
    match goal with
    | |- assembler_ops_invariant _ (foldl _ ?st0 ?names_list) =>
        assert (assembler_ops_invariant onnx_graph st0) as Hinit;
        [|generalize Hinit; generalize st0; induction names_list as [|name rest IH];
          [done|intros st1 Hst1; simpl; by apply IH, assemble_step_ops]]
    end.
    destruct (compile_composite_map_result onnx_graph {[""]}) as (_ & Hmap & _).
    split_and!; simpl.
    - intros key op' Hop' Hhome. fold r. subst r. rewrite Hmap.
      apply list_elem_of_filter. done.
    - intros key op'. fold r. subst r. rewrite Hmap.
      by intros [_ ?]%list_elem_of_filter.
    - intros k p. by rewrite lookup_empty.
    - intros key c op'. by rewrite lookup_empty. }
  assert (is_Some (as_graphbook_composite_map st !! home onnx_graph op)) as [c Hc].
  { destruct (assembler_result onnx_graph r.1 r.2 ∅ cvm) as [Hdom _]. apply Hdom.
    destruct (compile_composite_map_result onnx_graph {[""]}) as (Hnames & _ & _).
    unfold home, store_key. case_decide as Hpath.
    - exists "". split; [|done]. apply Hnames. left. by apply elem_of_singleton.
    - exists (op_composite_path op). split; [|by rewrite decide_False].
      apply Hnames. right. exists op. split; [done|]. split; [done|].
      exists (depth (op_composite_path op)). split; [|by rewrite scope_prefix_full].
      pose proof (length_split_pos (op_composite_path op)). unfold depth. lia. }
  destruct (Hgcm _ c op Hc Hop eq_refl) as [Hchild Hprim]. split; [done|].
  by exists c.
Qed.

(** On a graph whose operation names are all different, the assembler,
    when it returns, has put the conversion of every operation among
    the children of the composite of its scope and under its name in the
    primitive map. *)
Theorem assembly_places_operations onnx_graph cvm st op :
  NoDup (op_name <$> onnx_ops onnx_graph) →
  op ∈ onnx_ops onnx_graph →
  let r := _compile_onnx_composite_map onnx_graph {[""]} in
  _compile_graphbook_operations_from_composite_map onnx_graph r.1 r.2 ∅ cvm = Ok st →
  ∃ p,
    onnx_op_to_graphbook op = Ok p
    ∧ as_primitive_map st !! op_name op = Some p
    ∧ ∃ c, as_graphbook_composite_map st !! home onnx_graph op = Some c
           ∧ ChildPrimitive p ∈ Composite.operations c.
Proof.
  intros Hnd Hop r Hasm. exists (converted op).
  split; [by eapply assembler_converted|].
  rewrite (assembler_returns _ _ _ _ _ _ Hasm). by apply assembler_places.
Qed.

End IntraScopeAssembly.

Section IntraScopeRouting.

Import Py PyFacts.
Context {iteration : SetIteration}.
Implicit Types (onnx_graph : OnnxGraph) (op : OnnxOperation) (gcm : composite_store)
  (c : Composite) (link : OnnxLink) (pm : gmap string Primitive).

Lemma dict_get_elem {V} (k : string) (v : V) (d : list (string * V)) :
  dict_get k d = Some v → (k, v) ∈ d.
Proof.
  induction d as [|[k0 v0] d IH]; simpl; [done|].
  case_decide; [intros [= ->]; subst; by left|]. intros ?%IH. by right.
Qed.

Lemma route_links_extends onnx_graph pm composite_name gcm flats gcm' :
  for_each (route_link onnx_graph pm composite_name) gcm flats = Ok gcm' →
  store_extends gcm gcm'.
Proof.
  apply for_each_invariant;
    [apply store_extends_refl|apply store_extends_trans|apply route_link_extends].
Qed.

(** Every flat link of the link map is routed, in a store that extends
    the one routing started from and is extended by the one it ends
    with. *)
Lemma router_reaches onnx_graph gcm pm composite_link_map gcm' key flats link :
  _compile_links_between_composite_and_primitive onnx_graph gcm pm composite_link_map
  = Ok gcm' →
  (key, flats) ∈ composite_link_map → link ∈ flats →
  ∃ gcm1 gcm2,
    store_extends gcm gcm1
    ∧ route_link onnx_graph pm key gcm1 link = Ok gcm2
    ∧ store_extends gcm2 gcm'.
Proof.
  intros Hroute (clm1 & clm2 & ->)%list_elem_of_split (flats1 & flats2 & ->)%list_elem_of_split.
  unfold _compile_links_between_composite_and_primitive in Hroute.
  rewrite for_each_app in Hroute.
  apply bind_Ok_inv in Hroute as (gcm_a & Hbefore & Hroute).
  rewrite for_each_cons in Hroute.
  apply bind_Ok_inv in Hroute as (gcm_b & Hhere & Hafter).
  apply bind_Ok_inv in Hhere as (_ & _ & Hhere).
  rewrite for_each_app in Hhere.
  apply bind_Ok_inv in Hhere as (gcm1 & Hflats1 & Hhere).
  rewrite for_each_cons in Hhere.
  apply bind_Ok_inv in Hhere as (gcm2 & Hstep & Hflats2).
  exists gcm1, gcm2. split_and!; [|done|].
  - eapply store_extends_trans; [|by eapply route_links_extends].
    by eapply (router_extends onnx_graph gcm pm clm1).
  - eapply store_extends_trans; [by eapply route_links_extends|].
    by eapply (router_extends onnx_graph gcm_b pm clm2).
Qed.

(** In the composite map at the converter's [return], a link between
    two operations of the same scope is a direct link from the producer
    to the consumer in the composite of that scope, on a graph whose
    operation names are all different. *)
Lemma intra_scope_link_in_map onnx_graph gcm_r link src snk :
  NoDup (op_name <$> onnx_ops onnx_graph) →
  graphbook_composite_map_of onnx_graph = Ok gcm_r →
  link ∈ onnx_links onnx_graph →
  name_to_op_of onnx_graph !! link_source link = Some src →
  name_to_op_of onnx_graph !! link_sink link = Some snk →
  link_source link ≠ graph_name onnx_graph →
  link_sink link ≠ graph_name onnx_graph →
  link_var_name link ∉ graph_outputs onnx_graph →
  home onnx_graph src = home onnx_graph snk →
  ∃ c, gcm_r !! home onnx_graph snk = Some c
       ∧ direct_link link ∈ Composite.links c.
Proof.
  intros Hnd Hconv Hlink Hsrc Hsnk Hsource Hsink Hout Hhome.
  destruct (composite_map_stages _ _ Hconv)
    as (clm & cvm & gcm_w & Hmap & _ & Hwire & Hroute).
  (* the link is filed under the consumer's scope *)
  assert (filed_under onnx_graph (name_to_op_of onnx_graph) link
          = Some (home onnx_graph snk)) as Hfiled.
  { unfold filed_under, skipped. rewrite decide_False by done.
    rewrite (bool_decide_eq_false_2 (_ ∈ _)) by done. rewrite andb_false_r.
    by rewrite Hsnk. }
  destruct (compile_link_map_result onnx_graph ∅) as [_ Hfiling].
  destruct (Hfiling clm cvm Hmap) as (Hget & _ & _).
  assert (∃ flats, (home onnx_graph snk, flats) ∈ clm ∧ link ∈ flats) as (flats & Hkey & Hflat).
  { specialize (Hget (home onnx_graph snk)).
    destruct (dict_get (home onnx_graph snk) clm) as [flats|] eqn:Hd; simpl in Hget.
    - exists flats. split; [by apply dict_get_elem|].
      rewrite Hget. by apply list_elem_of_filter.
    - assert (link ∈ ([] : list OnnxLink)) as Hnil; [|by apply elem_of_nil in Hnil].
      rewrite Hget. by apply list_elem_of_filter. }
  destruct (router_reaches _ _ _ _ _ _ _ _ Hroute Hkey Hflat)
    as (gcm1 & gcm2 & Hext1 & Hstep & Hext2).
  (* the producer is a child of that composite *)
  destruct (name_to_op_elem _ _ _ Hsrc) as [Hsrc_op Hsrc_name].
  destruct (assembler_places onnx_graph cvm src Hnd Hsrc_op)
    as (Hprim & c_a & Hc_a & Hchild).
  rewrite Hsrc_name in Hprim. rewrite Hhome in Hc_a.
  apply wirer_extends in Hwire.
  destruct (Hwire _ _ Hc_a) as (c_w & Hc_w & _ & _ & _ & Hops_w).
  destruct (Hext1 _ _ Hc_w) as (c1 & Hc1 & _ & _ & _ & Hops1).
  assert (ChildPrimitive (converted src) ∈ Composite.operations c1) as Hchild1
    by by apply Hops1, Hops_w.
  (* so the router takes its first branch *)
  unfold route_link, getitem in Hstep.
  rewrite decide_False in Hstep by done.
  rewrite Hprim, Hc1 in Hstep. simpl in Hstep.
  rewrite decide_True in Hstep by done. injection Hstep as <-.
  pose proof (lookup_append_link_eq (home onnx_graph snk) (direct_link link) gcm1 c1 Hc1)
    as Hc2.
  destruct (Hext2 _ _ Hc2) as (c & Hc & _ & _ & Hlinks & _).
  exists c. split; [done|]. apply Hlinks. simpl. apply elem_of_app. right. by left.
Qed.

End IntraScopeRouting.

(** ** Type strings *)

Section TypeStrings.

Import Py PyFacts.

Lemma startswith_inv (s p : string) :
  startswith s p = true → ∃ post, s = p +:+ post.
Proof.
  unfold startswith. revert s. induction p as [|c p IH]; intros s.
  - intros _. by exists s.
  - destruct s as [|c' s]; [done|]. simpl. destruct (ascii_dec c c') as [<-|]; [|done].
    intros (post & ->)%IH. by exists post.
Qed.

Lemma str_contains_nil (pat : string) :
  str_contains pat "" = startswith "" pat || false.
Proof. done. Qed.

Lemma str_contains_cons (pat : string) c (s : string) :
  str_contains pat (String c s) = startswith (String c s) pat || str_contains pat s.
Proof. done. Qed.

Lemma str_contains_occurs (pat s : string) :
  str_contains pat s = true ↔ occurs_in pat s.
Proof.
  unfold occurs_in. split.
  - induction s as [|c s IH].
    + rewrite str_contains_nil, orb_false_r.
      intros (post & ->)%startswith_inv. by exists "", post.
    + rewrite str_contains_cons.
      intros [(post & Heq)%startswith_inv|Hrec]%orb_true_iff.
      * exists "", post. by rewrite Heq.
      * destruct (IH Hrec) as (pre & post & ->). by exists (String c pre), post.
  - intros (pre & post & ->). induction pre as [|c pre IH].
    + rewrite append_nil_l. destruct (pat +:+ post) as [|c s] eqn:Heq.
      * by rewrite str_contains_nil, <- Heq, startswith_append.
      * by rewrite str_contains_cons, <- Heq, startswith_append.
    + rewrite append_cons, str_contains_cons, IH. apply orb_true_r.
Qed.

(** The type classification goes by the first marker, in the order
    integer, decimal, text, boolean, that occurs anywhere in the string:
    the result is the integer type exactly when an integer marker
    occurs, the decimal type exactly when no integer marker and a
    decimal marker occurs, the text type exactly when neither occurs and
    the string marker does, the boolean type exactly when none of these
    occurs and the boolean marker does, and the null type exactly when
    no marker occurs. *)
Theorem type_from_str_markers (type_str : string) :
  let integer_marker := occurs_in "(int" type_str ∨ occurs_in "(uint" type_str in
  let decimal_marker :=
    occurs_in "(float" type_str ∨ occurs_in "(double" type_str
    ∨ occurs_in "(bfloat" type_str in
  let text_marker := occurs_in "(string" type_str in
  let boolean_marker := occurs_in "(bool" type_str in
  (_get_graphbook_type_from_str type_str = INTEGER ↔ integer_marker)
  ∧ (_get_graphbook_type_from_str type_str = DECIMAL
     ↔ ¬ integer_marker ∧ decimal_marker)
  ∧ (_get_graphbook_type_from_str type_str = TEXT
     ↔ ¬ integer_marker ∧ ¬ decimal_marker ∧ text_marker)
  ∧ (_get_graphbook_type_from_str type_str = BOOLEAN
     ↔ ¬ integer_marker ∧ ¬ decimal_marker ∧ ¬ text_marker ∧ boolean_marker)
  ∧ (_get_graphbook_type_from_str type_str = NULL
     ↔ ¬ integer_marker ∧ ¬ decimal_marker ∧ ¬ text_marker ∧ ¬ boolean_marker).
Proof.
  cbv zeta. unfold _get_graphbook_type_from_str. rewrite <- !str_contains_occurs.
  destruct (str_contains "(int" type_str), (str_contains "(uint" type_str),
    (str_contains "(float" type_str), (str_contains "(double" type_str),
    (str_contains "(bfloat" type_str), (str_contains "(string" type_str),
    (str_contains "(bool" type_str); simpl; intuition congruence.
Qed.

End TypeStrings.

(** ** Links that leave the graph *)

Section GraphOutputs.

Import Py PyFacts.
Context {iteration : SetIteration}.
Implicit Types (onnx_graph : OnnxGraph) (op : OnnxOperation) (gcm : composite_store)
  (c : Composite) (link : OnnxLink) (st : AssemblerState)
  (pm : gmap string Primitive) (cm : gmap string (list OnnxOperation)).

Lemma home_empty onnx_graph op :
  home onnx_graph op = "" → home onnx_graph op = graph_name onnx_graph.
Proof. unfold home. case_decide; [done|]. by intros ?. Qed.

Lemma assemble_composite_home onnx_graph key input_names output_names cm pm gcm visited :
  assembler_home_invariant onnx_graph
    {| as_composite_map := cm; as_primitive_map := pm;
       as_graphbook_composite_map := gcm; as_already_visited_root := visited |} →
  ∀ flag,
    assembler_home_invariant onnx_graph
      {| as_composite_map := cm;
         as_primitive_map := (assemble_composite_ok key input_names output_names cm pm gcm).1;
         as_graphbook_composite_map :=
           (assemble_composite_ok key input_names output_names cm pm gcm).2;
         as_already_visited_root := flag |}.
Proof.
  intros [Hcm Hgcm] flag.
  cbn [as_composite_map as_primitive_map as_graphbook_composite_map] in *.
  split; cbn [as_composite_map as_primitive_map as_graphbook_composite_map]; [done|].
  intros key' c p. rewrite assemble_composite_store.
  destruct (decide (key = key')) as [<-|Hne].
  - rewrite lookup_insert_eq. intros [= <-]. unfold assembled. simpl.
    intros (p' & [= <-] & ([k p''] & -> & Hin)%list_elem_of_fmap)%list_elem_of_fmap.
    destruct (cm !! key) as [ops|] eqn:Hops; [|by apply elem_of_nil in Hin].
    apply elem_of_this_primitive_of in Hin as (op & Hop & _ & ->).
    exists op. destruct (Hcm key op) as [? ?]; [by rewrite Hops|done].
  - rewrite lookup_insert_ne by done. apply Hgcm.
Qed.

Lemma assemble_step_home onnx_graph cvm st name :
  assembler_home_invariant onnx_graph st →
  assembler_home_invariant onnx_graph (assemble_step_ok onnx_graph cvm st name).
Proof.
  intros Hinv. unfold assemble_step_ok. case_decide as Hname.
  - destruct (as_already_visited_root st) eqn:Hvisited; [done|].
    set (cm1 := if decide (is_Some (as_composite_map st !! graph_name onnx_graph))
                then as_composite_map st
                else <[graph_name onnx_graph := []]> (as_composite_map st)).
    set (cm2 := match cm1 !! name with
                | Some ops =>
                    <[graph_name onnx_graph :=
                        default [] (cm1 !! graph_name onnx_graph) ++ ops]> cm1
                | None => cm1
                end).
    assert (∀ key, default [] (cm1 !! key) = default [] (as_composite_map st !! key)) as Hcm1.
    { intros key. subst cm1. case_decide as Hsome; [done|].
      destruct (decide (graph_name onnx_graph = key)) as [<-|Hne].
      - rewrite lookup_insert_eq. simpl.
        destruct (as_composite_map st !! graph_name onnx_graph) eqn:Hcm; [|done].
        destruct Hsome. eauto.
      - by rewrite lookup_insert_ne. }
    destruct Hinv as [Hcm Hgcm].
    assert (assembler_home_invariant onnx_graph
              {| as_composite_map := cm2; as_primitive_map := as_primitive_map st;
                 as_graphbook_composite_map := as_graphbook_composite_map st;
                 as_already_visited_root := false |}) as Hinv2.
    { split; simpl; [|done]. intros key op. subst cm2.
      destruct (cm1 !! name) as [ops|] eqn:Hroot_ops.
      - destruct (decide (graph_name onnx_graph = key)) as [<-|Hne].
        + rewrite lookup_insert_eq. simpl. intros [Hop|Hop]%elem_of_app.
          * apply Hcm. by rewrite <- Hcm1.
          * destruct (Hcm name op) as [Hknown Hhome].
            { by rewrite <- Hcm1, Hroot_ops. }
            split; [done|]. subst name. by apply home_empty.
        + rewrite lookup_insert_ne by done. rewrite Hcm1. apply Hcm.
      - rewrite Hcm1. apply Hcm. }
    pose proof (assemble_composite_home onnx_graph (graph_name onnx_graph)
                  (graph_inputs onnx_graph) (graph_outputs onnx_graph) cm2
                  (as_primitive_map st) (as_graphbook_composite_map st) false Hinv2 true)
      as Hdone.
    fold cm1. fold cm2.
    by destruct (assemble_composite_ok (graph_name onnx_graph) _ _ cm2 _ _).
  - destruct st as [cm pm gcm visited].
    cbn [as_composite_map as_primitive_map as_graphbook_composite_map
         as_already_visited_root]. cbv zeta.
    pose proof (assemble_composite_home onnx_graph name
                  (default [] (default ∅ (cvm !! name) !! INPUT))
                  (default [] (default ∅ (cvm !! name) !! OUTPUT))
                  cm pm gcm visited Hinv visited) as Hdone.
    by destruct (assemble_composite_ok name _ _ cm pm gcm).
Qed.

(** After assembly, the primitive children of a composite are the
    conversions of operations whose home is the composite's key. *)
Lemma assembly_primitive_children onnx_graph cvm key c p :
  let r := _compile_onnx_composite_map onnx_graph {[""]} in
  let st := assembler_ok onnx_graph r.1 r.2 ∅ cvm in
  as_graphbook_composite_map st !! key = Some c →
  ChildPrimitive p ∈ Composite.operations c →
  ∃ op, op ∈ onnx_ops onnx_graph ∧ home onnx_graph op = key ∧ p = converted op.
Proof.
  intros r st.
  assert (assembler_home_invariant onnx_graph st) as [_ Hgcm]; [|by apply Hgcm].
  subst st. unfold assembler_ok.
  match goal with
  | |- assembler_home_invariant _ (foldl _ ?st0 ?names_list) =>
      assert (assembler_home_invariant onnx_graph st0) as Hinit;
      [|generalize Hinit; generalize st0; induction names_list as [|name rest IH];
        [done|intros st1 Hst1; simpl; by apply IH, assemble_step_home]]
  end.
  destruct (compile_composite_map_result onnx_graph {[""]}) as (_ & Hmap & _).
  split; simpl.
  - intros key' op. fold r. subst r. rewrite Hmap. by intros [? ?]%list_elem_of_filter.
  - intros key' c' p'. by rewrite lookup_empty.
Qed.

(** Wiring adds nested composites only: the primitive children of a
    composite are those it had. *)
Lemma wirer_primitive_children onnx_graph gcm names_list gcm' key c' p :
  for_each (wire_step onnx_graph) gcm names_list = Ok gcm' →
  gcm' !! key = Some c' → ChildPrimitive p ∈ Composite.operations c' →
  ∃ c, gcm !! key = Some c ∧ ChildPrimitive p ∈ Composite.operations c.
Proof.
  revert gcm. induction names_list as [|name rest IH]; intros gcm.
  - intros [= <-] Hc' Hp. by exists c'.
  - rewrite for_each_cons. intros (gcm1 & Hstep & Hrest)%bind_Ok_inv Hc' Hp.
    destruct (IH gcm1 Hrest Hc' Hp) as (c1 & Hc1 & Hp1). clear IH Hrest.
    revert Hstep. unfold wire_step, getitem.
    case_decide; [intros [= <-]; by exists c1|].
    case_decide; [intros [= <-]; by exists c1|].
    destruct (gcm !! name) as [sub_op|]; [|done]. simpl.
    destruct (gcm !! parent_name_of onnx_graph name) as [parent|] eqn:Hparent; [|done].
    simpl. intros [= <-].
    destruct (decide (parent_name_of onnx_graph name = key)) as [<-|Hne].
    + rewrite lookup_insert_eq in Hc1. injection Hc1 as <-. exists parent. split; [done|].
      simpl in Hp1. apply elem_of_app in Hp1 as [?|Hp1]; [done|].
      by apply list_elem_of_singleton in Hp1.
    + rewrite lookup_insert_ne in Hc1 by done. by exists c1.
Qed.

Lemma links_appended_lookup P gcm gcm' key c' :
  links_appended P gcm gcm' → gcm' !! key = Some c' →
  ∃ c, gcm !! key = Some c
       ∧ Composite.operations c' = Composite.operations c
       ∧ Composite.outputs c' = Composite.outputs c
       ∧ Composite.inputs c' = Composite.inputs c.
Proof.
  intros Happ Hc'. specialize (Happ key). rewrite Hc' in Happ.
  inversion Happ as [c ? (new & -> & _)|]. by exists c.
Qed.

Lemma links_appended_lookup_fwd P gcm gcm' key c :
  links_appended P gcm gcm' → gcm !! key = Some c →
  ∃ c', gcm' !! key = Some c'
        ∧ Composite.operations c' = Composite.operations c
        ∧ Composite.outputs c' = Composite.outputs c
        ∧ Composite.inputs c' = Composite.inputs c.
Proof.
  intros Happ Hc. specialize (Happ key). rewrite Hc in Happ.
  inversion Happ as [? c' (new & -> & _)|]. by exists (set_links c (Composite.links c ++ new)).
Qed.

(** The variable of a link that ends at the graph is, once the link map
    is compiled, a required output of the producer's scope. *)
Lemma link_map_declares_graph_output onnx_graph name_to_op clm cvm link src :
  _compile_onnx_composite_link_map onnx_graph name_to_op ∅ = Ok (clm, cvm) →
  link ∈ onnx_links onnx_graph →
  link_sink link = graph_name onnx_graph →
  name_to_op !! link_source link = Some src →
  op_composite_path src ≠ "" →
  link_var_name link ∈ required OUTPUT (op_composite_path src) cvm.
Proof.
  unfold _compile_onnx_composite_link_map.
  intros Hmap (l1 & l2 & Hlinks)%list_elem_of_split Hsink Hsrc Hpath.
  rewrite Hlinks, for_each_app in Hmap.
  apply bind_Ok_inv in Hmap as ([clm1 cvm1] & _ & Hmap).
  rewrite for_each_cons, (link_map_step_to_boundary _ _ _ src) in Hmap by done.
  rewrite bind_Ok in Hmap.
  apply compile_link_map_adds in Hmap as (adds & Hcvm & _). simpl in Hcvm. subst cvm.
  eapply elem_of_prefix; [|apply required_run_adds_prefix].
  rewrite calculate_targets, targets_upstream by done.
  apply apply_adds_elem_of, elem_of_prefix_keys. split; [done|].
  pose proof (length_split_pos (op_composite_path src)).
  exists (depth (op_composite_path src) - 1). unfold depth. split.
  - apply elem_of_range. lia.
  - replace (length (split (op_composite_path src)) - 1 + 1)
      with (length (split (op_composite_path src))) by lia.
    by rewrite firstn_all, join_split.
Qed.

Lemma names_of_Variable_named (l : list string) : names_of (Variable_named <$> l) = l.
Proof. unfold names_of. rewrite <- list_fmap_compose. apply list_fmap_id. Qed.

Lemma enclosing_scope_of_name (path seg : string) :
  is_segment seg →
  join (but_last (split (path +:+ String FORWARD_SLASH seg))) = path.
Proof.
  intros Hseg. rewrite split_app_slash, Hseg. unfold but_last.
  rewrite length_app. simpl.
  replace (length (split path) + 1 - 1) with (length (split path)) by lia.
  by rewrite take_app_length, join_split.
Qed.

(** Routing one link that leaves the graph. *)
Lemma route_graph_output_link onnx_graph clm cvm gcm_w gcm link src seg :
  NoDup (op_name <$> onnx_ops onnx_graph) →
  _compile_onnx_composite_link_map onnx_graph (name_to_op_of onnx_graph) ∅ = Ok (clm, cvm) →
  let r := _compile_onnx_composite_map onnx_graph {[""]} in
  let st := assembler_ok onnx_graph r.1 r.2 ∅ cvm in
  _compile_links_between_composite onnx_graph (as_graphbook_composite_map st) r.2
  = Ok gcm_w →
  links_appended (fun _ => True) gcm_w gcm →
  link ∈ onnx_links onnx_graph →
  link_sink link = graph_name onnx_graph →
  link_source link ≠ graph_name onnx_graph →
  name_to_op_of onnx_graph !! link_source link = Some src →
  op_composite_path src ≠ "" →
  op_composite_path src ≠ graph_name onnx_graph →
  op_name src = op_composite_path src +:+ String FORWARD_SLASH seg →
  is_segment seg →
  route_link onnx_graph (as_primitive_map st) (graph_name onnx_graph) gcm link
  = Ok (append_link (op_composite_path src)
          (output_boundary_link (op_name src) (link_var_name link)) gcm).
Proof.
  intros Hnd Hmap r st Hwire Happ Hlink Hsink Hsource Hsrc Hpath Hnot_root Hname Hseg.
  destruct (name_to_op_elem _ _ _ Hsrc) as [Hsrc_op Hsrc_name].
  destruct (assembler_places onnx_graph cvm src Hnd Hsrc_op) as (Hprim & _).
  fold r st in Hprim. rewrite Hsrc_name in Hprim.
  assert (home onnx_graph src = op_composite_path src) as Hhome.
  { unfold home. by rewrite decide_False. }
  destruct (assembler_result onnx_graph r.1 r.2 ∅ cvm) as [Hdom_a Hshape].
  fold st in Hdom_a, Hshape. simpl in Hdom_a, Hshape.
  destruct (wirer_result onnx_graph ∅ cvm) as (gcm_w' & Hwire' & Hdom_w & Hroot_w).
  fold r st in Hwire'. simpl in Hwire'. rewrite Hwire in Hwire'. injection Hwire' as <-.
  (* the root and what it holds *)
  destruct Hroot_w as [root_w Hroot_w].
  destruct (links_appended_lookup_fwd _ _ _ _ _ Happ Hroot_w) as (root & Hroot & Hops & _).
  assert (ChildPrimitive (converted src) ∉ Composite.operations root) as Hchild.
  { rewrite Hops. intros Hin.
    destruct (wirer_primitive_children _ _ _ _ _ _ _ Hwire Hroot_w Hin) as (root_a & Hroot_a & Hin_a).
    destruct (assembly_primitive_children onnx_graph cvm _ _ _ Hroot_a Hin_a)
      as (op & Hop & Hop_home & Heq).
    assert (op = src) as ->.
    { eapply op_name_inj; [done..|]. by apply (f_equal prim_name) in Heq. }
    congruence. }
  (* the producer's scope and its declared outputs *)
  assert (is_Some (gcm_w !! op_composite_path src)) as [next_w Hnext_w].
  { apply Hdom_w. exists (op_composite_path src). split.
    - destruct (compile_composite_map_result onnx_graph {[""]}) as (Hnames & _ & _).
      apply Hnames. right. exists src. split; [done|]. split; [done|].
      exists (depth (op_composite_path src)). split; [|by rewrite scope_prefix_full].
      pose proof (length_split_pos (op_composite_path src)). unfold depth. lia.
    - unfold store_key. by rewrite decide_False. }
  destruct (links_appended_lookup_fwd _ _ _ _ _ Happ Hnext_w) as (next & Hnext & _ & Houts & _).
  assert (link_var_name link ∈ names_of (Composite.outputs next)) as Hdeclared.
  { assert (is_Some (as_graphbook_composite_map st !! op_composite_path src)) as [next_a Hnext_a].
    { apply Hdom_a. by apply Hdom_w. }
    destruct (Hshape _ _ Hnext_a) as (_ & _ & _ & _ & _ & Hio).
    destruct (Hio Hnot_root) as [_ Houts_a].
    apply wirer_extends in Hwire.
    destruct (Hwire _ _ Hnext_a) as (next_w' & Hnext_w' & _ & Houts_w & _).
    rewrite Hnext_w in Hnext_w'. injection Hnext_w' as <-.
    rewrite Houts, Houts_w, Houts_a, names_of_Variable_named.
    by eapply link_map_declares_graph_output. }
  assert (join (but_last (split (op_name src))) = op_composite_path src) as Hscope.
  { rewrite Hname at 1. by apply enclosing_scope_of_name. }
  unfold route_link, getitem.
  rewrite decide_False by done. rewrite Hprim, Hroot. simpl.
  rewrite decide_False by done. rewrite decide_True by done.
  rewrite !Hscope, Hnext. simpl. by rewrite decide_True.
Qed.

(** The router's declared-output check cannot fail on a link that leaves
    the graph from a producer nested in a scope and named after it: in
    every store routing can be in, the link is routed, as a link from the
    producer to the ["this"] boundary of the producer's scope. *)
Theorem router_accepts_graph_output_link onnx_graph clm cvm st gcm_w gcm link src seg :
  NoDup (op_name <$> onnx_ops onnx_graph) →
  _compile_onnx_composite_link_map onnx_graph (name_to_op_of onnx_graph) ∅ = Ok (clm, cvm) →
  let r := _compile_onnx_composite_map onnx_graph {[""]} in
  _compile_graphbook_operations_from_composite_map onnx_graph r.1 r.2 ∅ cvm = Ok st →
  _compile_links_between_composite onnx_graph (as_graphbook_composite_map st) r.2
  = Ok gcm_w →
  links_appended (fun _ => True) gcm_w gcm →
  link ∈ onnx_links onnx_graph →
  link_sink link = graph_name onnx_graph →
  link_source link ≠ graph_name onnx_graph →
  name_to_op_of onnx_graph !! link_source link = Some src →
  op_composite_path src ≠ "" →
  op_composite_path src ≠ graph_name onnx_graph →
  op_name src = op_composite_path src +:+ String FORWARD_SLASH seg →
  is_segment seg →
  route_link onnx_graph (as_primitive_map st) (graph_name onnx_graph) gcm link
  = Ok (append_link (op_composite_path src)
          (output_boundary_link (op_name src) (link_var_name link)) gcm).
Proof.
  intros Hnd Hmap r Hasm. apply assembler_returns in Hasm as ->.
  by apply (route_graph_output_link onnx_graph clm).
Qed.

Lemma route_links_appended onnx_graph pm composite_name gcm flats gcm' :
  for_each (route_link onnx_graph pm composite_name) gcm flats = Ok gcm' →
  links_appended (fun _ => True) gcm gcm'.
Proof.
  revert gcm. induction flats as [|flat flats IH]; intros gcm.
  - intros [= <-]. apply links_appended_refl.
  - rewrite for_each_cons. intros (gcm1 & Hstep & Hrest)%bind_Ok_inv.
    eapply links_appended_trans; [|by apply IH].
    apply route_link_appends in Hstep as [->|(_ & k & l & -> & _)].
    + apply links_appended_refl.
    + by apply links_appended_append_link.
Qed.

Lemma router_reaches_appended onnx_graph gcm pm composite_link_map gcm' key flats link :
  _compile_links_between_composite_and_primitive onnx_graph gcm pm composite_link_map
  = Ok gcm' →
  (key, flats) ∈ composite_link_map → link ∈ flats →
  ∃ gcm1 gcm2,
    links_appended (fun _ => True) gcm gcm1
    ∧ route_link onnx_graph pm key gcm1 link = Ok gcm2
    ∧ store_extends gcm2 gcm'.
Proof.
  intros Hroute (clm1 & clm2 & ->)%list_elem_of_split (flats1 & flats2 & ->)%list_elem_of_split.
  unfold _compile_links_between_composite_and_primitive in Hroute.
  rewrite for_each_app in Hroute.
  apply bind_Ok_inv in Hroute as (gcm_a & Hbefore & Hroute).
  rewrite for_each_cons in Hroute.
  apply bind_Ok_inv in Hroute as (gcm_b & Hhere & Hafter).
  apply bind_Ok_inv in Hhere as (_ & _ & Hhere).
  rewrite for_each_app in Hhere.
  apply bind_Ok_inv in Hhere as (gcm1 & Hflats1 & Hhere).
  rewrite for_each_cons in Hhere.
  apply bind_Ok_inv in Hhere as (gcm2 & Hstep & Hflats2).
  exists gcm1, gcm2. split_and!; [|done|].
  - eapply links_appended_trans; [|by eapply route_links_appended].
    eapply links_appended_impl;
      [|by eapply (router_appends onnx_graph gcm pm clm1)]. done.
  - eapply store_extends_trans; [by eapply route_links_extends|].
    by eapply (router_extends onnx_graph gcm_b pm clm2).
Qed.

(** In the composite map at the converter's [return], a link that
    leaves the graph from a producer nested in a scope and named after
    it is, on a graph whose operation names are all different, a link
    from the producer to the ["this"] boundary in the composite of the
    producer's scope. *)
Lemma graph_output_link_in_map onnx_graph gcm_r link src seg :
  NoDup (op_name <$> onnx_ops onnx_graph) →
  graphbook_composite_map_of onnx_graph = Ok gcm_r →
  link ∈ onnx_links onnx_graph →
  link_sink link = graph_name onnx_graph →
  link_source link ≠ graph_name onnx_graph →
  name_to_op_of onnx_graph !! link_source link = Some src →
  op_composite_path src ≠ "" →
  op_composite_path src ≠ graph_name onnx_graph →
  op_name src = op_composite_path src +:+ String FORWARD_SLASH seg →
  is_segment seg →
  ∃ c, gcm_r !! op_composite_path src = Some c
       ∧ output_boundary_link (op_name src) (link_var_name link) ∈ Composite.links c.
Proof.
  intros Hnd Hconv Hlink Hsink Hsource Hsrc Hpath Hnot_root Hname Hseg.
  destruct (composite_map_stages _ _ Hconv)
    as (clm & cvm & gcm_w & Hmap & _ & Hwire & Hroute).
  assert (filed_under onnx_graph (name_to_op_of onnx_graph) link
          = Some (graph_name onnx_graph)) as Hfiled.
  { unfold filed_under. by rewrite decide_True. }
  destruct (compile_link_map_result onnx_graph ∅) as [_ Hfiling].
  destruct (Hfiling clm cvm Hmap) as (Hget & _ & _).
  assert (∃ flats, (graph_name onnx_graph, flats) ∈ clm ∧ link ∈ flats)
    as (flats & Hkey & Hflat).
  { specialize (Hget (graph_name onnx_graph)).
    destruct (dict_get (graph_name onnx_graph) clm) as [flats|] eqn:Hd; simpl in Hget.
    - exists flats. split; [by apply dict_get_elem|].
      rewrite Hget. by apply list_elem_of_filter.
    - assert (link ∈ ([] : list OnnxLink)) as Hnil; [|by apply elem_of_nil in Hnil].
      rewrite Hget. by apply list_elem_of_filter. }
  destruct (router_reaches_appended _ _ _ _ _ _ _ _ Hroute Hkey Hflat)
    as (gcm1 & gcm2 & Happ & Hstep & Hext).
  rewrite (route_graph_output_link onnx_graph clm cvm gcm_w gcm1 link src seg)
    in Hstep by done.
  injection Hstep as <-.
  assert (is_Some (gcm1 !! op_composite_path src)) as [next Hnext].
  { destruct (wirer_result onnx_graph ∅ cvm) as (gcm_w' & Hwire' & Hdom_w & _).
    simpl in Hwire'. rewrite Hwire in Hwire'. injection Hwire' as <-.
    assert (is_Some (gcm_w !! op_composite_path src)) as [next_w Hnext_w].
    { apply Hdom_w. exists (op_composite_path src). split.
      - destruct (compile_composite_map_result onnx_graph {[""]}) as (Hnames & _ & _).
        apply Hnames. right. destruct (name_to_op_elem _ _ _ Hsrc) as [Hsrc_op _].
        exists src. split; [done|]. split; [done|].
        exists (depth (op_composite_path src)). split; [|by rewrite scope_prefix_full].
        pose proof (length_split_pos (op_composite_path src)). unfold depth. lia.
      - unfold store_key. by rewrite decide_False. }
    destruct (links_appended_lookup_fwd _ _ _ _ _ Happ Hnext_w) as (next & Hnext & _).
    eauto. }
  pose proof (lookup_append_link_eq (op_composite_path src)
                (output_boundary_link (op_name src) (link_var_name link)) gcm1 next Hnext)
    as Hnext2.
  destruct (Hext _ _ Hnext2) as (c & Hc & _ & _ & Hlinks & _).
  exists c. split; [done|]. apply Hlinks. simpl. apply elem_of_app. right. by left.
Qed.

End GraphOutputs.

(** ** Which composites nest in which *)

Section Nesting.

Import Py PyFacts.
Context {iteration : SetIteration}.
Implicit Types (onnx_graph : OnnxGraph) (gcm : composite_store) (c : Composite).

Lemma wire_step_nests onnx_graph visited gcm name gcm' :
  nests onnx_graph visited gcm →
  wire_step onnx_graph gcm name = Ok gcm' →
  nests onnx_graph (visited ++ [name]) gcm'.
Proof.
  intros Hnests. unfold wire_step, getitem.
  case_decide as Hroot.
  { intros [= <-] key c name' Hc. rewrite (Hnests key c name' Hc), elem_of_app.
    rewrite list_elem_of_singleton. split; [tauto|].
    intros ([Hin|Heq] & Hne & Hrest); [tauto|]. subst name'. done. }
  case_decide as Hshallow.
  { intros [= <-] key c name' Hc. rewrite (Hnests key c name' Hc), elem_of_app.
    rewrite list_elem_of_singleton. split; [tauto|].
    intros ([Hin|Heq] & Hne & Hdepth & Hparent); [tauto|]. subst name'.
    unfold depth in Hdepth. lia. }
  destruct (gcm !! name) as [sub_op|]; [|done]. simpl.
  destruct (gcm !! parent_name_of onnx_graph name) as [parent|] eqn:Hparent; [|done].
  simpl. intros [= <-] key c name' Hc.
  rewrite elem_of_app, list_elem_of_singleton.
  destruct (decide (parent_name_of onnx_graph name = key)) as [<-|Hne].
  - rewrite lookup_insert_eq in Hc. injection Hc as <-. simpl.
    rewrite elem_of_app, list_elem_of_singleton, (Hnests _ parent name' Hparent).
    split.
    + intros [(Hin & Hrest)|[= ->]]; [tauto|].
      split; [by right|]. split; [done|]. split; [unfold depth; lia|done].
    + intros ([Hin|Heq] & Hrest); [left; tauto|]. right. by subst name'.
  - rewrite lookup_insert_ne in Hc by done. rewrite (Hnests key c name' Hc).
    split; [tauto|]. intros ([Hin|Heq] & Hrest); [tauto|]. subst name'. tauto.
Qed.

Lemma wirer_nests onnx_graph names_list visited gcm gcm' :
  nests onnx_graph visited gcm →
  for_each (wire_step onnx_graph) gcm names_list = Ok gcm' →
  nests onnx_graph (visited ++ names_list) gcm'.
Proof.
  revert visited gcm. induction names_list as [|name rest IH]; intros visited gcm Hnests.
  - intros [= <-]. by rewrite app_nil_r.
  - rewrite for_each_cons. intros (gcm1 & Hstep & Hrest)%bind_Ok_inv.
    rewrite (cons_middle name), app_assoc. eapply IH; [|done].
    by eapply wire_step_nests.
Qed.

(** In the composite map at the converter's [return], the composites
    nested in a composite are exactly the discovered scopes of depth at
    least 2 whose enclosing scope it is. *)
Lemma nested_composites_in_map onnx_graph gcm_r key c name :
  graphbook_composite_map_of onnx_graph = Ok gcm_r →
  gcm_r !! key = Some c →
  (ChildComposite name ∈ Composite.operations c
   ↔ name ∈ (_compile_onnx_composite_map onnx_graph {[""]}).2
     ∧ name ≠ graph_name onnx_graph ∧ 1 < depth name
     ∧ parent_name_of onnx_graph name = key).
Proof.
  intros Hconv Hc.
  destruct (composite_map_stages _ _ Hconv)
    as (clm & cvm & gcm_w & Hmap & _ & Hwire & Hroute).
  apply router_appends in Hroute.
  destruct (links_appended_lookup _ _ _ _ _ Hroute Hc) as (c_w & Hc_w & -> & _).
  set (r := _compile_onnx_composite_map onnx_graph {[""]}) in *.
  set (st := assembler_ok onnx_graph r.1 r.2 ∅ cvm) in *.
  assert (nests onnx_graph [] (as_graphbook_composite_map st)) as Hinit.
  { intros key' c' name' Hc'.
    destruct (assembler_result onnx_graph r.1 r.2 ∅ cvm) as [_ Hshape].
    destruct (Hshape key' c' Hc') as (_ & _ & _ & _ & Hprims & _).
    split.
    - intros [p Hp]%Hprims. done.
    - intros [Hin _]. by apply elem_of_nil in Hin. }
  pose proof (wirer_nests _ _ _ _ _ Hinit Hwire key c_w name Hc_w) as Hnests.
  rewrite Hnests. simpl. by rewrite elem_of_set_iter.
Qed.

End Nesting.

(** ** Graphs without scopes *)

Section ScopeFree.

Import Py PyFacts.
Context {iteration : SetIteration}.
Implicit Types (onnx_graph : OnnxGraph) (op : OnnxOperation) (gcm : composite_store)
  (c : Composite) (link : OnnxLink) (pm : gmap string Primitive)
  (ops : list OnnxOperation).

Lemma dict_set_fresh {V} (k : string) (v : V) (d : list (string * V)) :
  k ∉ d.*1 → Dict.set k v d = d ++ [(k, v)].
Proof.
  induction d as [|[k0 v0] d IH]; simpl; [done|]. intros Hk.
  rewrite decide_False.
  - rewrite IH; [done|]. intros Hin. apply Hk. by right.
  - intros ->. apply Hk. by left.
Qed.

Lemma dict_set_same {V} (k : string) (v : V) (d : list (string * V)) :
  NoDup d.*1 → (k, v) ∈ d → Dict.set k v d = d.
Proof.
  induction d as [|[k0 v0] d IH]; simpl; [by intros _ ?%elem_of_nil|].
  intros [Hk0 Hnd]%NoDup_cons [Heq|Hin]%elem_of_cons.
  - injection Heq as -> ->. by rewrite decide_True.
  - rewrite decide_False; [by rewrite IH|]. intros ->. apply Hk0.
    apply list_elem_of_fmap. by exists (k0, v).
Qed.

Lemma this_primitive_fold_fresh ops (d : list (string * Primitive)) :
  NoDup (d.*1 ++ (op_name <$> ops)) →
  foldl (fun acc onnx_op => Dict.set (op_name onnx_op) (converted onnx_op) acc)
        d ops
  = d ++ (named_primitive <$> ops).
Proof.
  revert d. induction ops as [|op ops IH]; intros d; simpl; [intros _; by rewrite app_nil_r|].
  intros Hnd. rewrite dict_set_fresh.
  - rewrite IH; [by rewrite <- app_assoc|].
    rewrite fmap_app. simpl. by rewrite <- app_assoc.
  - apply NoDup_app in Hnd as (_ & Hdisj & _). intros Hin. apply (Hdisj _ Hin). by left.
Qed.

Lemma this_primitive_fold_same ops (d : list (string * Primitive)) :
  NoDup d.*1 → (∀ op, op ∈ ops → named_primitive op ∈ d) →
  foldl (fun acc onnx_op => Dict.set (op_name onnx_op) (converted onnx_op) acc)
        d ops
  = d.
Proof.
  intros Hnd. induction ops as [|op ops IH]; simpl; [done|]. intros Hin.
  rewrite dict_set_same; [|done|apply (Hin op); by left].
  apply IH. intros op' Hop'. apply Hin. by right.
Qed.

(** With names all different, the dict comprehension lists the
    operations as they come, and filing some of them twice changes
    nothing. *)
Lemma this_primitive_of_again ops ops' :
  NoDup (op_name <$> ops) → (∀ op, op ∈ ops' → op ∈ ops) →
  this_primitive_ok (ops ++ ops') = named_primitive <$> ops.
Proof.
  intros Hnd Hsub. unfold this_primitive_ok. rewrite foldl_app.
  rewrite (this_primitive_fold_fresh ops []) by done. simpl.
  apply this_primitive_fold_same.
  - by rewrite <- list_fmap_compose.
  - intros op Hop. apply list_elem_of_fmap. exists op. split; [done|by apply Hsub].
Qed.

Lemma set_iter_singleton (x : string) : set_iter {[x]} = [x].
Proof.
  apply Permutation_singleton_r. rewrite set_iter_perm. by rewrite elements_singleton.
Qed.

Lemma scope_free_home onnx_graph op :
  scope_free onnx_graph → op ∈ onnx_ops onnx_graph →
  home onnx_graph op = graph_name onnx_graph.
Proof. intros Hfree Hop. unfold home. by rewrite decide_True by by apply Hfree. Qed.

Lemma scope_free_names onnx_graph :
  scope_free onnx_graph → (_compile_onnx_composite_map onnx_graph {[""]}).2 = {[""]}.
Proof.
  intros Hfree. destruct (compile_composite_map_result onnx_graph {[""]}) as (Hnames & _).
  apply set_eq. intros x. rewrite Hnames. split; [|by left].
  intros [?|(op & Hop & Hpath & _)]; [done|]. destruct Hpath. by apply Hfree.
Qed.

Lemma filter_all {A} (P : A → Prop) `{∀ x, Decision (P x)} (l : list A) :
  (∀ x, x ∈ l → P x) → filter P l = l.
Proof.
  induction l as [|x l IH]; [done|]. intros Hall.
  rewrite filter_cons_True by (apply Hall; by left).
  rewrite IH; [done|]. intros y Hy. apply Hall. by right.
Qed.

Lemma filter_ext_in {A} (P Q : A → Prop) `{∀ x, Decision (P x)} `{∀ x, Decision (Q x)}
    (l : list A) :
  (∀ x, x ∈ l → (P x ↔ Q x)) → filter P l = filter Q l.
Proof.
  induction l as [|x l IH]; [done|]. intros Hall.
  assert (filter P l = filter Q l) as Hrest.
  { apply IH. intros y Hy. apply Hall. by right. }
  destruct (decide (P x)) as [HP|HP].
  - rewrite !filter_cons_True; [by rewrite Hrest|by apply Hall; [left|]|done].
  - rewrite !filter_cons_False; [done| |done]. intros HQ. apply HP, Hall; [by left|done].
Qed.

(** Assembly of a graph without scopes: one composite, under the graph's
    name, with the operations in their order and the graph's interface. *)
Lemma scope_free_assembly onnx_graph cvm :
  NoDup (op_name <$> onnx_ops onnx_graph) → scope_free onnx_graph →
  let r := _compile_onnx_composite_map onnx_graph {[""]} in
  as_graphbook_composite_map
    (assembler_ok onnx_graph r.1 r.2 ∅ cvm)
  = {[ graph_name onnx_graph := flat_composite onnx_graph [] ]}.
Proof.
  intros Hnd Hfree r.
  destruct (compile_composite_map_result onnx_graph {[""]}) as (_ & Hmap & _).
  fold r in Hmap. unfold assembler_ok.
  subst r. rewrite scope_free_names, set_iter_singleton by done. cbn [foldl].
  set (r := _compile_onnx_composite_map onnx_graph {[""]}) in *.
  unfold assemble_step_ok. rewrite decide_True by done.
  cbn [as_composite_map as_primitive_map as_graphbook_composite_map
       as_already_visited_root].
  set (cm1 := if decide (is_Some (r.1 !! graph_name onnx_graph)) then r.1
              else <[graph_name onnx_graph := []]> r.1).
  set (cm2 := match cm1 !! "" with
              | Some ops =>
                  <[graph_name onnx_graph :=
                      default [] (cm1 !! graph_name onnx_graph) ++ ops]> cm1
              | None => cm1
              end).
  assert (∀ key, default [] (cm1 !! key) = default [] (r.1 !! key)) as Hcm1.
  { intros key. subst cm1. case_decide as Hsome; [done|].
    destruct (decide (graph_name onnx_graph = key)) as [<-|Hne].
    - rewrite lookup_insert_eq. simpl.
      destruct (r.1 !! graph_name onnx_graph) eqn:Hcm; [|done].
      destruct Hsome. eauto.
    - by rewrite lookup_insert_ne. }
  assert (is_Some (cm1 !! graph_name onnx_graph)) as Hroot.
  { subst cm1. case_decide; [done|]. rewrite lookup_insert_eq. eauto. }
  assert (default [] (r.1 !! graph_name onnx_graph) = onnx_ops onnx_graph) as Hall.
  { rewrite Hmap. apply filter_all. intros op Hop. by apply scope_free_home. }
  assert (∃ ops', cm2 !! graph_name onnx_graph = Some (onnx_ops onnx_graph ++ ops')
                  ∧ ∀ op, op ∈ ops' → op ∈ onnx_ops onnx_graph) as (ops' & Hcm2 & Hsub).
  { subst cm2. destruct (cm1 !! "") as [ops''|] eqn:Hempty.
    - exists ops''. rewrite lookup_insert_eq, Hcm1, Hall. split; [done|].
      intros op Hop. assert (op ∈ default [] (cm1 !! "")) as Hin by by rewrite Hempty.
      rewrite Hcm1, Hmap in Hin. by apply list_elem_of_filter in Hin as [_ ?].
    - exists []. rewrite app_nil_r. split; [|by intros ? ?%elem_of_nil].
      destruct Hroot as [ops Hops]. specialize (Hcm1 (graph_name onnx_graph)).
      rewrite Hops, Hall in Hcm1. simpl in Hcm1. by rewrite Hops, Hcm1. }
  pose proof (assemble_composite_store (graph_name onnx_graph) (graph_inputs onnx_graph)
                (graph_outputs onnx_graph) cm2 ∅ ∅) as Hstore.
  destruct (assemble_composite_ok (graph_name onnx_graph) _ _ cm2 ∅ ∅) as [pm gcm].
  simpl in Hstore. cbn [as_graphbook_composite_map]. rewrite Hstore, Hcm2, insert_empty.
  f_equal. unfold assembled, flat_composite. f_equal.
  rewrite (this_primitive_of_again _ _ Hnd Hsub). f_equal.
  rewrite <- list_fmap_compose. reflexivity.
Qed.

Lemma getitem_singleton key c : getitem ({[ key := c ]} : composite_store) key = Ok c.
Proof. unfold getitem. by rewrite lookup_singleton_eq. Qed.

Lemma append_link_singleton key l c :
  append_link key l ({[ key := c ]} : composite_store)
  = {[ key := set_links c (Composite.links c ++ [l]) ]}.
Proof. unfold append_link. by rewrite lookup_singleton_eq, insert_singleton_eq. Qed.

(** Routing one link filed under the graph's name when its producer is
    a child of the one composite. *)
Lemma route_flat_link onnx_graph pm flat links0 :
  (link_source flat ≠ graph_name onnx_graph →
   ∃ src, src ∈ onnx_ops onnx_graph
          ∧ pm !! link_source flat = Some (converted src)) →
  route_link onnx_graph pm (graph_name onnx_graph)
    {[ graph_name onnx_graph := flat_composite onnx_graph links0 ]} flat
  = Ok {[ graph_name onnx_graph :=
            flat_composite onnx_graph
              (links0 ++ (direct_link
                            <$> filter (fun link => link_source link ≠ graph_name onnx_graph)
                                       [flat])) ]}.
Proof.
  intros Hsrc. unfold route_link, getitem.
  destruct (decide (link_source flat = graph_name onnx_graph)) as [Hboundary|Hboundary].
  - rewrite filter_cons_False by (intros ?; done). simpl. by rewrite app_nil_r.
  - destruct (Hsrc Hboundary) as (src & Hop & Hpm).
    rewrite Hpm, lookup_singleton_eq. simpl.
    rewrite decide_True.
    2:{ apply list_elem_of_fmap. exists (converted src). split; [done|].
        apply list_elem_of_fmap. by exists src. }
    by rewrite append_link_singleton, filter_cons_True by done.
Qed.

(** Routing the links filed under the graph's name when every producer
    is a child of the one composite: one direct link for each link that
    does not start at the graph boundary. *)
Lemma route_flat_links onnx_graph pm flats links0 :
  (∀ link, link ∈ flats → link_source link ≠ graph_name onnx_graph →
           ∃ src, src ∈ onnx_ops onnx_graph
                  ∧ pm !! link_source link = Some (converted src)) →
  for_each (route_link onnx_graph pm (graph_name onnx_graph))
    {[ graph_name onnx_graph := flat_composite onnx_graph links0 ]} flats
  = Ok {[ graph_name onnx_graph :=
            flat_composite onnx_graph
              (links0 ++ (direct_link
                            <$> filter (fun link => link_source link ≠ graph_name onnx_graph)
                                       flats)) ]}.
Proof.
  revert links0. induction flats as [|flat flats IH]; intros links0 Hsrc.
  - simpl. by rewrite app_nil_r.
  - rewrite for_each_cons, route_flat_link by (apply Hsrc; by left).
    rewrite bind_Ok, IH by (intros link Hlink; apply Hsrc; by right).
    rewrite <- app_assoc, <- fmap_app. do 5 f_equal.
    by rewrite (filter_app _ [flat] flats).
Qed.

Lemma returned_tree_singleton root c :
  returned_tree root {[ root := c ]} = {| tree_root := root; tree_store := {[ root := c ]} |}.
Proof.
  unfold returned_tree. f_equal. apply map_filter_singleton_True. simpl.
  destruct (store_depth _); simpl; by left.
Qed.

(** A graph without scopes whose operations have different names and
    all convert, and none of whose links raises in link-map
    compilation, converts to a single composite: the conversions of the
    operations in their order, the graph's declared inputs and outputs,
    and one direct link, in the order of the link list, for every link
    that does not start at the graph boundary and is not dropped by the
    final-output rule. *)
Theorem scope_free_conversion onnx_graph :
  NoDup (op_name <$> onnx_ops onnx_graph) →
  scope_free onnx_graph →
  Forall (fun link => link_raises onnx_graph (name_to_op_of onnx_graph) link = false)
         (onnx_links onnx_graph) →
  (∀ op, op ∈ onnx_ops onnx_graph → is_ok (onnx_op_to_graphbook op) = true) →
  (∀ op, op ∈ onnx_ops onnx_graph → onnx_op_to_graphbook op = Ok (converted op))
  ∧ onnx_graph_to_graphbook onnx_graph
  = Ok {| tree_root := graph_name onnx_graph;
          tree_store :=
            {[ graph_name onnx_graph :=
                 flat_composite onnx_graph
                   (direct_link
                      <$> filter (fun link =>
                                    link_source link ≠ graph_name onnx_graph
                                    ∧ skipped onnx_graph (name_to_op_of onnx_graph) link
                                      = false)
                                 (onnx_links onnx_graph)) ]} |}.
Proof.
  intros Hnd Hfree Hresolve Hops.
  split; [intros op Hop; by apply onnx_op_to_graphbook_is_ok, Hops|].
  destruct (compile_link_map_result onnx_graph ∅) as [Hok Hfiling]. simpl in Hok, Hfiling.
  apply Hok in Hresolve as Hmap_ok.
  pose proof (conversion_stages onnx_graph) as Hstages.
  destruct (_compile_onnx_composite_link_map onnx_graph (name_to_op_of onnx_graph) ∅)
    as [[clm cvm]|e] eqn:Hmap; [|done].
  destruct (Hfiling clm cvm eq_refl) as (Hget & Hkeys & Hclm_nd).
  destruct (proj2 (assembler_returns_iff onnx_graph ∅ cvm) Hops) as [st Hasm].
  cbv zeta in Hstages. rewrite Hasm in Hstages.
  pose proof (assembler_returns _ _ _ _ _ _ Hasm) as ->.
  destruct Hstages as (gcm_w & Hwire & _ & Hmapof).
  (* the wirer has nothing to nest *)
  rewrite scope_free_assembly in Hwire by done.
  unfold _compile_links_between_composite in Hwire.
  rewrite scope_free_names, set_iter_singleton in Hwire by done.
  assert (gcm_w = {[ graph_name onnx_graph := flat_composite onnx_graph [] ]}) as ->.
  { revert Hwire. rewrite for_each_cons. unfold wire_step. case_decide; [by intros [= <-]|].
    rewrite decide_True by (simpl; lia). by intros [= <-]. }
  (* every link is filed under the graph's name *)
  assert (∀ link key, link ∈ onnx_links onnx_graph →
            filed_under onnx_graph (name_to_op_of onnx_graph) link = Some key →
            key = graph_name onnx_graph) as Hfiled.
  { intros link key Hlink. unfold filed_under.
    case_decide; [by intros [= <-]|]. destruct (skipped _ _ link); [done|].
    destruct (name_to_op_of onnx_graph !! link_sink link) as [snk|] eqn:Hsnk; [|done].
    simpl. intros [= <-]. apply scope_free_home; [done|].
    by apply name_to_op_elem in Hsnk as [? _]. }
  assert (∀ link, link ∈ onnx_links onnx_graph →
            (filed_under onnx_graph (name_to_op_of onnx_graph) link
             = Some (graph_name onnx_graph)
             ↔ skipped onnx_graph (name_to_op_of onnx_graph) link = false)) as Hskipped.
  { intros link Hlink. rewrite Forall_forall in Hresolve. specialize (Hresolve link Hlink).
    revert Hresolve. unfold link_raises, filed_under, skipped.
    case_decide as Hsink.
    - rewrite (bool_decide_eq_false_2 (link_sink link ≠ _)) by (intros ?; done). done.
    - rewrite (bool_decide_eq_true_2 (link_sink link ≠ _)) by done. simpl.
      destruct (bool_decide (is_Some (name_to_op_of onnx_graph !! link_source link))
                && bool_decide (link_var_name link ∈ graph_outputs onnx_graph));
        [done|].
      destruct (name_to_op_of onnx_graph !! link_sink link) as [snk|] eqn:Hsnk; [|done].
      simpl. intros _. split; [done|]. intros _. f_equal. apply scope_free_home; [done|].
      by apply name_to_op_elem in Hsnk as [? _]. }
  (* the producers of the links to route are children of the composite *)
  assert (∀ link, link ∈ onnx_links onnx_graph →
            filed_under onnx_graph (name_to_op_of onnx_graph) link
            = Some (graph_name onnx_graph) →
            link_source link ≠ graph_name onnx_graph →
            ∃ src, src ∈ onnx_ops onnx_graph
                   ∧ as_primitive_map
                       (assembler_ok onnx_graph
                          (_compile_onnx_composite_map onnx_graph {[""]}).1
                          (_compile_onnx_composite_map onnx_graph {[""]}).2 ∅ cvm)
                     !! link_source link = Some (converted src)) as Hproducer.
  { intros link Hlink Hunder Hboundary.
    rewrite Forall_forall in Hresolve. specialize (Hresolve link Hlink).
    assert (is_Some (name_to_op_of onnx_graph !! link_source link)) as [src Hsrc].
    { revert Hresolve Hunder. unfold link_raises, filed_under.
      case_decide.
      - intros Hnone%bool_decide_eq_false _.
        by destruct (name_to_op_of onnx_graph !! link_source link); eauto.
      - destruct (skipped _ _ link); [done|].
        destruct (name_to_op_of onnx_graph !! link_sink link); [|done].
        rewrite (bool_decide_eq_true_2 (link_source link ≠ _)) by done. simpl.
        intros Hnone%bool_decide_eq_false _.
        by destruct (name_to_op_of onnx_graph !! link_source link); eauto. }
    destruct (name_to_op_elem _ _ _ Hsrc) as [Hop Hname].
    exists src. split; [done|].
    destruct (assembler_places onnx_graph cvm src Hnd Hop) as [Hpm _].
    by rewrite Hname in Hpm. }
  set (pm := as_primitive_map _) in *.
  (* the link map has at most the graph's key *)
  assert (_compile_links_between_composite_and_primitive onnx_graph
            {[ graph_name onnx_graph := flat_composite onnx_graph [] ]} pm clm
          = Ok {[ graph_name onnx_graph :=
                    flat_composite onnx_graph
                      (direct_link
                         <$> filter (fun link => link_source link ≠ graph_name onnx_graph)
                               (filter (fun link =>
                                          filed_under onnx_graph (name_to_op_of onnx_graph) link
                                          = Some (graph_name onnx_graph))
                                       (onnx_links onnx_graph))) ]}) as Hroute.
  { unfold _compile_links_between_composite_and_primitive.
    pose proof (Hget (graph_name onnx_graph)) as Hflats.
    destruct clm as [|[key flats] rest].
    { simpl in Hflats. by rewrite <- Hflats. }
    assert (key = graph_name onnx_graph) as ->.
    { destruct (proj1 (Hkeys key)) as (link & Hlink & Hunder); [by left|].
      by eapply Hfiled. }
    assert (rest = []) as ->.
    { destruct rest as [|[key' flats'] rest]; [done|].
      assert (key' = graph_name onnx_graph) as ->.
      { destruct (proj1 (Hkeys key')) as (link & Hlink & Hunder); [right; by left|].
        by eapply Hfiled. }
      simpl in Hclm_nd. apply NoDup_cons in Hclm_nd as [Hdup _]. destruct Hdup. by left. }
    simpl in Hflats. rewrite decide_True in Hflats by done. simpl in Hflats.
    rewrite <- Hflats. rewrite for_each_cons. cbn beta iota.
    rewrite getitem_singleton, bind_Ok, route_flat_links; [done|].
    intros link Hlink. rewrite Hflats in Hlink.
    apply list_elem_of_filter in Hlink as [Hunder Hlink]. by apply Hproducer. }
  unfold onnx_graph_to_graphbook.
  rewrite Hmapof, Hroute, bind_Ok, getitem_singleton, bind_Ok, returned_tree_singleton.
  do 4 f_equal. rewrite list_filter_filter. f_equal. apply filter_ext_in.
  intros link Hlink. rewrite (Hskipped link Hlink). tauto.
Qed.

End ScopeFree.

(** ** Links into a top-level scope *)

Section TopLevelScope.

Import Py PyFacts.
Context {iteration : SetIteration}.
Implicit Types (onnx_graph : OnnxGraph) (op : OnnxOperation) (gcm : composite_store)
  (c : Composite) (link : OnnxLink) (m cvm : var_map).

(** What is in a list after a run of additions was there before or was
    added. *)
Lemma required_run_adds_inv adds field key m x :
  x ∈ required field key (run_adds adds m) →
  x ∈ required field key m
  ∨ ∃ a, a ∈ adds ∧ add_name a = x ∧ add_field a = field ∧ add_key a = key.
Proof.
  revert m. induction adds as [|a adds IH]; intros m; [by left|].
  rewrite run_adds_cons. intros [Hx|(a' & Ha' & Hrest)]%IH.
  - destruct (decide ((add_field a, add_key a) = (field, key))) as [Heq|Hne].
    + injection Heq as <- <-. rewrite required_add_var_eq in Hx.
      case_decide; [by left|]. apply elem_of_app in Hx as [Hx|Hx]; [by left|].
      apply list_elem_of_singleton in Hx. right. exists a. split; [by left|done].
    + rewrite required_add_var_ne in Hx by done. by left.
  - right. exists a'. split; [by right|done].
Qed.

(** The propagator adds an input to a scope of depth 1 only for a
    producer that is itself in a scope. *)
Lemma calculate_top_level_input v (path1 path2 : string) m key x :
  depth key = 1 →
  x ∈ required INPUT key (_calculate_composite_input_outputs v path1 path2 m) →
  x ∈ required INPUT key m ∨ (x = v ∧ path1 ≠ "").
Proof.
  intros Hdepth. rewrite calculate_run_adds.
  intros [Hx|(a & Ha & Hname & Hfield & Hkey)]%required_run_adds_inv; [by left|].
  right. split; [by apply elem_of_additions_of in Ha as [<- _]|].
  intros ->. apply elem_of_additions_of in Ha as [_ Ha].
  rewrite Hfield, Hkey, targets_downstream in Ha.
  apply elem_of_prefix_keys in Ha as (_ & i & [Hi1 Hi2]%elem_of_range & ->).
  fold (scope_prefix (i + 1) path2) in Hdepth.
  rewrite depth_scope_prefix in Hdepth by lia. lia.
Qed.

Lemma link_map_step_top_level_input onnx_graph name_to_op link clm cvm clm' cvm' key x :
  link_map_step onnx_graph name_to_op (clm, cvm) link = Ok (clm', cvm') →
  depth key = 1 →
  x ∈ required INPUT key cvm' →
  x ∈ required INPUT key cvm
  ∨ (x = link_var_name link
     ∧ ∃ src, name_to_op !! link_source link = Some src ∧ op_composite_path src ≠ "").
Proof.
  unfold link_map_step, getitem. intros Hstep Hdepth. revert Hstep.
  destruct (decide (link_sink link = graph_name onnx_graph)).
  { destruct (name_to_op !! link_source link) as [src|] eqn:Hsrc; simpl; [|done].
    intros [= <- <-] [Hx|[-> Hpath]]%calculate_top_level_input; [by left| |done].
    right. eauto. }
  destruct (bool_decide (is_Some (name_to_op !! link_source link))
            && bool_decide (link_var_name link ∈ graph_outputs onnx_graph));
    [intros [= <- <-]; by left|].
  destruct (name_to_op !! link_sink link) as [snk|]; [|done].
  destruct (decide (op_composite_path snk ≠ "")).
  - destruct (decide (link_source link = graph_name onnx_graph)).
    { intros [= <- <-] [Hx|[_ Hpath]]%calculate_top_level_input; [by left|done|done]. }
    destruct (name_to_op !! link_source link) as [src|] eqn:Hsrc; simpl; [|done].
    destruct (decide (op_composite_path src = ""
                      ∨ op_composite_path snk ≠ op_composite_path src));
      [|intros [= <- <-]; by left].
    intros [= <- <-] [Hx|[-> Hpath]]%calculate_top_level_input; [by left| |done].
    right. eauto.
  - destruct (decide (link_source link = graph_name onnx_graph));
      [intros [= <- <-]; by left|].
    destruct (name_to_op !! link_source link) as [src|] eqn:Hsrc; simpl; [|done].
    destruct (decide (op_composite_path src ≠ "")); [|intros [= <- <-]; by left].
    intros [= <- <-] [Hx|[-> Hpath]]%calculate_top_level_input; [by left| |done].
    right. eauto.
Qed.

Lemma compile_link_map_top_level_input onnx_graph name_to_op links clm cvm clm' cvm' key x :
  for_each (link_map_step onnx_graph name_to_op) (clm, cvm) links = Ok (clm', cvm') →
  depth key = 1 →
  x ∈ required INPUT key cvm' →
  x ∈ required INPUT key cvm
  ∨ ∃ link src, link ∈ links ∧ link_var_name link = x
                ∧ name_to_op !! link_source link = Some src ∧ op_composite_path src ≠ "".
Proof.
  intros Hloop Hdepth. revert clm cvm Hloop.
  induction links as [|link links IH]; intros clm cvm.
  - intros [= <- <-]. by left.
  - rewrite for_each_cons. intros ([clm1 cvm1] & Hstep & Hrest)%bind_Ok_inv Hx.
    destruct (IH _ _ Hrest Hx) as [Hx1|(link' & src & Hin & Hrest')].
    + destruct (link_map_step_top_level_input _ _ _ _ _ _ _ _ _ Hstep Hdepth Hx1)
        as [?|(-> & src & Hsrc & Hpath)]; [by left|].
      right. exists link, src. split; [by left|done].
    + right. exists link', src. split; [by right|done].
Qed.

Lemma filed_link_in_map onnx_graph clm cvm link key :
  _compile_onnx_composite_link_map onnx_graph (name_to_op_of onnx_graph) ∅ = Ok (clm, cvm) →
  link ∈ onnx_links onnx_graph →
  filed_under onnx_graph (name_to_op_of onnx_graph) link = Some key →
  ∃ flats, (key, flats) ∈ clm ∧ link ∈ flats.
Proof.
  intros Hmap Hlink Hfiled.
  destruct (compile_link_map_result onnx_graph ∅) as [_ Hfiling].
  destruct (Hfiling clm cvm Hmap) as (Hget & _ & _). specialize (Hget key).
  destruct (dict_get key clm) as [flats|] eqn:Hd; simpl in Hget.
  - exists flats. split; [by apply dict_get_elem|].
    rewrite Hget. by apply list_elem_of_filter.
  - assert (link ∈ ([] : list OnnxLink)) as Hnil; [|by apply elem_of_nil in Hnil].
    rewrite Hget. by apply list_elem_of_filter.
Qed.

(** A variable produced by an operation outside any scope cannot be
    consumed inside a scope of depth 1: the propagator declares such an
    input from depth 2 on only, so link-map compilation leaves the
    variable out of the required inputs of the consumer's scope, and
    the conversion raises. *)
Theorem top_level_scope_rejects_outside_producer onnx_graph link src snk :
  NoDup (op_name <$> onnx_ops onnx_graph) →
  link ∈ onnx_links onnx_graph →
  name_to_op_of onnx_graph !! link_source link = Some src →
  name_to_op_of onnx_graph !! link_sink link = Some snk →
  link_source link ≠ graph_name onnx_graph →
  link_sink link ≠ graph_name onnx_graph →
  link_var_name link ∉ graph_outputs onnx_graph →
  op_composite_path src = "" →
  op_composite_path snk ≠ "" →
  op_composite_path snk ≠ graph_name onnx_graph →
  depth (op_composite_path snk) = 1 →
  startswith (op_name src) (op_composite_path snk) = false →
  (∀ link', link' ∈ onnx_links onnx_graph →
            link_var_name link' = link_var_name link →
            link_source link' = link_source link) →
  (∀ clm cvm,
     _compile_onnx_composite_link_map onnx_graph (name_to_op_of onnx_graph) ∅
     = Ok (clm, cvm) →
     link_var_name link ∉ required INPUT (op_composite_path snk) cvm)
  ∧ is_ok (onnx_graph_to_graphbook onnx_graph) = false.
Proof.
  intros Hnd Hlink Hsrc Hsnk Hsource Hsink Hout Hroot Hscope Hnot_root Hdepth Hstarts
    Hproducer.
  assert (∀ clm cvm,
            _compile_onnx_composite_link_map onnx_graph (name_to_op_of onnx_graph) ∅
            = Ok (clm, cvm) →
            link_var_name link ∉ required INPUT (op_composite_path snk) cvm) as Hundeclared_all.
  { intros clm cvm Hmap Hin. unfold _compile_onnx_composite_link_map in Hmap.
    destruct (compile_link_map_top_level_input _ _ _ _ _ _ _ _ _ Hmap Hdepth Hin)
      as [Hempty|(link' & src' & Hlink' & Hvar & Hsrc' & Hpath')].
    - by apply elem_of_nil in Hempty.
    - rewrite (Hproducer link' Hlink' Hvar), Hsrc in Hsrc'. congruence. }
  split; [done|].
  destruct (onnx_graph_to_graphbook onnx_graph) as [t|e] eqn:Hconv; [exfalso|done].
  apply conversion_Ok_inv in Hconv as (gcm_r & root & Hconv & _ & _).
  destruct (composite_map_stages _ _ Hconv)
    as (clm & cvm & gcm_w & Hmap & _ & Hwire & Hroute).
  destruct (name_to_op_elem _ _ _ Hsrc) as [Hsrc_op Hsrc_name].
  destruct (name_to_op_elem _ _ _ Hsnk) as [Hsnk_op Hsnk_name].
  set (r := _compile_onnx_composite_map onnx_graph {[""]}) in *.
  set (st := assembler_ok onnx_graph r.1 r.2 ∅ cvm) in *.
  (* the link is routed in the consumer's scope *)
  assert (filed_under onnx_graph (name_to_op_of onnx_graph) link
          = Some (op_composite_path snk)) as Hfiled.
  { unfold filed_under, skipped, home. rewrite decide_False by done.
    rewrite (bool_decide_eq_false_2 (_ ∈ _)) by done. rewrite andb_false_r, Hsnk. simpl.
    by rewrite decide_False. }
  destruct (filed_link_in_map _ _ _ _ _ Hmap Hlink Hfiled) as (flats & Hkey & Hflat).
  destruct (router_reaches_appended _ _ _ _ _ _ _ _ Hroute Hkey Hflat)
    as (gcm1 & gcm2 & Happ & Hstep & _).
  (* the variable is not a declared input of that scope *)
  assert (link_var_name link ∉ required INPUT (op_composite_path snk) cvm) as Hmissing.
  { by eapply Hundeclared_all. }
  (* the scope's composite, as the router sees it *)
  destruct (wirer_result onnx_graph ∅ cvm) as (gcm_w' & Hwire' & Hdom_w & _).
  fold r st in Hwire'. rewrite Hwire in Hwire'. injection Hwire' as <-.
  assert (is_Some (gcm_w !! op_composite_path snk)) as [c_w Hc_w].
  { apply Hdom_w. exists (op_composite_path snk). split.
    - destruct (compile_composite_map_result onnx_graph {[""]}) as (Hnames & _ & _).
      apply Hnames. right. exists snk. split; [done|]. split; [done|].
      exists (depth (op_composite_path snk)). split; [lia|by rewrite scope_prefix_full].
    - unfold store_key. by rewrite decide_False. }
  destruct (links_appended_lookup_fwd _ _ _ _ _ Happ Hc_w) as (c1 & Hc1 & Hops & _ & Hins).
  destruct (assembler_result onnx_graph r.1 r.2 ∅ cvm) as [Hdom_a Hshape].
  fold st in Hdom_a, Hshape. simpl in Hdom_a, Hshape.
  assert (is_Some (as_graphbook_composite_map st !! op_composite_path snk)) as [c_a Hc_a].
  { apply Hdom_a. by apply Hdom_w. }
  destruct (Hshape _ _ Hc_a) as (_ & _ & _ & _ & _ & Hio).
  destruct (Hio Hnot_root) as [Hins_a _].
  pose proof (wirer_extends _ _ _ _ Hwire _ _ Hc_a) as (c_w' & Hc_w' & Hins_w & _).
  rewrite Hc_w in Hc_w'. injection Hc_w' as <-.
  assert (link_var_name link ∉ names_of (Composite.inputs c1)) as Hundeclared.
  { by rewrite Hins, Hins_w, Hins_a, names_of_Variable_named. }
  assert (ChildPrimitive (converted src) ∉ Composite.operations c1) as Hchild.
  { rewrite Hops. intros Hin.
    destruct (wirer_primitive_children _ _ _ _ _ _ _ Hwire Hc_w Hin) as (c_a' & Hc_a' & Hin_a).
    destruct (assembly_primitive_children onnx_graph cvm _ _ _ Hc_a' Hin_a)
      as (op & Hop & Hop_home & Heq).
    assert (op = src) as ->.
    { eapply op_name_inj; [done..|]. by apply (f_equal prim_name) in Heq. }
    unfold home in Hop_home. rewrite decide_True in Hop_home by done. congruence. }
  destruct (assembler_places onnx_graph cvm src Hnd Hsrc_op) as (Hprim & _).
  fold r st in Hprim. rewrite Hsrc_name in Hprim.
  (* so the router raises *)
  revert Hstep. unfold route_link, getitem.
  rewrite decide_False by done. rewrite Hprim, Hc1. simpl.
  rewrite decide_False by done. rewrite decide_False by done.
  rewrite Hstarts. simpl. by rewrite decide_False.
Qed.

End TopLevelScope.

(** ** Links that cross a scope boundary *)

Section CrossScope.

Import Py PyFacts.
Context {iteration : SetIteration}.
Implicit Types (onnx_graph : OnnxGraph) (op : OnnxOperation) (gcm : composite_store)
  (c : Composite) (link : OnnxLink) (m cvm : var_map).

Lemma startswith_append_l (a b c : string) : startswith ((a +:+ b) +:+ c) a = true.
Proof.
  unfold startswith. induction a as [|x a IH].
  { generalize (("" +:+ b) +:+ c). intros s. by destruct s. }
  rewrite !append_cons. simpl. by destruct (ascii_dec x x).
Qed.

Lemma scope_of_operation_discovered onnx_graph op d :
  op ∈ onnx_ops onnx_graph → op_composite_path op ≠ "" →
  1 <= d <= depth (op_composite_path op) →
  scope_prefix d (op_composite_path op) ∈ (_compile_onnx_composite_map onnx_graph {[""]}).2.
Proof.
  intros Hop Hpath Hd.
  destruct (compile_composite_map_result onnx_graph {[""]}) as (Hnames & _ & _).
  apply Hnames. right. exists op. split; [done|]. split; [done|]. by exists d.
Qed.

(** The composite of a discovered scope in any store the router can be
    in: it has the interface the propagator computed, and its primitive
    children are operations of that scope. *)
Lemma routing_scope onnx_graph cvm gcm_w gcm1 key :
  NoDup (op_name <$> onnx_ops onnx_graph) →
  let r := _compile_onnx_composite_map onnx_graph {[""]} in
  let st := assembler_ok onnx_graph r.1 r.2 ∅ cvm in
  _compile_links_between_composite onnx_graph (as_graphbook_composite_map st) r.2
  = Ok gcm_w →
  links_appended (fun _ => True) gcm_w gcm1 →
  key ∈ r.2 → key ≠ "" → key ≠ graph_name onnx_graph →
  ∃ c1, gcm1 !! key = Some c1
        ∧ names_of (Composite.inputs c1) = required INPUT key cvm
        ∧ names_of (Composite.outputs c1) = required OUTPUT key cvm
        ∧ ∀ src, src ∈ onnx_ops onnx_graph →
                 ChildPrimitive (converted src) ∈ Composite.operations c1 →
                 home onnx_graph src = key.
Proof.
  intros Hnd r st Hwire Happ Hkey Hne Hnot_root.
  destruct (assembler_result onnx_graph r.1 r.2 ∅ cvm) as [Hdom_a Hshape].
  fold st in Hdom_a, Hshape. simpl in Hdom_a, Hshape.
  assert (is_Some (as_graphbook_composite_map st !! key)) as [c_a Hc_a].
  { apply Hdom_a. exists key. split; [done|]. unfold store_key. by rewrite decide_False. }
  destruct (Hshape _ _ Hc_a) as (_ & _ & _ & _ & _ & Hio).
  destruct (Hio Hnot_root) as [Hins_a Houts_a].
  destruct (wirer_extends _ _ _ _ Hwire _ _ Hc_a) as (c_w & Hc_w & Hins_w & Houts_w & _).
  destruct (links_appended_lookup_fwd _ _ _ _ _ Happ Hc_w) as (c1 & Hc1 & Hops & Houts & Hins).
  exists c1. split; [done|]. split_and!.
  - by rewrite Hins, Hins_w, Hins_a, names_of_Variable_named.
  - by rewrite Houts, Houts_w, Houts_a, names_of_Variable_named.
  - intros src Hsrc. rewrite Hops. intros Hin.
    destruct (wirer_primitive_children _ _ _ _ _ _ _ Hwire Hc_w Hin) as (c_a' & Hc_a' & Hin_a).
    destruct (assembly_primitive_children onnx_graph cvm _ _ _ Hc_a' Hin_a)
      as (op & Hop & Hop_home & Heq).
    assert (op = src) as ->; [|done].
    eapply op_name_inj; [done..|]. by apply (f_equal prim_name) in Heq.
Qed.

Lemma appended_link_stays key l gcm1 gcm' c1 :
  gcm1 !! key = Some c1 → store_extends (append_link key l gcm1) gcm' →
  ∃ c, gcm' !! key = Some c ∧ l ∈ Composite.links c.
Proof.
  intros Hc1 Hext.
  destruct (Hext _ _ (lookup_append_link_eq key l gcm1 c1 Hc1)) as (c & Hc & _ & _ & Hlinks & _).
  exists c. split; [done|]. apply Hlinks. simpl. apply elem_of_app. right. by left.
Qed.

(** What the propagator has declared when the link map is compiled, for
    a link between two operations in different scopes. *)
Lemma link_map_declares onnx_graph clm cvm link src snk field key :
  _compile_onnx_composite_link_map onnx_graph (name_to_op_of onnx_graph) ∅ = Ok (clm, cvm) →
  link ∈ onnx_links onnx_graph →
  link_sink link ≠ graph_name onnx_graph →
  link_source link ≠ graph_name onnx_graph →
  link_var_name link ∉ graph_outputs onnx_graph →
  name_to_op_of onnx_graph !! link_source link = Some src →
  name_to_op_of onnx_graph !! link_sink link = Some snk →
  op_composite_path snk ≠ "" →
  op_composite_path snk ≠ op_composite_path src →
  (field, key) ∈ targets (op_composite_path src) (op_composite_path snk) →
  link_var_name link ∈ required field key cvm.
Proof.
  unfold _compile_onnx_composite_link_map.
  intros Hmap (l1 & l2 & Hlinks)%list_elem_of_split Hsink Hsource Hout Hsrc Hsnk Hpath Hdiff
    Htarget.
  rewrite Hlinks, for_each_app in Hmap.
  apply bind_Ok_inv in Hmap as ([clm1 cvm1] & _ & Hmap).
  rewrite for_each_cons, (link_map_step_between_scopes _ _ _ src snk) in Hmap by done.
  rewrite bind_Ok in Hmap.
  apply compile_link_map_adds in Hmap as (adds & Hcvm & _). simpl in Hcvm. subst cvm.
  eapply elem_of_prefix; [|apply required_run_adds_prefix].
  rewrite calculate_targets. by apply apply_adds_elem_of.
Qed.

(** In the composite map at the converter's [return], a link from an
    operation outside any scope to a consumer in a scope of depth at
    least 2 is, on a graph whose operation names are all different, a
    link from the ["this"] boundary to the consumer in the composite of
    the consumer's scope. *)
Lemma outside_producer_link_in_map onnx_graph gcm_r link src snk :
  NoDup (op_name <$> onnx_ops onnx_graph) →
  graphbook_composite_map_of onnx_graph = Ok gcm_r →
  link ∈ onnx_links onnx_graph →
  name_to_op_of onnx_graph !! link_source link = Some src →
  name_to_op_of onnx_graph !! link_sink link = Some snk →
  link_source link ≠ graph_name onnx_graph →
  link_sink link ≠ graph_name onnx_graph →
  link_var_name link ∉ graph_outputs onnx_graph →
  op_composite_path src = "" →
  2 <= depth (op_composite_path snk) →
  op_composite_path snk ≠ graph_name onnx_graph →
  startswith (op_name src) (op_composite_path snk) = false →
  ∃ c, gcm_r !! op_composite_path snk = Some c
       ∧ input_boundary_link (link_sink link) (link_var_name link) ∈ Composite.links c.
Proof.
  intros Hnd Hconv Hlink Hsrc Hsnk Hsource Hsink Hout Hroot Hdepth Hnot_root Hstarts.
  assert (op_composite_path snk ≠ "") as Hscope.
  { intros Heq. rewrite Heq in Hdepth. unfold depth in Hdepth. simpl in Hdepth. lia. }
  destruct (composite_map_stages _ _ Hconv)
    as (clm & cvm & gcm_w & Hmap & _ & Hwire & Hroute).
  destruct (name_to_op_elem _ _ _ Hsrc) as [Hsrc_op Hsrc_name].
  destruct (name_to_op_elem _ _ _ Hsnk) as [Hsnk_op Hsnk_name].
  assert (filed_under onnx_graph (name_to_op_of onnx_graph) link
          = Some (op_composite_path snk)) as Hfiled.
  { unfold filed_under, skipped, home. rewrite decide_False by done.
    rewrite (bool_decide_eq_false_2 (_ ∈ _)) by done. rewrite andb_false_r, Hsnk. simpl.
    by rewrite decide_False. }
  destruct (filed_link_in_map _ _ _ _ _ Hmap Hlink Hfiled) as (flats & Hkey & Hflat).
  destruct (router_reaches_appended _ _ _ _ _ _ _ _ Hroute Hkey Hflat)
    as (gcm1 & gcm2 & Happ & Hstep & Hext).
  destruct (routing_scope onnx_graph cvm gcm_w gcm1 (op_composite_path snk) Hnd Hwire Happ)
    as (c1 & Hc1 & Hins & _ & Hchildren); [|done..|].
  { rewrite <- (scope_prefix_full (op_composite_path snk)).
    apply scope_of_operation_discovered; [done..|lia]. }
  assert (link_var_name link ∈ names_of (Composite.inputs c1)) as Hdeclared.
  { rewrite Hins.
    eapply (link_map_declares _ _ _ _ src snk); [done..|congruence|].
    rewrite Hroot, targets_downstream. apply elem_of_prefix_keys. split; [done|].
    exists (depth (op_composite_path snk) - 1). split; [apply elem_of_range; lia|].
    replace (depth (op_composite_path snk) - 1 + 1) with (depth (op_composite_path snk))
      by lia.
    symmetry. apply scope_prefix_full. }
  assert (ChildPrimitive (converted src) ∉ Composite.operations c1) as Hchild.
  { intros Hin%Hchildren; [|done]. unfold home in Hin.
    rewrite decide_True in Hin by done. congruence. }
  destruct (assembler_places onnx_graph cvm src Hnd Hsrc_op) as (Hprim & _).
  rewrite Hsrc_name in Hprim.
  revert Hstep. unfold route_link, getitem.
  rewrite decide_False by done. rewrite Hprim, Hc1. simpl.
  rewrite decide_False by done. rewrite decide_False by done.
  rewrite Hstarts. simpl. rewrite decide_True by done.
  intros [= <-]. by eapply appended_link_stays.
Qed.

(** In the composite map at the converter's [return], a link from an
    operation nested below the consumer's scope is, on a graph whose
    operation names are all different, a link to the consumer from the
    child composite on the way down to the producer, in the composite of
    the consumer's scope. *)
Lemma nested_producer_link_in_map onnx_graph gcm_r link src snk B seg :
  NoDup (op_name <$> onnx_ops onnx_graph) →
  graphbook_composite_map_of onnx_graph = Ok gcm_r →
  link ∈ onnx_links onnx_graph →
  name_to_op_of onnx_graph !! link_source link = Some src →
  name_to_op_of onnx_graph !! link_sink link = Some snk →
  link_source link ≠ graph_name onnx_graph →
  link_sink link ≠ graph_name onnx_graph →
  link_var_name link ∉ graph_outputs onnx_graph →
  op_composite_path snk ≠ "" →
  op_composite_path snk ≠ graph_name onnx_graph →
  B ≠ [] → split (op_composite_path src) = split (op_composite_path snk) ++ B →
  op_name src = op_composite_path src +:+ String FORWARD_SLASH seg →
  scope_prefix (depth (op_composite_path snk) + 1) (op_composite_path src)
  ≠ graph_name onnx_graph →
  ∃ c, gcm_r !! op_composite_path snk = Some c
       ∧ relay_link
           (scope_prefix (depth (op_composite_path snk) + 1) (op_composite_path src))
           (link_sink link) (link_var_name link) ∈ Composite.links c.
Proof.
  intros Hnd Hconv Hlink Hsrc Hsnk Hsource Hsink Hout Hscope Hnot_root HB Hsplit Hname
    Hchild_root.
  set (child := scope_prefix (depth (op_composite_path snk) + 1) (op_composite_path src))
    in *.
  destruct (split_extension _ _ _ HB Hsplit) as [Hpath HsplitB].
  assert (length B ≠ 0) as HlenB by by destruct B.
  assert (depth (op_composite_path src) = depth (op_composite_path snk) + length B)
    as Hdepth.
  { unfold depth. by rewrite Hsplit, length_app. }
  assert (op_composite_path src ≠ "") as Hsrc_scope.
  { intros Heq. rewrite Heq in Hdepth. unfold depth in Hdepth. simpl in Hdepth.
    pose proof (length_split_pos (op_composite_path snk)). lia. }
  assert (op_composite_path snk ≠ op_composite_path src) as Hdiff.
  { intros Heq. rewrite Heq in Hdepth. lia. }
  destruct (composite_map_stages _ _ Hconv)
    as (clm & cvm & gcm_w & Hmap & _ & Hwire & Hroute).
  destruct (name_to_op_elem _ _ _ Hsrc) as [Hsrc_op Hsrc_name].
  destruct (name_to_op_elem _ _ _ Hsnk) as [Hsnk_op Hsnk_name].
  assert (filed_under onnx_graph (name_to_op_of onnx_graph) link
          = Some (op_composite_path snk)) as Hfiled.
  { unfold filed_under, skipped, home. rewrite decide_False by done.
    rewrite (bool_decide_eq_false_2 (_ ∈ _)) by done. rewrite andb_false_r, Hsnk. simpl.
    by rewrite decide_False. }
  destruct (filed_link_in_map _ _ _ _ _ Hmap Hlink Hfiled) as (flats & Hkey & Hflat).
  destruct (router_reaches_appended _ _ _ _ _ _ _ _ Hroute Hkey Hflat)
    as (gcm1 & gcm2 & Happ & Hstep & Hext).
  (* the consumer's scope *)
  destruct (routing_scope onnx_graph cvm gcm_w gcm1 (op_composite_path snk) Hnd Hwire Happ)
    as (c1 & Hc1 & _ & _ & Hchildren); [|done..|].
  { rewrite <- (scope_prefix_full (op_composite_path snk)).
    apply scope_of_operation_discovered; [done..|].
    pose proof (length_split_pos (op_composite_path snk)). unfold depth. lia. }
  assert (ChildPrimitive (converted src) ∉ Composite.operations c1) as Hchild.
  { intros Hin%Hchildren; [|done]. unfold home in Hin.
    rewrite decide_False in Hin by done. congruence. }
  (* the child composite on the way to the producer *)
  assert (depth child = depth (op_composite_path snk) + 1) as Hchild_depth.
  { apply depth_scope_prefix. lia. }
  destruct (routing_scope onnx_graph cvm gcm_w gcm1 child Hnd Hwire Happ)
    as (cn & Hcn & _ & Houts & _); [| |done|].
  { apply scope_of_operation_discovered; [done..|]. lia. }
  { intros Heq. rewrite Heq in Hchild_depth. unfold depth in Hchild_depth.
    simpl in Hchild_depth. pose proof (length_split_pos (op_composite_path snk)). lia. }
  assert (link_var_name link ∈ names_of (Composite.outputs cn)) as Hdeclared.
  { rewrite Houts. eapply (link_map_declares _ _ _ _ src snk); [done..|].
    rewrite Hpath, targets_consumer_ancestor, HsplitB by done.
    apply elem_of_partial_keys. split; [done|]. exists 1. split; [lia|].
    subst child. symmetry. by apply partial_key_scope_prefix; [|lia]. }
  destruct (assembler_places onnx_graph cvm src Hnd Hsrc_op) as (Hprim & _).
  rewrite Hsrc_name in Hprim.
  assert (startswith (op_name src) (op_composite_path snk) = true) as Hstarts.
  { rewrite Hname. rewrite Hpath at 1. apply startswith_append_l. }
  assert (split (op_name src) = split (op_composite_path src) ++ split seg) as Hsplit_name.
  { rewrite Hname at 1. apply split_app_slash. }
  assert (join (take (length (split (op_composite_path snk)) + 1) (split (op_name src)))
          = child) as Hnext.
  { rewrite Hsplit_name, take_app_le; [done|]. fold (depth (op_composite_path snk)).
    fold (depth (op_composite_path src)). lia. }
  revert Hstep. unfold route_link, getitem.
  rewrite decide_False by done. rewrite Hprim, Hc1. simpl.
  rewrite decide_False by done. rewrite decide_False by done.
  rewrite Hstarts. simpl.
  rewrite decide_False.
  2:{ rewrite Hsplit_name, length_app. fold (depth (op_composite_path snk)).
      fold (depth (op_composite_path src)). lia. }
  rewrite Hnext, Hcn. simpl. rewrite decide_True by done.
  intros [= <-]. by eapply appended_link_stays.
Qed.

End CrossScope.

(** ** What the returned root reaches *)

Section Reachability.

Import Py PyFacts.
Implicit Types (gcm : composite_store) (c : Composite).

Lemma elem_of_nested_keys c key :
  key ∈ nested_keys c ↔ ChildComposite key ∈ Composite.operations c.
Proof.
  unfold nested_keys. rewrite list_elem_of_omap. split.
  - intros ([p|key'] & Hin & Heq); [done|]. by injection Heq as ->.
  - intros Hin. by exists (ChildComposite key).
Qed.

(** A chain can be extended at its end. *)
Lemma nested_at_snoc gcm n root key c child :
  nested_at gcm n root key → gcm !! key = Some c →
  ChildComposite child ∈ Composite.operations c →
  nested_at gcm (S n) root child.
Proof.
  intros Hchain Hc Hchild. induction Hchain as [key|n root c0 child0 key Hc0 Hchild0 _ IH].
  - eapply nested_at_child; [done..|]. constructor.
  - eapply nested_at_child; [done..|]. by apply IH.
Qed.

(** The last step of a chain. *)
Lemma nested_at_last gcm n root key :
  nested_at gcm (S n) root key →
  ∃ parent c, nested_at gcm n root parent ∧ gcm !! parent = Some c
              ∧ ChildComposite key ∈ Composite.operations c.
Proof.
  revert root. induction n as [|n IH]; intros root Hchain.
  - inversion Hchain as [|? ? c child ? Hc Hchild Hrest]; subst.
    inversion Hrest; subst. exists root, c. split; [constructor|done].
  - inversion Hchain as [|? ? c child ? Hc Hchild Hrest]; subst.
    destruct (IH _ Hrest) as (parent & c' & Hchain' & Hc' & Hlast).
    exists parent, c'. split; [|done]. by eapply nested_at_child.
Qed.

(** The keys found with [fuel] are those at the end of a chain of at
    most [fuel] steps. *)
Lemma elem_of_reachable_keys fuel gcm root key :
  key ∈ reachable_keys fuel gcm root ↔ ∃ n, n <= fuel ∧ nested_at gcm n root key.
Proof.
  revert root. induction fuel as [|fuel IH]; intros root; simpl.
  - rewrite list_elem_of_singleton. split.
    + intros ->. exists 0. split; [lia|constructor].
    + intros (n & Hn & Hchain). assert (n = 0) as -> by lia. by inversion Hchain.
  - rewrite elem_of_cons. split.
    + intros [->|Hin]; [exists 0; split; [lia|constructor]|].
      destruct (gcm !! root) as [c|] eqn:Hc; [|by apply elem_of_nil in Hin].
      apply list_elem_of_In, in_flat_map in Hin as (child & Hchild & Hin).
      apply list_elem_of_In in Hchild, Hin.
      apply IH in Hin as (n & Hn & Hchain). exists (S n). split; [lia|].
      by eapply nested_at_child; [| apply elem_of_nested_keys in Hchild |].
    + intros (n & Hn & Hchain).
      inversion Hchain as [|m ? c child ? Hc Hchild Hrest]; subst; [by left|]. right.
      rewrite Hc. apply list_elem_of_In, in_flat_map. exists child.
      split; [by apply list_elem_of_In, elem_of_nested_keys|].
      apply list_elem_of_In, IH. exists m. split; [lia|done].
Qed.

Lemma depth_le_store_depth gcm key :
  is_Some (gcm !! key) → depth key <= store_depth gcm.
Proof.
  intros [c Hc]. unfold store_depth. apply max_list_elem_of_le.
  apply list_elem_of_fmap. exists key. split; [done|].
  apply list_elem_of_fmap. exists (key, c). split; [done|]. by apply elem_of_map_to_list.
Qed.

(** The path of which [name] is the extension by one segment is one
    segment shorter. *)
Lemma depth_parent (name : string) :
  1 < depth name → depth (join (but_last (split name))) = depth name - 1.
Proof.
  intros Hdepth. unfold depth in *. rewrite split_join.
  - unfold but_last. rewrite length_take. lia.
  - unfold but_last. intros Hnil%(f_equal length). rewrite length_take in Hnil.
    simpl in Hnil. lia.
  - apply Forall_take, split_segments.
Qed.

End Reachability.

(** ** The returned tree *)

Section ReturnedTree.

Import Py PyFacts.
Context {iteration : SetIteration}.
Implicit Types (onnx_graph : OnnxGraph) (gcm : composite_store) (c : Composite)
  (link : OnnxLink).

(** The composite map has one composite per discovered scope. *)
Lemma composite_map_keys onnx_graph gcm key :
  graphbook_composite_map_of onnx_graph = Ok gcm →
  is_Some (gcm !! key)
  ↔ ∃ name, name ∈ (_compile_onnx_composite_map onnx_graph {[""]}).2
            ∧ store_key onnx_graph name = key.
Proof.
  intros Hconv.
  destruct (composite_map_stages _ _ Hconv)
    as (clm & cvm & gcm_w & Hmap & _ & Hwire & Hroute).
  destruct (wirer_result onnx_graph ∅ cvm) as (gcm_w' & Hwire' & Hdom & _).
  simpl in Hwire'. rewrite Hwire in Hwire'. injection Hwire' as <-.
  rewrite <- Hdom. apply router_appends in Hroute. specialize (Hroute key).
  inversion Hroute; split; intros [? ?]; eauto; done.
Qed.

(** A composite nested in a composite of the map. *)
Lemma nested_child_key onnx_graph gcm key c child :
  graphbook_composite_map_of onnx_graph = Ok gcm →
  gcm !! key = Some c → ChildComposite child ∈ Composite.operations c →
  child ≠ graph_name onnx_graph ∧ 1 < depth child
  ∧ parent_name_of onnx_graph child = key ∧ is_Some (gcm !! child).
Proof.
  intros Hconv Hc Hchild.
  apply (nested_composites_in_map _ _ _ _ _ Hconv Hc) in Hchild
    as (Hname & Hroot & Hdepth & Hparent).
  split_and!; [done..|]. apply (composite_map_keys _ _ _ Hconv).
  exists child. split; [done|]. unfold store_key. rewrite decide_False; [done|].
  intros ->. vm_compute in Hdepth. lia.
Qed.

(** A chain of [n] nestings from the root ends at a key of more than
    [n] segments. *)
Lemma nested_at_rank onnx_graph gcm n key :
  graphbook_composite_map_of onnx_graph = Ok gcm →
  nested_at gcm (S n) (graph_name onnx_graph) key →
  key ≠ graph_name onnx_graph ∧ S n + 1 <= depth key ∧ is_Some (gcm !! key).
Proof.
  intros Hconv. revert key. induction n as [|n IH]; intros key Hchain.
  - apply nested_at_last in Hchain as (parent & c & _ & Hc & Hchild).
    destruct (nested_child_key _ _ _ _ _ Hconv Hc Hchild) as (? & ? & _ & ?).
    split_and!; [done|lia|done].
  - apply nested_at_last in Hchain as (parent & c & Hchain & Hc & Hchild).
    destruct (IH _ Hchain) as (Hparent_root & Hparent_depth & _).
    destruct (nested_child_key _ _ _ _ _ Hconv Hc Hchild) as (? & Hdepth & Hparent & ?).
    split_and!; [done| |done].
    unfold parent_name_of in Hparent. case_decide; [congruence|].
    rewrite <- Hparent, depth_parent in Hparent_depth by done. lia.
Qed.

Lemma nested_at_bounded onnx_graph gcm n key :
  graphbook_composite_map_of onnx_graph = Ok gcm →
  nested_at gcm n (graph_name onnx_graph) key → n <= store_depth gcm.
Proof.
  intros Hconv Hchain. destruct n as [|n]; [lia|].
  destruct (nested_at_rank _ _ _ _ Hconv Hchain) as (_ & Hdepth & Hsome).
  pose proof (depth_le_store_depth _ _ Hsome). lia.
Qed.

(** The returned tree holds exactly the composites of the map that the
    root reaches. *)
Lemma returned_tree_lookup_iff onnx_graph gcm key c :
  graphbook_composite_map_of onnx_graph = Ok gcm →
  tree_store (returned_tree (graph_name onnx_graph) gcm) !! key = Some c
  ↔ gcm !! key = Some c ∧ nested_in gcm (graph_name onnx_graph) key.
Proof.
  intros Hconv. unfold returned_tree. simpl. rewrite map_lookup_filter_Some. simpl.
  rewrite elem_of_reachable_keys. unfold nested_in. split.
  - intros (Hc & n & _ & Hchain). eauto.
  - intros (Hc & n & Hchain). split; [done|]. exists n. split; [|done].
    by eapply nested_at_bounded.
Qed.

(** The returned tree is closed under nesting. *)
Lemma returned_tree_nested onnx_graph t key c child :
  onnx_graph_to_graphbook onnx_graph = Ok t →
  tree_store t !! key = Some c →
  ChildComposite child ∈ Composite.operations c →
  ∃ gcm sub_op,
    graphbook_composite_map_of onnx_graph = Ok gcm
    ∧ gcm !! key = Some c
    ∧ gcm !! child = Some sub_op
    ∧ tree_store t !! child = Some sub_op.
Proof.
  intros (gcm & root & Hconv & _ & ->)%conversion_Ok_inv Hc Hchild.
  apply (returned_tree_lookup_iff _ _ _ _ Hconv) in Hc as [Hc [n Hchain]].
  destruct (nested_child_key _ _ _ _ _ Hconv Hc Hchild) as (_ & _ & _ & [sub_op Hsub]).
  exists gcm, sub_op. split_and!; [done..|].
  apply (returned_tree_lookup_iff _ _ _ _ Hconv). split; [done|].
  exists (S n). by eapply nested_at_snoc.
Qed.

(** Claim C9, as corrected: in the returned tree, a composite nested in
    a composite is part of the tree, and every name that the child and
    the parent both declare as an input is the variable of a link of the
    parent from ["this"] to the child, every name that both declare as
    an output the variable of a link of the parent from the child to
    ["this"]. *)
Theorem C9_nested_interface_wired onnx_graph t key parent name :
  onnx_graph_to_graphbook onnx_graph = Ok t →
  tree_store t !! key = Some parent →
  ChildComposite name ∈ Composite.operations parent →
  ∃ sub_op,
    tree_store t !! name = Some sub_op
    ∧ (∀ v, v ∈ names_of (Composite.inputs sub_op) →
            v ∈ names_of (Composite.inputs parent) →
            input_boundary_link name v ∈ Composite.links parent
            ∧ has_link_from_this parent v)
    ∧ (∀ v, v ∈ names_of (Composite.outputs sub_op) →
            v ∈ names_of (Composite.outputs parent) →
            output_boundary_link name v ∈ Composite.links parent
            ∧ has_link_to_this parent v).
Proof.
  intros Hconv Hparent Hchild.
  destruct (returned_tree_nested _ _ _ _ _ Hconv Hparent Hchild)
    as (gcm & sub_op & Hmap & Hparent_m & Hsub_m & Hsub).
  exists sub_op. split; [done|].
  apply (nested_composites_in_map _ _ _ _ _ Hmap Hparent_m) in Hchild
    as (Hname & Hroot & Hdepth & Hkey).
  destruct (composite_map_stages _ _ Hmap)
    as (clm & cvm & gcm_w & _ & _ & Hwire & Hroute).
  destruct (nested_interface_wired _ _ _ _ _ _ _ _ Hwire Hroute Hname Hroot)
    as (sub_op' & parent' & Hsub' & Hparent' & _ & Hin & Hout); [lia|].
  rewrite Hkey, Hparent_m in Hparent'. injection Hparent' as <-.
  rewrite Hsub_m in Hsub'. injection Hsub' as <-. done.
Qed.

(** In the tree of a successful conversion, the composites nested in a
    composite are exactly the discovered scopes of depth at least 2
    whose enclosing scope it is; a scope of depth 1 is nested nowhere,
    not in the root either. *)
Theorem nested_composites onnx_graph t key c name :
  onnx_graph_to_graphbook onnx_graph = Ok t →
  tree_store t !! key = Some c →
  (ChildComposite name ∈ Composite.operations c
   ↔ name ∈ (_compile_onnx_composite_map onnx_graph {[""]}).2
     ∧ name ≠ graph_name onnx_graph ∧ 1 < depth name
     ∧ parent_name_of onnx_graph name = key).
Proof.
  intros Hconv Hc. destruct (conversion_lookup _ _ _ _ Hconv Hc) as (gcm & Hmap & Hc_m).
  by apply (nested_composites_in_map _ _ _ _ _ Hmap Hc_m).
Qed.

(** A link between two operations of the same scope is a direct link
    from the producer to the consumer in the composite of that scope,
    when the returned tree holds it. *)
Theorem intra_scope_link_is_direct onnx_graph t link src snk c :
  NoDup (op_name <$> onnx_ops onnx_graph) →
  onnx_graph_to_graphbook onnx_graph = Ok t →
  link ∈ onnx_links onnx_graph →
  name_to_op_of onnx_graph !! link_source link = Some src →
  name_to_op_of onnx_graph !! link_sink link = Some snk →
  link_source link ≠ graph_name onnx_graph →
  link_sink link ≠ graph_name onnx_graph →
  link_var_name link ∉ graph_outputs onnx_graph →
  home onnx_graph src = home onnx_graph snk →
  tree_store t !! home onnx_graph snk = Some c →
  direct_link link ∈ Composite.links c.
Proof.
  intros Hnd Hconv Hlink Hsrc Hsnk Hsource Hsink Hout Hhome Hc.
  destruct (conversion_lookup _ _ _ _ Hconv Hc) as (gcm & Hmap & Hc_m).
  destruct (intra_scope_link_in_map _ _ _ _ _ Hnd Hmap Hlink Hsrc Hsnk Hsource Hsink
              Hout Hhome) as (c' & Hc' & Hin).
  rewrite Hc_m in Hc'. by injection Hc' as <-.
Qed.

(** A link that ends at the graph and starts at an operation nested in
    a scope is a link from the producer to the ["this"] boundary in the
    composite of the producer's scope, when the returned tree holds
    it. *)
Theorem graph_output_link_exits_its_scope onnx_graph t link src seg c :
  NoDup (op_name <$> onnx_ops onnx_graph) →
  onnx_graph_to_graphbook onnx_graph = Ok t →
  link ∈ onnx_links onnx_graph →
  link_sink link = graph_name onnx_graph →
  link_source link ≠ graph_name onnx_graph →
  name_to_op_of onnx_graph !! link_source link = Some src →
  op_composite_path src ≠ "" →
  op_composite_path src ≠ graph_name onnx_graph →
  op_name src = op_composite_path src +:+ String FORWARD_SLASH seg →
  is_segment seg →
  tree_store t !! op_composite_path src = Some c →
  output_boundary_link (op_name src) (link_var_name link) ∈ Composite.links c.
Proof.
  intros Hnd Hconv Hlink Hsink Hsource Hsrc Hpath Hroot Hname Hseg Hc.
  destruct (conversion_lookup _ _ _ _ Hconv Hc) as (gcm & Hmap & Hc_m).
  destruct (graph_output_link_in_map _ _ _ _ _ Hnd Hmap Hlink Hsink Hsource Hsrc Hpath
              Hroot Hname Hseg) as (c' & Hc' & Hin).
  rewrite Hc_m in Hc'. by injection Hc' as <-.
Qed.

(** A link from an operation outside any scope to a consumer in a scope
    of depth at least 2 is a link from the ["this"] boundary to the
    consumer in the composite of the consumer's scope, when the
    returned tree holds it. *)
Theorem outside_producer_enters_at_boundary onnx_graph t link src snk c :
  NoDup (op_name <$> onnx_ops onnx_graph) →
  onnx_graph_to_graphbook onnx_graph = Ok t →
  link ∈ onnx_links onnx_graph →
  name_to_op_of onnx_graph !! link_source link = Some src →
  name_to_op_of onnx_graph !! link_sink link = Some snk →
  link_source link ≠ graph_name onnx_graph →
  link_sink link ≠ graph_name onnx_graph →
  link_var_name link ∉ graph_outputs onnx_graph →
  op_composite_path src = "" →
  2 <= depth (op_composite_path snk) →
  op_composite_path snk ≠ graph_name onnx_graph →
  startswith (op_name src) (op_composite_path snk) = false →
  tree_store t !! op_composite_path snk = Some c →
  input_boundary_link (link_sink link) (link_var_name link) ∈ Composite.links c.
Proof.
  intros Hnd Hconv Hlink Hsrc Hsnk Hsource Hsink Hout Hpath Hdepth Hroot Hstarts Hc.
  destruct (conversion_lookup _ _ _ _ Hconv Hc) as (gcm & Hmap & Hc_m).
  destruct (outside_producer_link_in_map _ _ _ _ _ Hnd Hmap Hlink Hsrc Hsnk Hsource Hsink
              Hout Hpath Hdepth Hroot Hstarts) as (c' & Hc' & Hin).
  rewrite Hc_m in Hc'. by injection Hc' as <-.
Qed.

(** A link whose producer lies in a scope strictly below the consumer's
    scope is, in the composite of the consumer's scope, a link to the
    consumer from the child composite one level below on the way to the
    producer, when the returned tree holds the consumer's scope. *)
Theorem nested_producer_link_leaves_from_child onnx_graph t link src snk B seg c :
  NoDup (op_name <$> onnx_ops onnx_graph) →
  onnx_graph_to_graphbook onnx_graph = Ok t →
  link ∈ onnx_links onnx_graph →
  name_to_op_of onnx_graph !! link_source link = Some src →
  name_to_op_of onnx_graph !! link_sink link = Some snk →
  link_source link ≠ graph_name onnx_graph →
  link_sink link ≠ graph_name onnx_graph →
  link_var_name link ∉ graph_outputs onnx_graph →
  op_composite_path snk ≠ "" →
  op_composite_path snk ≠ graph_name onnx_graph →
  B ≠ [] → split (op_composite_path src) = split (op_composite_path snk) ++ B →
  op_name src = op_composite_path src +:+ String FORWARD_SLASH seg →
  scope_prefix (depth (op_composite_path snk) + 1) (op_composite_path src)
  ≠ graph_name onnx_graph →
  tree_store t !! op_composite_path snk = Some c →
  relay_link
    (scope_prefix (depth (op_composite_path snk) + 1) (op_composite_path src))
    (link_sink link) (link_var_name link) ∈ Composite.links c.
Proof.
  intros Hnd Hconv Hlink Hsrc Hsnk Hsource Hsink Hout Hpath Hroot HB Hsplit Hname Hchild Hc.
  destruct (conversion_lookup _ _ _ _ Hconv Hc) as (gcm & Hmap & Hc_m).
  destruct (nested_producer_link_in_map _ _ _ _ _ _ _ Hnd Hmap Hlink Hsrc Hsnk Hsource
              Hsink Hout Hpath Hroot HB Hsplit Hname Hchild) as (c' & Hc' & Hin).
  rewrite Hc_m in Hc'. by injection Hc' as <-.
Qed.

End ReturnedTree.

(** ** The further properties at concrete inputs *)

Lemma producer_strict_prefix_of_consumer_witness :
  "a" ≠ "" ∧ ["b"; "c"] ≠ [] ∧ Py.split "a/b/c" = Py.split "a" ++ ["b"; "c"]
  ∧ "v" ∈ required INPUT "a/b" (_calculate_composite_input_outputs "v" "a" "a/b/c" ∅)
  ∧ "v" ∈ required INPUT "a/b/c" (_calculate_composite_input_outputs "v" "a" "a/b/c" ∅)
  ∧ _calculate_composite_input_outputs "v" "a" "a/b/c" ∅ !! "a" = None.
Proof.
  assert ("a" ≠ "") as Ha by discriminate.
  assert (["b"; "c"] ≠ []) as HB by discriminate.
  assert (Py.split "a/b/c" = Py.split "a" ++ ["b"; "c"]) as Hsplit by reflexivity.
  destruct (producer_strict_prefix_of_consumer "v" "a" "a/b/c" ["b"; "c"] ∅ Ha HB Hsplit)
    as (Hin & Hframe & _).
  split_and!; [exact Ha|exact HB|exact Hsplit|..].
  - apply (Hin 2). vm_compute. lia.
  - apply (Hin 3). vm_compute. lia.
  - apply (Hframe "a"). intros d Hd. vm_compute in Hd.
    assert (d = 2 ∨ d = 3) as [-> | ->] by lia; discriminate.
Defined.

Lemma cross_stream_divergent_witness :
  "v" ∈ required OUTPUT "a/b" (_calculate_composite_input_outputs "v" "a/b" "a/c" ∅)
  ∧ "v" ∈ required INPUT "a/c" (_calculate_composite_input_outputs "v" "a/b" "a/c" ∅)
  ∧ _calculate_composite_input_outputs "v" "a/b" "a/c" ∅ !! "a" = None.
Proof.
  assert ("a/b" ≠ "") as H1 by discriminate.
  assert ("a/c" ≠ "") as H2 by discriminate.
  assert (Py.startswith "a/b" "a/c" = false) as Hs1 by reflexivity.
  assert (Py.startswith "a/c" "a/b" = false) as Hs2 by reflexivity.
  destruct (cross_stream_divergent "v" "a/b" "a/c" ∅ H1 H2 Hs1 Hs2)
    as (Hout & Hin & Hshared).
  split_and!.
  - apply (Hout 2); [vm_compute; lia|discriminate].
  - apply (Hin 2); [vm_compute; lia|discriminate].
  - apply (Hshared 1); [vm_compute; lia|reflexivity].
Defined.

Lemma wiring_emits_only_boundary_links_witness :
  boundary_link_of nested_producer_graph nested_producer_store "x"
    (output_boundary_link "x/y" "v").
Proof.
  pose (r := _compile_onnx_composite_map nested_producer_graph {[""]}).
  pose (cvm := _calculate_composite_input_outputs "v" "x/y" "" ∅).
  pose (gcm := as_graphbook_composite_map
                 (assembler_ok
                    (iteration := elements_iteration)
                    nested_producer_graph r.1 r.2 ∅ cvm)).
  assert (∀ key c, gcm !! key = Some c → Composite.links c = []) as Hempty.
  { intros key c Hc.
    destruct (assembler_result (iteration := elements_iteration) nested_producer_graph r.1 r.2 ∅ cvm)
      as [_ Hshape].
    by apply (Hshape key c Hc). }
  assert (_compile_links_between_composite (iteration := elements_iteration)
            nested_producer_graph gcm r.2 = Ok nested_producer_store) as Hwire
    by (vm_compute; reflexivity).
  eapply (wiring_emits_only_boundary_links (iteration := elements_iteration)
            nested_producer_graph gcm r.2
            nested_producer_store Hempty Hwire "x"); [reflexivity|].
  simpl. left.
Defined.

Lemma routing_only_appends_links_witness :
  ∃ gcm',
    _compile_links_between_composite_and_primitive nested_producer_graph
      nested_producer_store {[ "x/y/p" := nested_producer_primitive ]}
      [("g", [nested_producer_link])] = Ok gcm'
    ∧ links_appended (fun l => carries "v" l) nested_producer_store gcm'.
Proof.
  eexists. split; [vm_compute; reflexivity|].
  eapply links_appended_impl;
    [|eapply (routing_only_appends_links nested_producer_graph nested_producer_store
                {[ "x/y/p" := nested_producer_primitive ]} [("g", [nested_producer_link])]);
      vm_compute; reflexivity].
  intros l (key & flats & flat & Hkey & Hflat & _ & Hcarries).
  apply list_elem_of_singleton in Hkey. injection Hkey as -> ->.
  apply list_elem_of_singleton in Hflat. by subst flat.
Defined.

Lemma conversion_without_links_witness :
  ∃ t root,
    onnx_graph_to_graphbook (iteration := elements_iteration)
      (with_links rooted_producer_graph []) = Ok t
    ∧ tree_store t !! "g" = Some root
    ∧ ∀ key c, tree_store t !! key = Some c → Composite.links c = [].
Proof.
  assert (∀ op, op ∈ onnx_ops (with_links rooted_producer_graph []) →
                is_ok (onnx_op_to_graphbook op) = true) as Hops.
  { intros op Hop. simpl in Hop. apply list_elem_of_singleton in Hop. by subst op. }
  destruct (conversion_without_links (iteration := elements_iteration)
              (with_links rooted_producer_graph []) eq_refl Hops)
    as (t & root & Hconv & _ & Hroot & _ & Hlinks).
  exists t, root. split; [exact Hconv|]. split; [exact Hroot|exact Hlinks].
Defined.

Lemma assembly_places_operations_witness :
  ∃ st p c,
    _compile_graphbook_operations_from_composite_map (iteration := elements_iteration)
      same_scope_graph
      (_compile_onnx_composite_map same_scope_graph {[""]}).1
      (_compile_onnx_composite_map same_scope_graph {[""]}).2 ∅ ∅ = Ok st
    ∧ as_primitive_map st !! "s/A" = Some p
    ∧ as_graphbook_composite_map st !! "s" = Some c
    ∧ ChildPrimitive p ∈ Composite.operations c.
Proof.
  assert (NoDup (op_name <$> onnx_ops same_scope_graph)) as Hnd.
  { simpl. apply NoDup_cons. split; [|apply NoDup_singleton].
    intros Hin%list_elem_of_singleton. discriminate. }
  pose (op := {| op_name := "s/A"; op_opType := "Relu"; op_input := [];
                 op_output := ["v"]; op_composite_path := "s";
                 op_attribute := []; op_type_meta_data := None |}).
  assert (op ∈ onnx_ops same_scope_graph) as Hop by (simpl; left).
  destruct (_compile_graphbook_operations_from_composite_map
              (iteration := elements_iteration) same_scope_graph
              (_compile_onnx_composite_map same_scope_graph {[""]}).1
              (_compile_onnx_composite_map same_scope_graph {[""]}).2 ∅ ∅)
    as [st|e] eqn:Hasm; [|vm_compute in Hasm; discriminate].
  destruct (assembly_places_operations (iteration := elements_iteration) same_scope_graph
              ∅ st op Hnd Hop Hasm) as (p & _ & Hpm & c & Hc & Hchild).
  exists st, p, c. split; [reflexivity|]. split; [exact Hpm|]. split; [exact Hc|exact Hchild].
Defined.

Lemma intra_scope_link_is_direct_witness :
  ∃ t c,
    onnx_graph_to_graphbook (iteration := elements_iteration) rooted_same_scope_graph = Ok t
    ∧ tree_store t !! "/s" = Some c
    ∧ direct_link rooted_same_scope_link ∈ Composite.links c.
Proof.
  assert (NoDup (op_name <$> onnx_ops rooted_same_scope_graph)) as Hnd.
  { simpl. apply NoDup_cons. split; [|apply NoDup_singleton].
    intros Hin%list_elem_of_singleton. discriminate. }
  destruct (onnx_graph_to_graphbook (iteration := elements_iteration)
              rooted_same_scope_graph) as [t|e] eqn:Hconv;
    [|vm_compute in Hconv; discriminate].
  assert (is_Some (tree_store t !! "/s")) as [c Hc].
  { vm_compute in Hconv. injection Hconv as <-. vm_compute. eauto. }
  pose (src := {| op_name := "/s/A"; op_opType := "Relu"; op_input := [];
                  op_output := ["v"]; op_composite_path := "/s";
                  op_attribute := []; op_type_meta_data := None |}).
  pose (snk := {| op_name := "/s/B"; op_opType := "Relu"; op_input := ["v"];
                  op_output := []; op_composite_path := "/s";
                  op_attribute := []; op_type_meta_data := None |}).
  assert (rooted_same_scope_link ∈ onnx_links rooted_same_scope_graph) as Hlink
    by (simpl; left).
  assert (name_to_op_of rooted_same_scope_graph !! link_source rooted_same_scope_link
          = Some src) as Hsrc by reflexivity.
  assert (name_to_op_of rooted_same_scope_graph !! link_sink rooted_same_scope_link
          = Some snk) as Hsnk by reflexivity.
  assert (link_source rooted_same_scope_link ≠ graph_name rooted_same_scope_graph)
    as Hsource by discriminate.
  assert (link_sink rooted_same_scope_link ≠ graph_name rooted_same_scope_graph)
    as Hsink by discriminate.
  assert (link_var_name rooted_same_scope_link ∉ graph_outputs rooted_same_scope_graph)
    as Hout by apply not_elem_of_nil.
  assert (home rooted_same_scope_graph src = home rooted_same_scope_graph snk) as Hhome
    by reflexivity.
  exists t, c. split; [reflexivity|]. split; [exact Hc|].
  exact (intra_scope_link_is_direct (iteration := elements_iteration)
           rooted_same_scope_graph t rooted_same_scope_link src snk c
           Hnd Hconv Hlink Hsrc Hsnk Hsource Hsink Hout Hhome Hc).
Defined.

Lemma router_accepts_graph_output_link_witness :
  ∃ st,
    _compile_graphbook_operations_from_composite_map (iteration := elements_iteration)
      nested_producer_graph
      (_compile_onnx_composite_map nested_producer_graph {[""]}).1
      (_compile_onnx_composite_map nested_producer_graph {[""]}).2 ∅
      (_calculate_composite_input_outputs "v" "x/y" "" ∅) = Ok st
    ∧ route_link nested_producer_graph (as_primitive_map st) "g" nested_producer_store
        nested_producer_link
      = Ok (append_link "x/y" (output_boundary_link "x/y/p" "v") nested_producer_store).
Proof.
  destruct (_compile_graphbook_operations_from_composite_map
              (iteration := elements_iteration) nested_producer_graph
              (_compile_onnx_composite_map nested_producer_graph {[""]}).1
              (_compile_onnx_composite_map nested_producer_graph {[""]}).2 ∅
              (_calculate_composite_input_outputs "v" "x/y" "" ∅))
    as [st|e] eqn:Hasm; [|vm_compute in Hasm; discriminate].
  assert (_compile_links_between_composite (iteration := elements_iteration)
            nested_producer_graph (as_graphbook_composite_map st)
            (_compile_onnx_composite_map nested_producer_graph {[""]}).2
          = Ok nested_producer_store) as Hwire.
  { vm_compute in Hasm. injection Hasm as <-. vm_compute. reflexivity. }
  pose (src := {| op_name := "x/y/p"; op_opType := "Relu"; op_input := [];
                  op_output := ["v"]; op_composite_path := "x/y";
                  op_attribute := []; op_type_meta_data := None |}).
  exists st. split; [reflexivity|].
  apply (router_accepts_graph_output_link (iteration := elements_iteration)
           nested_producer_graph [("g", [nested_producer_link])]
           (_calculate_composite_input_outputs "v" "x/y" "" ∅) st
           nested_producer_store nested_producer_store nested_producer_link src "p").
  - apply NoDup_singleton.
  - vm_compute; reflexivity.
  - exact Hasm.
  - exact Hwire.
  - apply links_appended_refl.
  - simpl; left.
  - reflexivity.
  - discriminate.
  - reflexivity.
  - discriminate.
  - discriminate.
  - reflexivity.
  - reflexivity.
Defined.

Lemma graph_output_link_exits_its_scope_witness :
  ∃ t c,
    onnx_graph_to_graphbook (iteration := elements_iteration) rooted_producer_graph = Ok t
    ∧ tree_store t !! "/x/y" = Some c
    ∧ output_boundary_link "/x/y/p" "v" ∈ Composite.links c.
Proof.
  destruct (onnx_graph_to_graphbook (iteration := elements_iteration) rooted_producer_graph)
    as [t|e] eqn:Hconv; [|vm_compute in Hconv; discriminate].
  assert (is_Some (tree_store t !! "/x/y")) as [c Hc].
  { vm_compute in Hconv. injection Hconv as <-. vm_compute. eauto. }
  pose (src := {| op_name := "/x/y/p"; op_opType := "Relu"; op_input := [];
                  op_output := ["v"]; op_composite_path := "/x/y";
                  op_attribute := []; op_type_meta_data := None |}).
  assert (NoDup (op_name <$> onnx_ops rooted_producer_graph)) as Hnd
    by apply NoDup_singleton.
  assert (rooted_producer_link ∈ onnx_links rooted_producer_graph) as Hlink
    by (simpl; left).
  assert (name_to_op_of rooted_producer_graph !! link_source rooted_producer_link
          = Some src) as Hsrc by reflexivity.
  assert (link_source rooted_producer_link ≠ graph_name rooted_producer_graph) as Hsource
    by discriminate.
  assert (op_composite_path src ≠ "") as Hpath by discriminate.
  assert (op_composite_path src ≠ graph_name rooted_producer_graph) as Hnot_root
    by discriminate.
  exists t, c. split; [reflexivity|]. split; [exact Hc|].
  exact (graph_output_link_exits_its_scope (iteration := elements_iteration)
           rooted_producer_graph t rooted_producer_link src "p" c
           Hnd Hconv Hlink eq_refl Hsource Hsrc Hpath Hnot_root eq_refl eq_refl Hc).
Defined.

Lemma nested_composites_witness :
  ∃ t root c,
    onnx_graph_to_graphbook (iteration := elements_iteration) rooted_producer_graph = Ok t
    ∧ tree_store t !! "g" = Some root
    ∧ ChildComposite "/x" ∈ Composite.operations root
    ∧ tree_store t !! "/x" = Some c
    ∧ ChildComposite "/x/y" ∈ Composite.operations c
    ∧ ChildComposite "/x/y" ∉ Composite.operations root.
Proof.
  destruct (onnx_graph_to_graphbook (iteration := elements_iteration) rooted_producer_graph)
    as [t|e] eqn:Hconv; [|vm_compute in Hconv; discriminate].
  assert (is_Some (tree_store t !! "/x")) as [c Hc].
  { vm_compute in Hconv. injection Hconv as <-. vm_compute. eauto. }
  assert (is_Some (tree_store t !! "g")) as [root Hroot].
  { vm_compute in Hconv. injection Hconv as <-. vm_compute. eauto. }
  exists t, root, c. split; [reflexivity|]. split; [exact Hroot|].
  split; [|split; [exact Hc|split]].
  - apply (nested_composites (iteration := elements_iteration) rooted_producer_graph
             t "g" root "/x" Hconv Hroot).
    split; [vm_compute; reflexivity|]. split; [discriminate|].
    split; [vm_compute; lia|reflexivity].
  - apply (nested_composites (iteration := elements_iteration) rooted_producer_graph
             t "/x" c "/x/y" Hconv Hc).
    split; [vm_compute; reflexivity|]. split; [discriminate|].
    split; [vm_compute; lia|reflexivity].
  - intros Hin.
    apply (nested_composites (iteration := elements_iteration) rooted_producer_graph
             t "g" root "/x/y" Hconv Hroot) in Hin as (_ & _ & _ & Hparent).
    vm_compute in Hparent. discriminate.
Defined.

Lemma scope_free_conversion_witness :
  onnx_graph_to_graphbook (iteration := elements_iteration) flat_graph
  = Ok {| tree_root := "g";
          tree_store :=
            {[ "g" := flat_composite flat_graph
                        [ direct_link {| link_source := "A"; link_sink := "B";
                                         link_var_name := "v" |};
                          direct_link {| link_source := "B"; link_sink := "g";
                                         link_var_name := "y" |} ] ]} |}.
Proof.
  assert (NoDup (op_name <$> onnx_ops flat_graph)) as Hnd.
  { simpl. apply NoDup_cons. split; [|apply NoDup_singleton].
    intros Hin%list_elem_of_singleton. discriminate. }
  assert (scope_free flat_graph) as Hfree.
  { intros op Hop. simpl in Hop.
    apply elem_of_cons in Hop as [Hop|Hop]; [by subst|].
    apply list_elem_of_singleton in Hop. by subst. }
  assert (Forall (fun link => link_raises flat_graph (name_to_op_of flat_graph) link = false)
                 (onnx_links flat_graph)) as Hresolve.
  { repeat (constructor; [vm_compute; reflexivity|]). constructor. }
  assert (∀ op, op ∈ onnx_ops flat_graph → is_ok (onnx_op_to_graphbook op) = true) as Hops.
  { intros op Hop. simpl in Hop.
    apply elem_of_cons in Hop as [Hop|Hop]; [by subst|].
    apply list_elem_of_singleton in Hop. by subst. }
  destruct (scope_free_conversion (iteration := elements_iteration) flat_graph
              Hnd Hfree Hresolve Hops) as [_ Hconv].
  rewrite Hconv. reflexivity.
Defined.

Lemma top_level_scope_rejects_outside_producer_witness :
  is_ok (onnx_graph_to_graphbook (iteration := elements_iteration) top_level_consumer_graph)
  = false.
Proof.
  pose (src := {| op_name := "A"; op_opType := "Relu"; op_input := [];
                  op_output := ["v"]; op_composite_path := "";
                  op_attribute := []; op_type_meta_data := None |}).
  pose (snk := {| op_name := "x/B"; op_opType := "Relu"; op_input := ["v"];
                  op_output := []; op_composite_path := "x";
                  op_attribute := []; op_type_meta_data := None |}).
  refine (proj2 (top_level_scope_rejects_outside_producer (iteration := elements_iteration)
                   top_level_consumer_graph top_level_consumer_link src snk
                   _ _ _ _ _ _ _ _ _ _ _ _ _)).
  - simpl. apply NoDup_cons. split; [|apply NoDup_singleton].
    intros Hin%list_elem_of_singleton. discriminate.
  - simpl; left.
  - reflexivity.
  - reflexivity.
  - discriminate.
  - discriminate.
  - apply not_elem_of_nil.
  - reflexivity.
  - discriminate.
  - discriminate.
  - reflexivity.
  - reflexivity.
  - intros link' Hlink' _. apply list_elem_of_singleton in Hlink'. by subst link'.
Defined.

Lemma outside_producer_enters_at_boundary_witness :
  ∃ t c,
    onnx_graph_to_graphbook (iteration := elements_iteration) rooted_consumer_graph = Ok t
    ∧ tree_store t !! "/x" = Some c
    ∧ input_boundary_link "/x/B" "v" ∈ Composite.links c.
Proof.
  destruct (onnx_graph_to_graphbook (iteration := elements_iteration) rooted_consumer_graph)
    as [t|e] eqn:Hconv; [|vm_compute in Hconv; discriminate].
  assert (is_Some (tree_store t !! "/x")) as [c Hc].
  { vm_compute in Hconv. injection Hconv as <-. vm_compute. eauto. }
  pose (src := {| op_name := "A"; op_opType := "Relu"; op_input := [];
                  op_output := ["v"]; op_composite_path := "";
                  op_attribute := []; op_type_meta_data := None |}).
  pose (snk := {| op_name := "/x/B"; op_opType := "Relu"; op_input := ["v"];
                  op_output := []; op_composite_path := "/x";
                  op_attribute := []; op_type_meta_data := None |}).
  assert (NoDup (op_name <$> onnx_ops rooted_consumer_graph)) as Hnd.
  { simpl. apply NoDup_cons. split; [|apply NoDup_singleton].
    intros Hin%list_elem_of_singleton. discriminate. }
  assert (rooted_consumer_link ∈ onnx_links rooted_consumer_graph) as Hlink
    by (simpl; left).
  assert (link_source rooted_consumer_link ≠ graph_name rooted_consumer_graph) as Hsource
    by discriminate.
  assert (link_sink rooted_consumer_link ≠ graph_name rooted_consumer_graph) as Hsink
    by discriminate.
  assert (link_var_name rooted_consumer_link ∉ graph_outputs rooted_consumer_graph) as Hout
    by apply not_elem_of_nil.
  assert (2 <= depth (op_composite_path snk)) as Hdepth by (vm_compute; lia).
  assert (op_composite_path snk ≠ graph_name rooted_consumer_graph) as Hnot_root
    by discriminate.
  exists t, c. split; [reflexivity|]. split; [exact Hc|].
  exact (outside_producer_enters_at_boundary (iteration := elements_iteration)
           rooted_consumer_graph t rooted_consumer_link src snk c
           Hnd Hconv Hlink eq_refl eq_refl Hsource Hsink Hout eq_refl Hdepth
           Hnot_root eq_refl Hc).
Defined.

Lemma nested_producer_link_leaves_from_child_witness :
  ∃ t c,
    onnx_graph_to_graphbook (iteration := elements_iteration) rooted_enclosing_graph = Ok t
    ∧ tree_store t !! "/a" = Some c
    ∧ relay_link "/a/b" "/a/q" "v" ∈ Composite.links c.
Proof.
  destruct (onnx_graph_to_graphbook (iteration := elements_iteration) rooted_enclosing_graph)
    as [t|e] eqn:Hconv; [|vm_compute in Hconv; discriminate].
  assert (is_Some (tree_store t !! "/a")) as [c Hc].
  { vm_compute in Hconv. injection Hconv as <-. vm_compute. eauto. }
  pose (src := {| op_name := "/a/b/p"; op_opType := "Relu"; op_input := [];
                  op_output := ["v"]; op_composite_path := "/a/b";
                  op_attribute := []; op_type_meta_data := None |}).
  pose (snk := {| op_name := "/a/q"; op_opType := "Relu"; op_input := ["v"];
                  op_output := []; op_composite_path := "/a";
                  op_attribute := []; op_type_meta_data := None |}).
  assert (NoDup (op_name <$> onnx_ops rooted_enclosing_graph)) as Hnd.
  { simpl. apply NoDup_cons. split; [|apply NoDup_singleton].
    intros Hin%list_elem_of_singleton. discriminate. }
  assert (rooted_enclosing_link ∈ onnx_links rooted_enclosing_graph) as Hlink
    by (simpl; left).
  assert (link_source rooted_enclosing_link ≠ graph_name rooted_enclosing_graph)
    as Hsource by discriminate.
  assert (link_sink rooted_enclosing_link ≠ graph_name rooted_enclosing_graph)
    as Hsink by discriminate.
  assert (link_var_name rooted_enclosing_link ∉ graph_outputs rooted_enclosing_graph)
    as Hout by apply not_elem_of_nil.
  assert (op_composite_path snk ≠ "") as Hscope by discriminate.
  assert (op_composite_path snk ≠ graph_name rooted_enclosing_graph) as Hnot_root
    by discriminate.
  assert (["b"] ≠ ([] : list string)) as HB by discriminate.
  assert (scope_prefix (depth (op_composite_path snk) + 1) (op_composite_path src)
          ≠ graph_name rooted_enclosing_graph) as Hchild by (vm_compute; discriminate).
  exists t, c. split; [reflexivity|]. split; [exact Hc|].
  exact (nested_producer_link_leaves_from_child (iteration := elements_iteration)
           rooted_enclosing_graph t rooted_enclosing_link src snk ["b"] "p" c
           Hnd Hconv Hlink eq_refl eq_refl Hsource Hsink Hout Hscope Hnot_root HB
           eq_refl eq_refl Hchild Hc).
Defined.

Lemma assembly_store_witness :
  ∃ st c,
    _compile_graphbook_operations_from_composite_map (iteration := elements_iteration)
      nested_producer_graph
      (_compile_onnx_composite_map nested_producer_graph {[""]}).1
      (_compile_onnx_composite_map nested_producer_graph {[""]}).2 ∅
      (_calculate_composite_input_outputs "v" "x/y" "" ∅) = Ok st
    ∧ as_graphbook_composite_map st !! "x/y" = Some c
    ∧ Composite.outputs c = [Variable_named "v"]
    ∧ Composite.links c = [].
Proof.
  destruct (_compile_graphbook_operations_from_composite_map
              (iteration := elements_iteration) nested_producer_graph
              (_compile_onnx_composite_map nested_producer_graph {[""]}).1
              (_compile_onnx_composite_map nested_producer_graph {[""]}).2 ∅
              (_calculate_composite_input_outputs "v" "x/y" "" ∅))
    as [st|e] eqn:Hasm; [|vm_compute in Hasm; discriminate].
  destruct (assembly_store (iteration := elements_iteration) nested_producer_graph
              _ _ _ _ st Hasm) as [Hdom Hshape].
  destruct (proj2 (Hdom "x/y")) as [c Hc].
  { exists "x/y". split; vm_compute; reflexivity. }
  exists st, c. split; [reflexivity|]. split; [exact Hc|].
  destruct (Hshape "x/y" c Hc) as (_ & _ & _ & Hlinks & _ & Hio).
  destruct Hio as [_ Houts]; [discriminate|].
  split; [|exact Hlinks]. rewrite Houts. reflexivity.
Defined.

Lemma wiring_never_raises_witness :
  ∃ st gcm,
    _compile_graphbook_operations_from_composite_map (iteration := elements_iteration)
      nested_producer_graph
      (_compile_onnx_composite_map nested_producer_graph {[""]}).1
      (_compile_onnx_composite_map nested_producer_graph {[""]}).2 ∅
      (_calculate_composite_input_outputs "v" "x/y" "" ∅) = Ok st
    ∧ _compile_links_between_composite (iteration := elements_iteration)
        nested_producer_graph (as_graphbook_composite_map st)
        (_compile_onnx_composite_map nested_producer_graph {[""]}).2 = Ok gcm
    ∧ is_Some (gcm !! "g").
Proof.
  destruct (_compile_graphbook_operations_from_composite_map
              (iteration := elements_iteration) nested_producer_graph
              (_compile_onnx_composite_map nested_producer_graph {[""]}).1
              (_compile_onnx_composite_map nested_producer_graph {[""]}).2 ∅
              (_calculate_composite_input_outputs "v" "x/y" "" ∅))
    as [st|e] eqn:Hasm; [|vm_compute in Hasm; discriminate].
  destruct (wiring_never_raises (iteration := elements_iteration) nested_producer_graph
              ∅ (_calculate_composite_input_outputs "v" "x/y" "" ∅) st Hasm)
    as (gcm & Hwire & _ & Hroot).
  exists st, gcm. split; [reflexivity|]. split; [exact Hwire|exact Hroot].
Defined.

Lemma link_map_filing_witness :
  ∃ clm cvm,
    _compile_onnx_composite_link_map flat_graph (name_to_op_of flat_graph) ∅ = Ok (clm, cvm)
    ∧ default [] (dict_get "g" clm) = onnx_links flat_graph.
Proof.
  destruct (link_map_filing flat_graph ∅) as [Hok Hfiling].
  destruct (_compile_onnx_composite_link_map flat_graph (name_to_op_of flat_graph) ∅)
    as [[clm cvm]|e] eqn:Hmap; [|vm_compute in Hmap; discriminate].
  exists clm, cvm. split; [reflexivity|].
  destruct (Hfiling clm cvm eq_refl) as (Hget & _ & _).
  rewrite (Hget "g"). reflexivity.
Defined.

Lemma conversion_without_metadata_witness :
  ∃ p,
    onnx_op_to_graphbook file_reader_operation = Ok p
    ∧ prim_type p = PRIMITIVE_OPERATION
    ∧ var_primitive_name <$> prim_inputs p
      = [Some "file_name"; Some "dir_name"; Some "extraction_schema"; None]
    ∧ var_primitive_name <$> prim_outputs p = [None].
Proof.
  destruct (conversion_without_metadata file_reader_operation eq_refl) as (p & Hp & _).
  exists p. split; [exact Hp|].
  vm_compute in Hp. injection Hp as <-. split_and!; reflexivity.
Defined.

Lemma conversion_with_metadata_needs_inputs_witness :
  onnx_op_to_graphbook undescribed_operation = Raise (KeyError "inputs").
Proof.
  assert (op_input undescribed_operation ≠ []) as Hinput by discriminate.
  exact (proj1 (conversion_with_metadata_needs_inputs undescribed_operation _
                  eq_refl Hinput) eq_refl).
Defined.

(** ** The corrected claims at concrete inputs *)

(** Claim C2 as stated fails.  The link of [ancestor_output_graph] goes
    from the scope [a/b] to the scope [a], but its variable is a
    declared graph output: the link is dropped and the scope [a/b] gets
    no required output.  So it is when the producer is named like the
    graph (the link is taken to start at the graph boundary); when the
    consumer is named like the graph the link is taken to end at the
    boundary and the scope [a] gets a required output, and so does the
    empty scope of a consumer outside any scope. *)
Lemma C2_counterexample :
  (ancestor_output_link ∈ onnx_links ancestor_output_graph
   ∧ op_composite_path <$> name_to_op_of ancestor_output_graph
                             !! link_source ancestor_output_link = Some "a/b"
   ∧ op_composite_path <$> name_to_op_of ancestor_output_graph
                             !! link_sink ancestor_output_link = Some "a"
   ∧ _compile_onnx_composite_link_map ancestor_output_graph
       (name_to_op_of ancestor_output_graph) ∅ = Ok ([], ∅)
   ∧ link_var_name ancestor_output_link ∉ required OUTPUT "a/b" (∅ : var_map))
  ∧ (∃ clm cvm,
       _compile_onnx_composite_link_map source_named_graph
         (name_to_op_of source_named_graph) ∅ = Ok (clm, cvm)
       ∧ required OUTPUT "a/b" cvm = [])
  ∧ (∃ clm cvm,
       _compile_onnx_composite_link_map sink_named_graph
         (name_to_op_of sink_named_graph) ∅ = Ok (clm, cvm)
       ∧ required OUTPUT "a" cvm = ["v"])
  ∧ (∃ clm cvm,
       _compile_onnx_composite_link_map root_consumer_graph
         (name_to_op_of root_consumer_graph) ∅ = Ok (clm, cvm)
       ∧ required OUTPUT "" cvm = ["v"]).
Proof.
  split_and!; [simpl; by left|by vm_compute..| | | |].
  - unfold required. simpl. apply not_elem_of_nil.
  - eexists _, _. split; by vm_compute.
  - eexists _, _. split; by vm_compute.
  - eexists _, _. split; by vm_compute.
Qed.

Lemma C2_witness :
  ∃ cvm',
    link_map_step enclosing_consumer_graph (name_to_op_of enclosing_consumer_graph)
      ([], ∅) enclosing_consumer_link
    = Ok ([("a", [enclosing_consumer_link])], cvm')
    ∧ "v" ∈ required OUTPUT "a/b" cvm'
    ∧ required OUTPUT "a" cvm' = []
    ∧ required INPUT "a" cvm' = [].
Proof.
  pose (src := {| op_name := "a/b/p"; op_opType := "Relu"; op_input := [];
                  op_output := ["v"]; op_composite_path := "a/b";
                  op_attribute := []; op_type_meta_data := None |}).
  pose (snk := {| op_name := "a/q"; op_opType := "Relu"; op_input := ["v"];
                  op_output := []; op_composite_path := "a";
                  op_attribute := []; op_type_meta_data := None |}).
  assert (link_source enclosing_consumer_link ≠ graph_name enclosing_consumer_graph)
    as Hsource by discriminate.
  assert (link_sink enclosing_consumer_link ≠ graph_name enclosing_consumer_graph)
    as Hsink by discriminate.
  assert (name_to_op_of enclosing_consumer_graph !! link_source enclosing_consumer_link
          = Some src) as Hsrc by reflexivity.
  assert (name_to_op_of enclosing_consumer_graph !! link_sink enclosing_consumer_link
          = Some snk) as Hsnk by reflexivity.
  assert (link_var_name enclosing_consumer_link ∉ graph_outputs enclosing_consumer_graph)
    as Hout by apply not_elem_of_nil.
  assert ("a" ≠ "") as Ha by discriminate.
  destruct (C2_consumer_ancestor_link enclosing_consumer_graph enclosing_consumer_link
              src snk "a" "b" [] ∅ Hsource Hsink Hsrc Hsnk Hout Ha eq_refl eq_refl)
    as (cvm' & Hstep & Hadded & _ & Houts & Hins & _).
  exists cvm'. split; [exact Hstep|]. split; [exact Hadded|].
  split; [exact Houts|exact Hins].
Defined.

(** Claim C3 as stated fails.  For the link of [enclosing_consumer_graph],
    whose consumer scope [a] is a strict prefix of its producer scope
    [a/b], the consumer scope gets no required input; the variable
    becomes a required output of the producer scope instead.  Not even
    that happens when the variable is a declared graph output (the link
    is dropped) or when the producer is named like the graph; when the
    consumer is named like the graph the consumer scope gets a required
    output as well. *)
Lemma C3_counterexample :
  (enclosing_consumer_link ∈ onnx_links enclosing_consumer_graph
   ∧ op_composite_path <$> name_to_op_of enclosing_consumer_graph
                             !! link_source enclosing_consumer_link = Some "a/b"
   ∧ op_composite_path <$> name_to_op_of enclosing_consumer_graph
                             !! link_sink enclosing_consumer_link = Some "a"
   ∧ ∃ clm cvm,
       _compile_onnx_composite_link_map enclosing_consumer_graph
         (name_to_op_of enclosing_consumer_graph) ∅ = Ok (clm, cvm)
       ∧ required INPUT "a" cvm = []
       ∧ required INPUT "a/b" cvm = []
       ∧ required OUTPUT "a/b" cvm = ["v"])
  ∧ _compile_onnx_composite_link_map ancestor_output_graph
      (name_to_op_of ancestor_output_graph) ∅ = Ok ([], ∅)
  ∧ (∃ clm cvm,
       _compile_onnx_composite_link_map source_named_graph
         (name_to_op_of source_named_graph) ∅ = Ok (clm, cvm)
       ∧ required OUTPUT "a/b" cvm = [])
  ∧ (∃ clm cvm,
       _compile_onnx_composite_link_map sink_named_graph
         (name_to_op_of sink_named_graph) ∅ = Ok (clm, cvm)
       ∧ required OUTPUT "a" cvm = ["v"]).
Proof.
  split_and!; [simpl; by left|by vm_compute..| | | |].
  - eexists _, _. split_and!; by vm_compute.
  - by vm_compute.
  - eexists _, _. split; by vm_compute.
  - eexists _, _. split; by vm_compute.
Qed.

Lemma C3_witness :
  ∃ clm' cvm',
    link_map_step enclosing_consumer_graph (name_to_op_of enclosing_consumer_graph)
      ([], ∅) enclosing_consumer_link = Ok (clm', cvm')
    ∧ "v" ∈ required OUTPUT "a/b" cvm'
    ∧ cvm' !! "a" = None
    ∧ field_of INPUT "a/b" cvm' = None.
Proof.
  pose (src := {| op_name := "a/b/p"; op_opType := "Relu"; op_input := [];
                  op_output := ["v"]; op_composite_path := "a/b";
                  op_attribute := []; op_type_meta_data := None |}).
  pose (snk := {| op_name := "a/q"; op_opType := "Relu"; op_input := ["v"];
                  op_output := []; op_composite_path := "a";
                  op_attribute := []; op_type_meta_data := None |}).
  assert (link_source enclosing_consumer_link ≠ graph_name enclosing_consumer_graph)
    as Hsource by discriminate.
  assert (link_sink enclosing_consumer_link ≠ graph_name enclosing_consumer_graph)
    as Hsink by discriminate.
  assert (name_to_op_of enclosing_consumer_graph !! link_source enclosing_consumer_link
          = Some src) as Hsrc by reflexivity.
  assert (name_to_op_of enclosing_consumer_graph !! link_sink enclosing_consumer_link
          = Some snk) as Hsnk by reflexivity.
  assert (link_var_name enclosing_consumer_link ∉ graph_outputs enclosing_consumer_graph)
    as Hout by apply not_elem_of_nil.
  assert (strict_scope_prefix (op_composite_path snk) (op_composite_path src)) as Hprefix.
  { unfold strict_scope_prefix. simpl. exists ["b"]. split; [discriminate|reflexivity]. }
  destruct (C3_consumer_prefix_link enclosing_consumer_graph enclosing_consumer_link
              src snk [] ∅ Hsource Hsink Hsrc Hsnk Hout Hprefix)
    as (clm' & cvm' & Hstep & Hadded & Hframe & Hins & _).
  exists clm', cvm'. split; [exact Hstep|]. split_and!.
  - apply (Hadded 2). vm_compute. lia.
  - rewrite (Hframe "a"); [reflexivity|].
    intros d Hd. vm_compute in Hd. assert (d = 2) as -> by lia. discriminate.
  - rewrite (Hins "a/b"). reflexivity.
Defined.

(** Claim C9 as stated fails: the root of a graph with one root operation
    reading the graph input [x] declares [x] and has no link at all. *)
Lemma C9_counterexample :
  ∃ t root,
    onnx_graph_to_graphbook (iteration := elements_iteration) root_input_graph = Ok t
    ∧ tree_store t !! tree_root t = Some root
    ∧ "x" ∈ names_of (Composite.inputs root)
    ∧ Composite.links root = []
    ∧ ¬ interface_complete root.
Proof.
  eexists _, _. split_and!.
  - by vm_compute.
  - by vm_compute.
  - simpl. set_solver.
  - done.
  - intros [Hin _]. destruct (Hin "x") as (l & Hl & _).
    + simpl. set_solver.
    + by apply elem_of_nil in Hl.
Qed.

Lemma C9_witness :
  ∃ t parent sub_op,
    onnx_graph_to_graphbook (iteration := elements_iteration) rooted_producer_graph = Ok t
    ∧ tree_store t !! "/x" = Some parent
    ∧ tree_store t !! "/x/y" = Some sub_op
    ∧ has_link_to_this parent "v".
Proof.
  destruct (onnx_graph_to_graphbook (iteration := elements_iteration) rooted_producer_graph)
    as [t|e] eqn:Hconv; [|vm_compute in Hconv; discriminate].
  assert (∃ parent, tree_store t !! "/x" = Some parent
                    ∧ ChildComposite "/x/y" ∈ Composite.operations parent
                    ∧ "v" ∈ names_of (Composite.outputs parent)) as (parent & Hparent & Hchild & Hv).
  { vm_compute in Hconv. injection Hconv as <-. eexists. split; [vm_compute; reflexivity|].
    split; simpl; left. }
  destruct (C9_nested_interface_wired (iteration := elements_iteration)
              rooted_producer_graph t "/x" parent "/x/y" Hconv Hparent Hchild)
    as (sub_op & Hsub & _ & Hout).
  exists t, parent, sub_op. split; [reflexivity|]. split; [exact Hparent|].
  split; [exact Hsub|]. refine (proj2 (Hout "v" _ Hv)).
  pose proof Hconv as Heq. vm_compute in Heq. injection Heq as Heq. subst t.
  vm_compute in Hsub. injection Hsub as <-. simpl. left.
Defined.

Lemma type_from_str_markers_witness :
  _get_graphbook_type_from_str "tensor(int64)" = INTEGER
  ∧ _get_graphbook_type_from_str "sequence" = NULL.
Proof.
  destruct (type_from_str_markers "tensor(int64)") as (Hint & _).
  destruct (type_from_str_markers "sequence") as (_ & _ & _ & _ & Hnull).
  split.
  - apply Hint. left. exists "tensor", "64)". reflexivity.
  - assert (∀ pat, occurs_in (String "(" pat) "sequence" → False) as Hparen.
    { intros pat (pre & post & Heq). clear -Heq.
      repeat (destruct pre as [|? pre]; simpl in Heq; [discriminate|];
              first [injection Heq as _ Heq|discriminate]). }
    apply Hnull. split_and!.
    + intros [H|H]; by apply Hparen in H.
    + intros [H|[H|H]]; by apply Hparen in H.
    + intros H. by apply Hparen in H.
    + intros H. by apply Hparen in H.
Defined.
